(** * pi-team: the coordination daemon's store, its path-safe I/O layer and
      the guard client's discovery, embedded from the TypeScript sources.

    Sources embedded here:
    - [src/io/index.ts]        (assertNoTraversal, isWithinRoot, safeJoin,
                                readJsonlSafe),
    - [src/teamd/store.ts]     (TeamdStore and its helpers),
    - [src/extension/teamd-client.ts] (parseTokenFile, discover).

    Conventions of the embedding:
    - A JavaScript string is the [string] of the bytes of its UTF-8
      encoding (a lone surrogate is written as the three bytes of its
      code point). Comparison, search and [split] on a character agree
      on the two forms; [trim], [parseInt] and [slice] follow the
      characters.
    - Numbers that the code uses as counters or millisecond clocks are [Z].
      An RFC 3339 time stamp is the [Z] number of milliseconds it denotes
      ([Date.parse] of [toISOString] is the identity on valid dates).
    - Every queued store operation is evaluated at one clock reading [now].
    - Files are the values they hold: [tasks/<id>.json] is an entry of a
      finite map, a missing file is a missing entry. This is what the code
      does for an identifier that is a file name ([Helpers.isFileName]);
      an identifier with a slash names another file, and what is said of
      a missing task is said of file names only.
    - [node:path] is the POSIX flavour ([sep] is the slash). *)

From Stdlib Require Import ZArith Ascii String List Bool Lia.
From Stdlib Require Import DecimalString DecimalNat.
From Stdlib Require Import QArith.QArith_base QArith.Qround.
From stdpp Require Import base option list gmap strings.

Local Open Scope Z_scope.
Set Warnings "-register-all".

(* ===================================================================== *)
(** ** JavaScript string primitives *)
(* ===================================================================== *)

Module Str.

Definition nonEmpty (s : string) : bool :=
  match s with EmptyString => false | String _ _ => true end.

(** [s.startsWith(p)] *)
Definition startsWith (s p : string) : bool := String.prefix p s.

(** [s.endsWith(p)] *)
Fixpoint endsWith (s p : string) : bool :=
  String.eqb s p ||
  match s with
  | EmptyString => false
  | String _ s' => endsWith s' p
  end.

(** [s.includes(p)] *)
Fixpoint includes (s p : string) : bool :=
  startsWith s p ||
  match s with
  | EmptyString => false
  | String _ s' => includes s' p
  end.

(** [s.split(c)] for a one-character separator: never the empty list. *)
Fixpoint split (c : ascii) (s : string) : list string :=
  match s with
  | EmptyString => [EmptyString]
  | String a s' =>
      if Ascii.eqb a c then EmptyString :: split c s'
      else match split c s' with
           | [] => [String a EmptyString]
           | w :: ws => String a w :: ws
           end
  end.

(** [l.join(sep)] *)
Definition join (sep : string) (l : list string) : string :=
  String.concat sep l.

(** [s.replaceAll(a, b)] for single characters. *)
Fixpoint replaceAll (a b : ascii) (s : string) : string :=
  match s with
  | EmptyString => EmptyString
  | String c s' => String (if Ascii.eqb c a then b else c) (replaceAll a b s')
  end.

(** [s.replace(/^c+/, "")] *)
Fixpoint dropLeading (c : ascii) (s : string) : string :=
  match s with
  | String a s' => if Ascii.eqb a c then dropLeading c s' else s
  | EmptyString => EmptyString
  end.

(** [s.replace(/c+$/, "")] *)
Fixpoint dropTrailing (c : ascii) (s : string) : string :=
  match s with
  | EmptyString => EmptyString
  | String a s' =>
      match dropTrailing c s' with
      | EmptyString => if Ascii.eqb a c then EmptyString else String a EmptyString
      | r => String a r
      end
  end.

(** White space of [String.prototype.trim] (WhiteSpace and
    LineTerminator of ECMAScript) in one byte: TAB, LF, VT, FF, CR and the
    space. *)
Definition isSpace (a : ascii) : bool :=
  let n := nat_of_ascii a in
  ((9 <=? n)%nat && (n <=? 13)%nat) || (n =? 32)%nat.

(** In two bytes: U+00A0 (C2 A0). *)
Definition isSpace2 (a b : ascii) : bool :=
  ((nat_of_ascii a =? 194) && (nat_of_ascii b =? 160))%nat.

(** In three bytes: U+1680 (E1 9A 80), U+2000 to U+200A (E2 80 80 to
    E2 80 8A), U+2028 and U+2029 (E2 80 A8, E2 80 A9), U+202F (E2 80 AF),
    U+205F (E2 81 9F), U+3000 (E3 80 80) and U+FEFF (EF BB BF). *)
Definition isSpace3 (a b c : ascii) : bool :=
  let x := nat_of_ascii a in
  let y := nat_of_ascii b in
  let z := nat_of_ascii c in
  ((x =? 225) && (y =? 154) && (z =? 128) ||
   (x =? 226) && (y =? 128) &&
     ((128 <=? z) && (z <=? 138) || (z =? 168) || (z =? 169) || (z =? 175)) ||
   (x =? 226) && (y =? 129) && (z =? 159) ||
   (x =? 227) && (y =? 128) && (z =? 128) ||
   (x =? 239) && (y =? 187) && (z =? 191))%nat.

(** [s.trimStart()] *)
Fixpoint trimStart (s : string) : string :=
  match s with
  | EmptyString => EmptyString
  | String a s1 =>
      if isSpace a then trimStart s1
      else
        match s1 with
        | EmptyString => s
        | String b s2 =>
            if isSpace2 a b then trimStart s2
            else
              match s2 with
              | EmptyString => s
              | String c s3 => if isSpace3 a b c then trimStart s3 else s
              end
        end
  end.

(** [s.trimEnd()]: the string is cut where what follows is white space
    only. *)
Fixpoint trimEnd (s : string) : string :=
  match s with
  | EmptyString => EmptyString
  | String a s' =>
      if nonEmpty (trimStart s) then String a (trimEnd s') else EmptyString
  end.

(** [s.trim()] *)
Definition trim (s : string) : string := trimEnd (trimStart s).

(** The character class [[a-zA-Z0-9._-]]. *)
Definition isIdChar (a : ascii) : bool :=
  let n := nat_of_ascii a in
  ((48 <=? n) && (n <=? 57) || (65 <=? n) && (n <=? 90) ||
   (97 <=? n) && (n <=? 122) || (n =? 46) || (n =? 95) || (n =? 45))%nat.

Fixpoint forallChars (p : ascii -> bool) (s : string) : bool :=
  match s with
  | EmptyString => true
  | String a s' => p a && forallChars p s'
  end.

(** [/^[a-zA-Z0-9._-]+$/.test(s)] *)
Definition isIdentifier (s : string) : bool :=
  nonEmpty s && forallChars isIdChar s.

Definition isDigit (a : ascii) : bool :=
  let n := nat_of_ascii a in ((48 <=? n) && (n <=? 57))%nat.

(** [[...new Set(l)]]: the first occurrence of every element, in order. *)
Fixpoint dedupeFrom (seen l : list string) : list string :=
  match l with
  | [] => []
  | x :: l' =>
      if bool_decide (x ∈ seen) then dedupeFrom seen l'
      else x :: dedupeFrom (x :: seen) l'
  end.

Definition dedupe (l : list string) : list string := dedupeFrom [] l.

(** [s.padStart(n, "0")] *)
Definition padStart0 (n : nat) (s : string) : string :=
  String.concat "" (repeat "0" (n - String.length s)) +:+ s.

End Str.

(* ===================================================================== *)
(** ** [node:path], POSIX flavour *)
(* ===================================================================== *)

Module NodePath.

Definition sepChar : ascii := "/"%char.
Definition sep : string := "/".

(** [isAbsolute(p)] *)
Definition isAbsolute (p : string) : bool := Str.startsWith p sep.

(** One step of the segment stack of [normalizeString]; the stack is kept
    with its last segment first. *)
Definition pushSegment (allowAboveRoot : bool) (stack : list string)
    (seg : string) : list string :=
  if String.eqb seg "" || String.eqb seg "." then stack
  else if String.eqb seg ".." then
    match stack with
    | [] => if allowAboveRoot then [".."] else []
    | top :: below =>
        if String.eqb top ".." then
          (if allowAboveRoot then ".." :: stack else stack)
        else below
    end
  else seg :: stack.

Definition normalizeSegments (allowAboveRoot : bool) (segs : list string)
    : list string :=
  rev (fold_left (pushSegment allowAboveRoot) segs []).

(** [normalizeString(path, allowAboveRoot, "/", isPosixPathSeparator)] *)
Definition normalizeString (path : string) (allowAboveRoot : bool) : string :=
  Str.join sep (normalizeSegments allowAboveRoot (Str.split sepChar path)).

(** [normalize(path)] *)
Definition normalize (path : string) : string :=
  if negb (Str.nonEmpty path) then "."
  else
    let isAbs := isAbsolute path in
    let trailingSeparator := Str.endsWith path sep in
    let p := normalizeString path (negb isAbs) in
    if negb (Str.nonEmpty p) then
      (if isAbs then "/" else if trailingSeparator then "./" else ".")
    else
      let p' := if trailingSeparator then p +:+ "/" else p in
      if isAbs then "/" +:+ p' else p'.

(** [resolve(a, b)]: the arguments are taken from the right until the
    path is absolute, the working directory [cwd] comes last. *)
Definition resolve (cwd a b : string) : string :=
  let r0 := if Str.nonEmpty b then b +:+ "/" else "" in
  let abs0 := Str.nonEmpty b && isAbsolute b in
  let r1 := if abs0 then r0
            else if Str.nonEmpty a then a +:+ "/" +:+ r0 else r0 in
  let abs1 := abs0 || (Str.nonEmpty a && isAbsolute a) in
  let r2 := if abs1 then r1 else cwd +:+ "/" +:+ r1 in
  let abs2 := abs1 || isAbsolute cwd in
  let r := normalizeString r2 (negb abs2) in
  if abs2 then "/" +:+ r
  else if Str.nonEmpty r then r else ".".

(** [join(a, b)] *)
Definition join (a b : string) : string :=
  match Str.nonEmpty a, Str.nonEmpty b with
  | false, false => "."
  | true, false => normalize a
  | false, true => normalize b
  | true, true => normalize (a +:+ "/" +:+ b)
  end.

End NodePath.

Example normalize_ex1 : NodePath.normalize "a/../b" = "b".
Proof. reflexivity. Qed.
Example normalize_ex2 : NodePath.normalize "../outside.json" = "../outside.json".
Proof. reflexivity. Qed.
Example normalize_ex3 : NodePath.normalize "/a//b/./c/" = "/a/b/c/".
Proof. reflexivity. Qed.
Example normalize_ex4 : NodePath.normalize "./" = "./".
Proof. reflexivity. Qed.
Example normalize_ex5 : NodePath.normalize "a/b/../../.." = "..".
Proof. reflexivity. Qed.
Example resolve_ex1 : NodePath.resolve "/cwd" "/ws/team" "tasks/t.json" = "/ws/team/tasks/t.json".
Proof. reflexivity. Qed.
Example resolve_ex2 : NodePath.resolve "/cwd" "/ws/team" "." = "/ws/team".
Proof. reflexivity. Qed.
Example split_ex : Str.split "/"%char "a//b/" = ["a"; ""; "b"; ""].
Proof. reflexivity. Qed.
Example trim_ex : Str.trim "  a b  " = "a b".
Proof. reflexivity. Qed.
Example dedupe_ex : Str.dedupe ["a"; "b"; "a"; "c"; "b"] = ["a"; "b"; "c"].
Proof. reflexivity. Qed.
Example pad_ex : Str.padStart0 4 "12" = "0012".
Proof. reflexivity. Qed.

(* ===================================================================== *)
(** ** Results of fallible code *)
(* ===================================================================== *)

Inductive Result (E A : Type) : Type :=
| Ok (a : A)
| Err (e : E).
Arguments Ok {E A} a.
Arguments Err {E A} e.

Definition isOk {E A} (r : Result E A) : bool :=
  match r with Ok _ => true | Err _ => false end.

(* ===================================================================== *)
(** ** JSON values and [JSON.parse] *)
(* ===================================================================== *)

Inductive Json : Type :=
| JNull
| JBool (b : bool)
| JNum (n : Z)
| JStr (s : string)
| JArr (items : list Json)
| JObj (fields : list (string * Json)).

(** [value && typeof value === "object"] *)
Definition isObjectLike (v : Json) : bool :=
  match v with JArr _ | JObj _ => true | _ => false end.

(** [typeof obj[k] === "string" ? obj[k].trim() : ""] for a parsed object. *)
Fixpoint lookupField (k : string) (fields : list (string * Json)) : option Json :=
  match fields with
  | [] => None
  | (k', v) :: rest =>
      match lookupField k rest with
      | Some w => Some w
      | None => if String.eqb k k' then Some v else None
      end
  end.

(** A reference [JSON.parse] for the fragment of JSON made of [null],
    [true], [false], integers, strings without escapes, arrays and objects.
    The theorems below hold for every parser; this one evaluates the
    examples. *)
Module JsonText.

(** The double quote. *)
Definition dquote : ascii := "034"%char.

(** A JSON text written with apostrophes where JSON has double quotes. *)
Definition text (s : string) : string := Str.replaceAll "'" dquote s.

Definition isWs (a : ascii) : bool :=
  let n := nat_of_ascii a in
  ((n =? 32) || (n =? 9) || (n =? 10) || (n =? 13))%nat.

Fixpoint skipWs (s : string) : string :=
  match s with
  | String a s' => if isWs a then skipWs s' else s
  | EmptyString => EmptyString
  end.

Fixpoint dropPrefix (p s : string) : option string :=
  match p, s with
  | EmptyString, _ => Some s
  | String a p', String b s' => if Ascii.eqb a b then dropPrefix p' s' else None
  | String _ _, EmptyString => None
  end.

Fixpoint takeDigits (s : string) (acc : Z) : Z * string :=
  match s with
  | String a s' =>
      if Str.isDigit a
      then takeDigits s' (10 * acc + Z.of_nat (nat_of_ascii a - 48))
      else (acc, s)
  | EmptyString => (acc, s)
  end.

Definition parseNat (s : string) : option (Z * string) :=
  match s with
  | String a s' =>
      if Ascii.eqb a "0" then
        match s' with
        | String b _ => if Str.isDigit b then None else Some (0, s')
        | EmptyString => Some (0, s')
        end
      else if Str.isDigit a then Some (takeDigits s 0)
      else None
  | EmptyString => None
  end.

Fixpoint takeChars (s : string) : option (string * string) :=
  match s with
  | EmptyString => None
  | String a s' =>
      if Ascii.eqb a dquote then Some (EmptyString, s')
      else if Ascii.eqb a "\" || (nat_of_ascii a <? 32)%nat then None
      else match takeChars s' with
           | Some (w, r) => Some (String a w, r)
           | None => None
           end
  end.

Fixpoint parseValue (fuel : nat) (s : string) : option (Json * string) :=
  match fuel with
  | O => None
  | S fuel' =>
      match skipWs s with
      | EmptyString => None
      | String a r as s0 =>
          if Ascii.eqb a "n" then
            r' ← dropPrefix "null" s0; Some (JNull, r')
          else if Ascii.eqb a "t" then
            r' ← dropPrefix "true" s0; Some (JBool true, r')
          else if Ascii.eqb a "f" then
            r' ← dropPrefix "false" s0; Some (JBool false, r')
          else if Ascii.eqb a dquote then
            '(w, r') ← takeChars r; Some (JStr w, r')
          else if Ascii.eqb a "-" then
            '(n, r') ← parseNat r; Some (JNum (- n), r')
          else if Str.isDigit a then
            '(n, r') ← parseNat s0; Some (JNum n, r')
          else if Ascii.eqb a "[" then
            match skipWs r with
            | String "]" r' => Some (JArr [], r')
            | r1 => '(vs, r') ← parseItems fuel' r1; Some (JArr vs, r')
            end
          else if Ascii.eqb a "{" then
            match skipWs r with
            | String "}" r' => Some (JObj [], r')
            | r1 => '(fs, r') ← parseMembers fuel' r1; Some (JObj fs, r')
            end
          else None
      end
  end
with parseItems (fuel : nat) (s : string) : option (list Json * string) :=
  match fuel with
  | O => None
  | S fuel' =>
      '(v, r) ← parseValue fuel' s;
      match skipWs r with
      | String "," r' => '(vs, r'') ← parseItems fuel' r'; Some (v :: vs, r'')
      | String "]" r' => Some ([v], r')
      | _ => None
      end
  end
with parseMembers (fuel : nat) (s : string)
    : option (list (string * Json) * string) :=
  match fuel with
  | O => None
  | S fuel' =>
      match skipWs s with
      | String a r0 =>
          if negb (Ascii.eqb a dquote) then None
          else
            '(k, r1) ← takeChars r0;
            match skipWs r1 with
            | String ":" r2 =>
                '(v, r3) ← parseValue fuel' r2;
                match skipWs r3 with
                | String "," r4 =>
                    '(fs, r5) ← parseMembers fuel' r4; Some ((k, v) :: fs, r5)
                | String "}" r4 => Some ([(k, v)], r4)
                | _ => None
                end
            | _ => None
            end
      | _ => None
      end
  end.

Definition parse (s : string) : option Json :=
  '(v, r) ← parseValue (S (String.length s)) s;
  match skipWs r with
  | EmptyString => Some v
  | String _ _ => None
  end.

End JsonText.

Example json_parse_ex1 :
  JsonText.parse (JsonText.text "{'id':1,'tags':[true,null,'x']}")
  = Some (JObj [("id", JNum 1); ("tags", JArr [JBool true; JNull; JStr "x"])]).
Proof. reflexivity. Qed.
Example json_parse_ex2 : JsonText.parse (JsonText.text "{'partial':") = None.
Proof. reflexivity. Qed.
Example json_parse_ex3 : JsonText.parse "" = None.
Proof. reflexivity. Qed.

(* ===================================================================== *)
(** ** The path-safe I/O layer ([src/io/index.ts]) *)
(* ===================================================================== *)

Inductive IoErrorCode := PATH_TRAVERSAL | SYMLINK_ESCAPE | INVALID_JSONL_LINE.

(** Error codes of [node:fs]: [ENOENT] and any other one. *)
Inductive Errno := ENOENT | EOTHER.

(** What the I/O layer throws: its own [IoError], or the error of the file
    system call, passed on. *)
Inductive Thrown :=
| IoError (code : IoErrorCode)
| FsError (e : Errno).

Inductive FileKind := SymbolicLink | OtherKind.

(** The file system as the I/O layer observes it. *)
Record FileSystem := {
  cwd : string;
  realpath : string -> Result Errno string;
  lstat : string -> Result Errno FileKind;
  readFile : string -> Result Errno string
}.

Module Io.

Definition newline : ascii := "010"%char.

(** [isWithinRoot(rootPath, targetPath)] *)
Definition isWithinRoot (rootPath targetPath : string) : bool :=
  String.eqb targetPath rootPath ||
  Str.startsWith targetPath (rootPath +:+ NodePath.sep).

(** The test of [assertNoTraversal] on the normalized path. *)
Definition hasTraversal (normalized : string) : bool :=
  String.eqb normalized ".." ||
  Str.startsWith normalized "../" ||
  Str.includes normalized "/../" ||
  Str.endsWith normalized "/..".

(** [assertNoTraversal(relative)] *)
Definition assertNoTraversal (relative : string) : Result Thrown unit :=
  if NodePath.isAbsolute relative then Err (IoError PATH_TRAVERSAL)
  else if hasTraversal (NodePath.normalize relative)
       then Err (IoError PATH_TRAVERSAL)
       else Ok tt.

Section WithFileSystem.
Variable fs : FileSystem.

(** The loop of [safeJoin] over the path segments: [Ok tt] when it runs
    to its end or leaves by [break]. *)
Fixpoint walkSegments (rootRealPath : string) (parts : list string)
    (current : string) : Result Thrown unit :=
  match parts with
  | [] => Ok tt
  | part :: rest =>
      let next := NodePath.join current part in
      match lstat fs next with
      | Err ENOENT => Ok tt
      | Err e => Err (FsError e)
      | Ok SymbolicLink =>
          match realpath fs next with
          | Err ENOENT => Ok tt
          | Err e => Err (FsError e)
          | Ok linkTarget =>
              if negb (isWithinRoot rootRealPath linkTarget)
              then Err (IoError SYMLINK_ESCAPE)
              else walkSegments rootRealPath rest linkTarget
          end
      | Ok OtherKind => walkSegments rootRealPath rest next
      end
  end.

(** [safeJoin(teamRoot, relative)] *)
Definition safeJoin (teamRoot relative : string) : Result Thrown string :=
  match assertNoTraversal relative with
  | Err e => Err e
  | Ok _ =>
      match realpath fs teamRoot with
      | Err e => Err (FsError e)
      | Ok rootRealPath =>
          let normalized := NodePath.normalize relative in
          let joined := NodePath.resolve (cwd fs) rootRealPath normalized in
          if negb (isWithinRoot rootRealPath joined)
          then Err (IoError PATH_TRAVERSAL)
          else
            let parts :=
              filter (fun p => Is_true (Str.nonEmpty p))
                     (Str.split NodePath.sepChar normalized) in
            match walkSegments rootRealPath parts rootRealPath with
            | Err e => Err e
            | Ok _ => Ok joined
            end
      end
  end.

End WithFileSystem.

Section WithParser.
Variable JSON_parse : string -> option Json.

(** The loop of [readJsonlSafe] over the lines. *)
Fixpoint parseLines (lines : list string) : Result Thrown (list Json) :=
  match lines with
  | [] => Ok []
  | line :: rest =>
      if negb (Str.nonEmpty line) then parseLines rest
      else match JSON_parse line with
           | None => Err (IoError INVALID_JSONL_LINE)
           | Some v =>
               match parseLines rest with
               | Ok vs => Ok (v :: vs)
               | Err e => Err e
               end
           end
  end.

(** The body of [readJsonlSafe], from the outcome of
    [fs.readFile(filePath, "utf8")] on. *)
Definition readJsonlSafeFrom (outcome : Result Errno string)
    : Result Thrown (list Json) :=
  match outcome with
  | Err ENOENT => Ok []
  | Err e => Err (FsError e)
  | Ok raw =>
      let hasTrailingNewline := Str.endsWith raw (String newline "") in
      let lines := Str.split newline raw in
      let lines := if hasTrailingNewline then lines else removelast lines in
      parseLines lines
  end.

(** [readJsonlSafe(filePath)] *)
Definition readJsonlSafe (fs : FileSystem) (filePath : string)
    : Result Thrown (list Json) :=
  readJsonlSafeFrom (readFile fs filePath).

End WithParser.

End Io.

(** A file system for the examples: [/ws/team] is a real directory,
    [/ws/team/evil] is a symbolic link to [/outside], [/ws/team/loop] a
    symbolic link to [/ws/team/tasks], [/ws/team/drop] a symbolic link to
    a file outside [/ws/team] that does not exist, so that [realpath]
    fails on it, and [/ws/team/threads/t-001.jsonl]
    holds two records and an interrupted third one; nothing else exists
    below [/ws/team]. *)
Definition exampleFs : FileSystem := {|
  cwd := "/home/agent";
  realpath p :=
    if String.eqb p "/ws/team" then Ok "/ws/team"
    else if String.eqb p "/ws/team/evil" then Ok "/outside"
    else if String.eqb p "/ws/team/loop" then Ok "/ws/team/tasks"
    else if String.eqb p "/ws/team/tasks" then Ok "/ws/team/tasks"
    else Err ENOENT;
  lstat p :=
    if String.eqb p "/ws/team/evil" then Ok SymbolicLink
    else if String.eqb p "/ws/team/loop" then Ok SymbolicLink
    else if String.eqb p "/ws/team/drop" then Ok SymbolicLink
    else if String.eqb p "/ws/team/tasks" then Ok OtherKind
    else Err ENOENT;
  readFile p :=
    if String.eqb p "/ws/team/threads/t-001.jsonl"
    then Ok (JsonText.text
               ("{'id':1}" +:+ String Io.newline
                ("{'id':2}" +:+ String Io.newline "{'id':3")))
    else if String.eqb p "/ws/team/threads/t-002.jsonl"
    then Ok ("{}" +:+ String Io.newline (String Io.newline ("{}" +:+ String Io.newline "")))
    else Err ENOENT
|}.

Example safeJoin_ex_plain :
  Io.safeJoin exampleFs "/ws/team" "tasks/task-0001.json"
  = Ok "/ws/team/tasks/task-0001.json".
Proof. reflexivity. Qed.
Example safeJoin_ex_traversal :
  Io.safeJoin exampleFs "/ws/team" "../outside.json" = Err (IoError PATH_TRAVERSAL).
Proof. reflexivity. Qed.
Example safeJoin_ex_symlink :
  Io.safeJoin exampleFs "/ws/team" "evil/secret.txt" = Err (IoError SYMLINK_ESCAPE).
Proof. reflexivity. Qed.
Example safeJoin_ex_inner_dotdot :
  Io.safeJoin exampleFs "/ws/team" "a/../b" = Ok "/ws/team/b".
Proof. reflexivity. Qed.
Example readJsonlSafe_ex_truncated :
  Io.readJsonlSafe JsonText.parse exampleFs "/ws/team/threads/t-001.jsonl"
  = Ok [JObj [("id", JNum 1)]; JObj [("id", JNum 2)]].
Proof. reflexivity. Qed.
Example readJsonlSafe_ex_missing :
  Io.readJsonlSafe JsonText.parse exampleFs "/ws/team/threads/none.jsonl" = Ok [].
Proof. reflexivity. Qed.

(* ===================================================================== *)
(** ** The persistent store ([src/teamd/store.ts]): records *)
(* ===================================================================== *)

Inductive TaskStatus :=
| pending | blocked | in_progress | completed | failed | canceled.

Global Instance TaskStatus_eq_dec : EqDecision TaskStatus.
Proof. solve_decision. Defined.

Module TaskLease.
Record t := mk { holder : string; epoch : Z; expiresAt : Z }.
End TaskLease.

Module Timestamps.
Record t := mk {
  createdAt : Z;
  startedAt : option Z;
  completedAt : option Z;
  failedAt : option Z
}.
End Timestamps.

(** The [schemaVersion] of every record is the constant ["1.0.0"] and is
    left out. *)
Module TaskRecord.
Record t := mk {
  id : string;
  title : string;
  description : string;
  status : TaskStatus;
  owner : option string;
  deps : list string;
  resources : list string;
  lease : option TaskLease.t;
  epoch : Z;
  timestamps : Timestamps.t
}.
End TaskRecord.

Module Agent.
Record t := mk { id : string; role : string; model : option string }.
End Agent.

Module TeamRecord.
Record t := mk { teamId : string; agents : list Agent.t }.
End TeamRecord.

Module ThreadRecord.
Record t := mk {
  id : string;
  title : string;
  participants : list string;
  taskId : option string;
  createdAt : Z;
  updatedAt : Z
}.
End ThreadRecord.

Module ThreadMessageRecord.
Record t := mk {
  id : string;
  threadId : string;
  from : string;
  body : string;
  ts : Z
}.
End ThreadMessageRecord.

Module InboxEventRecord.
Record t := mk {
  cursor : Z;
  type : string;
  teamId : string;
  agentId : string;
  taskId : option string;
  threadId : option string;
  actor : option string;
  summary : option string;
  content : option string;
  ts : Z
}.
End InboxEventRecord.

Module InboxState.
Record t := mk { nextCursor : Z; events : list InboxEventRecord.t }.
End InboxState.

(** A line of [audit/events.jsonl]; its random [id] and its opaque [data]
    are left out. *)
Module AuditEvent.
Record t := mk {
  actor : string;
  type : string;
  refs : list (string * string);
  ts : Z
}.
End AuditEvent.

Module IdempotencyEntry.
Record t := mk { taskId : string; createdAt : Z }.
End IdempotencyEntry.

Module CreateTaskInput.
Record t := mk {
  title : string;
  description : option string;
  deps : option (list string);
  resources : option (list string)
}.
End CreateTaskInput.

Module ClaimTaskInput.
Record t := mk { taskId : string; agentId : string; ttlMs : option Z }.
End ClaimTaskInput.

Module RenewTaskInput.
Record t := mk { taskId : string; agentId : string; epoch : Z; ttlMs : option Z }.
End RenewTaskInput.

Module FinalizeTaskInput.
Record t := mk { taskId : string; agentId : string; epoch : Z }.
End FinalizeTaskInput.

Module StartThreadInput.
Record t := mk {
  title : option string;
  participants : option (list string);
  taskId : option string;
  agentId : option string
}.
End StartThreadInput.

Module PostThreadMessageInput.
Record t := mk { threadId : string; agentId : string; message : string }.
End PostThreadMessageInput.

Module LinkThreadToTaskInput.
Record t := mk { threadId : string; taskId : string }.
End LinkThreadToTaskInput.

Inductive StoreErrorCode :=
| INVALID_TEAM_ID | INVALID_AGENT_ID | INVALID_TASK | INVALID_THREAD_MESSAGE
| TEAM_NOT_FOUND | TASK_NOT_FOUND | THREAD_NOT_FOUND
| TASK_NOT_CLAIMABLE | TASK_NOT_IN_PROGRESS | EPOCH_MISMATCH
| LEASE_EXPIRED | LEASE_HOLDER_MISMATCH.

(** What a store operation throws: a [TeamdStoreError] with its status
    code, the [RangeError] of [toISOString] on an invalid date, or an error
    of the I/O layer. *)
Inductive StoreThrown :=
| TeamdStoreError (statusCode : Z) (code : StoreErrorCode)
| RangeError
| IoThrown (e : Thrown).

(** The files below the team directory. A missing [threads/index.json] or
    [idempotency/create-task.json] reads as the empty record, so both are
    kept as their contents. Task files are keyed by the task id that names
    them, inbox files by agent id, thread logs by thread id. *)
Record Disk := {
  teamFile : option TeamRecord.t;
  taskFiles : gmap string TaskRecord.t;
  idempotencyEntries : gmap string IdempotencyEntry.t;
  threadIndex : list ThreadRecord.t;
  threadFiles : gmap string string;
  inboxFiles : gmap string InboxState.t;
  auditLog : list AuditEvent.t
}.

(** The fields of a [TeamdStore] that never change after [create]. *)
Record StoreConfig := {
  teamId : string;
  defaultLeaseTtlMs : Z;
  teamDirPath : string
}.

(* ===================================================================== *)
(** ** The persistent store: module-level helpers *)
(* ===================================================================== *)

Module Helpers.

(** [s.replace(/^\.\//, "")] *)
Definition dropDotSlash (s : string) : string :=
  match JsonText.dropPrefix "./" s with
  | Some r => r
  | None => s
  end.

(** [normalizePathPrefix(pathValue)] *)
Definition normalizePathPrefix (pathValue : string) : string :=
  let normalized :=
    Str.dropLeading "/"
      (dropDotSlash (Str.replaceAll "\" "/" (NodePath.normalize pathValue))) in
  Str.dropTrailing "/" normalized.

(** [resourceMatchesPath(resource, target)] *)
Definition resourceMatchesPath (resource target : string) : bool :=
  if String.eqb resource "" then true
  else String.eqb target resource || Str.startsWith target (resource +:+ "/").

(** The decimal number of [/^<prefix>(\d+)$/.exec(s)], or [0]. *)
Definition parseNumericId (prefix s : string) : nat :=
  match JsonText.dropPrefix prefix s with
  | Some digits =>
      if Str.nonEmpty digits && Str.forallChars Str.isDigit digits then
        match NilEmpty.uint_of_string digits with
        | Some d => Nat.of_uint d
        | None => 0%nat
        end
      else 0%nat
  | None => 0%nat
  end.

(** [String(n).padStart(4, "0")] behind the prefix. *)
Definition buildNumericId (prefix : string) (n : nat) : string :=
  prefix +:+ Str.padStart0 4 (NilEmpty.string_of_uint (Nat.to_uint n)).

Definition parseTaskNumericId (taskId : string) : nat := parseNumericId "task-" taskId.
Definition buildTaskId (taskNumber : nat) : string := buildNumericId "task-" taskNumber.
Definition parseThreadNumericId (threadId : string) : nat := parseNumericId "thread-" threadId.
Definition buildThreadId (threadNumber : nat) : string := buildNumericId "thread-" threadNumber.

(** [isLeaseExpired(lease)] at the clock reading [now]. *)
Definition isLeaseExpired (now : Z) (lease : TaskLease.t) : bool :=
  TaskLease.expiresAt lease <=? now.

(** The time values a [Date] can hold; [toISOString] throws on the others. *)
Definition validDate (t : Z) : bool := Z.abs t <=? 8640000000000000.

(** [buildDefaultTeam(teamId)] *)
Definition buildDefaultTeam (teamId : string) : TeamRecord.t :=
  TeamRecord.mk teamId [].

(** [s.toLowerCase()], ASCII letters. *)
Fixpoint toLowerCase (s : string) : string :=
  match s with
  | EmptyString => EmptyString
  | String a s' =>
      let n := nat_of_ascii a in
      String (if ((65 <=? n) && (n <=? 90))%nat then ascii_of_nat (n + 32) else a)
             (toLowerCase s')
  end.

(** The values of [Number.parseInt]. *)
Inductive ParsedInt := NaN | Infinite (negative : bool) | Finite (n : Z).

(** The double nearest to the natural number [n]: its first 53 bits,
    rounded to nearest with ties to the even mantissa. *)
Definition roundToDouble (n : Z) : Z :=
  let k := Z.log2 n - 52 in
  if k <=? 0 then n
  else
    let q := Z.shiftr n k in
    let r := Z.land n (Z.ones k) in
    let half := Z.shiftl 1 (k - 1) in
    let q := if (half <? r) || ((r =? half) && Z.odd q) then q + 1 else q in
    Z.shiftl q k.

(** [Number.parseInt(s, 10)]: white space, a sign and digits; the number
    the digits denote is rounded to a double, which is infinite from
    [2 ^ 1024] on. *)
Definition parseInt10 (s : string) : ParsedInt :=
  let s := Str.trimStart s in
  let '(neg, body) :=
    match s with
    | String "-" r => (true, r)
    | String "+" r => (false, r)
    | _ => (false, s)
    end in
  match body with
  | String a _ =>
      if Str.isDigit a then
        let n := roundToDouble (fst (JsonText.takeDigits body 0)) in
        if 2 ^ 1024 <=? n then Infinite neg
        else Finite (if neg then - n else n)
      else NaN
  | EmptyString => NaN
  end.

(** The high surrogate of the character of four bytes that starts with
    [a], [b] and [c], in three bytes. *)
Definition highSurrogate (a b c : ascii) : string :=
  let w := (nat_of_ascii a mod 8 * 256 + nat_of_ascii b mod 64 * 4
            + nat_of_ascii c mod 64 / 16 - 64)%nat in
  String (ascii_of_nat 237)
    (String (ascii_of_nat (160 + w / 64)) (String (ascii_of_nat (128 + w mod 64)) "")).

(** [s.slice(0, n)]: the first [n] UTF-16 code units. A character of one,
    two or three bytes is one code unit; a character of four bytes is two,
    and when only the first of them fits the slice ends with its high
    surrogate. *)
Fixpoint sliceTo (n : nat) (s : string) {struct s} : string :=
  match n, s with
  | S n', String a s1 =>
      let x := nat_of_ascii a in
      if (x <? 192)%nat then String a (sliceTo n' s1)
      else
        match s1 with
        | EmptyString => s
        | String b s2 =>
            if (x <? 224)%nat then String a (String b (sliceTo n' s2))
            else
              match s2 with
              | EmptyString => s
              | String c s3 =>
                  if (x <? 240)%nat
                  then String a (String b (String c (sliceTo n' s3)))
                  else
                    match s3 with
                    | EmptyString => s
                    | String d s4 =>
                        match n' with
                        | S n'' =>
                            String a (String b (String c (String d (sliceTo n'' s4))))
                        | O => highSurrogate a b c
                        end
                    end
              end
        end
  | _, _ => EmptyString
  end.

(** A name that [tasks/<name>.json], [inboxes/<name>.json] and
    [threads/<name>.jsonl] take to the file of that very name in its
    directory: no slash, which would make [safeJoin] and [normalize] look
    elsewhere, no NUL, which [fs] refuses, and at most 255 bytes with the
    extension. For such a name a missing entry of the map of the files is
    a read that fails with [ENOENT]. *)
Definition isFileName (name : string) : bool :=
  Str.forallChars (fun a => negb (Ascii.eqb a "/") && negb (Ascii.eqb a "000")) name &&
  (String.length name <=? 249)%nat.

End Helpers.

Example normalizePathPrefix_ex1 : Helpers.normalizePathPrefix "src/io/" = "src/io".
Proof. reflexivity. Qed.
Example normalizePathPrefix_ex2 : Helpers.normalizePathPrefix "./src//a/../b" = "src/b".
Proof. reflexivity. Qed.
Example normalizePathPrefix_ex3 : Helpers.normalizePathPrefix "/" = "".
Proof. reflexivity. Qed.
Example normalizePathPrefix_ex4 : Helpers.normalizePathPrefix "" = ".".
Proof. reflexivity. Qed.
Example normalizePathPrefix_ex5 : Helpers.normalizePathPrefix "../x" = "../x".
Proof. reflexivity. Qed.
Example buildTaskId_ex : Helpers.buildTaskId 3 = "task-0003".
Proof. reflexivity. Qed.
Example buildTaskId_ex_wide : Helpers.buildTaskId 4321 = "task-4321".
Proof. reflexivity. Qed.
Example parseTaskNumericId_ex : Helpers.parseTaskNumericId "task-0012" = 12%nat.
Proof. reflexivity. Qed.
Example parseTaskNumericId_ex_bad : Helpers.parseTaskNumericId "task-12a" = 0%nat.
Proof. reflexivity. Qed.
Example resourceMatchesPath_ex1 : Helpers.resourceMatchesPath "src" "src/index.ts" = true.
Proof. reflexivity. Qed.
Example resourceMatchesPath_ex2 : Helpers.resourceMatchesPath "src" "src2/index.ts" = false.
Proof. reflexivity. Qed.

(** U+00A0, the no-break space, and U+1F600, a character of two UTF-16
    code units. *)
Definition nbsp : string := String (ascii_of_nat 194) (String (ascii_of_nat 160) "").
Definition grinning : string :=
  String (ascii_of_nat 240) (String (ascii_of_nat 159)
    (String (ascii_of_nat 152) (String (ascii_of_nat 128) ""))).

Example trim_ex_nbsp : Str.trim (nbsp +:+ " agent-b" +:+ nbsp) = "agent-b".
Proof. reflexivity. Qed.
Example trim_ex_blank : Str.trim nbsp = "".
Proof. reflexivity. Qed.
Example parseInt10_ex_rounds :
  Helpers.parseInt10 "9007199254740993" = Helpers.Finite 9007199254740992.
Proof. reflexivity. Qed.
Example parseInt10_ex_prefix : Helpers.parseInt10 (nbsp +:+ "-12px") = Helpers.Finite (-12).
Proof. reflexivity. Qed.
Example parseInt10_ex_nan : Helpers.parseInt10 "since" = Helpers.NaN.
Proof. reflexivity. Qed.
Example sliceTo_ex_units :
  Helpers.sliceTo 3 ("a" +:+ grinning +:+ "z") = "a" +:+ grinning /\
  Helpers.sliceTo 2 ("a" +:+ grinning +:+ "z")
  = "a" +:+ String (ascii_of_nat 237) (String (ascii_of_nat 160)
              (String (ascii_of_nat 189) "")).
Proof. split; reflexivity. Qed.

(* ===================================================================== *)
(** ** The persistent store: the monad of its operations *)
(* ===================================================================== *)

(** A store operation reads and writes the files of the team directory and
    may throw; what it wrote before it threw stays written. *)
Definition M (A : Type) : Type := Disk -> Disk * Result StoreThrown A.

Definition ret {A} (a : A) : M A := fun d => (d, Ok a).
Definition throw {A} (e : StoreThrown) : M A := fun d => (d, Err e).
Definition bind {A B} (m : M A) (k : A -> M B) : M B :=
  fun d =>
    match m d with
    | (d', Ok a) => k a d'
    | (d', Err e) => (d', Err e)
    end.
Definition gets {A} (f : Disk -> A) : M A := fun d => (d, Ok (f d)).
Definition modify (f : Disk -> Disk) : M unit := fun d => (f d, Ok tt).

Notation "'let*' x ':=' m 'in' k" := (bind m (fun x => k))
  (at level 10, x name, m at level 100, k at level 200).
Notation "m ';;' k" := (bind m (fun _ => k))
  (at level 100, k at level 200, right associativity).

Fixpoint forEachM {A} (f : A -> M unit) (l : list A) : M unit :=
  match l with
  | [] => ret tt
  | x :: l' => f x ;; forEachM f l'
  end.

Fixpoint mapM {A B} (f : A -> M B) (l : list A) : M (list B) :=
  match l with
  | [] => ret []
  | x :: l' => let* y := f x in let* ys := mapM f l' in ret (y :: ys)
  end.

Definition setTeamFile (v : option TeamRecord.t) (d : Disk) : Disk :=
  {| teamFile := v; taskFiles := taskFiles d;
     idempotencyEntries := idempotencyEntries d; threadIndex := threadIndex d;
     threadFiles := threadFiles d; inboxFiles := inboxFiles d;
     auditLog := auditLog d |}.
Definition setTaskFiles (v : gmap string TaskRecord.t) (d : Disk) : Disk :=
  {| teamFile := teamFile d; taskFiles := v;
     idempotencyEntries := idempotencyEntries d; threadIndex := threadIndex d;
     threadFiles := threadFiles d; inboxFiles := inboxFiles d;
     auditLog := auditLog d |}.
Definition setIdempotencyEntries (v : gmap string IdempotencyEntry.t) (d : Disk) : Disk :=
  {| teamFile := teamFile d; taskFiles := taskFiles d;
     idempotencyEntries := v; threadIndex := threadIndex d;
     threadFiles := threadFiles d; inboxFiles := inboxFiles d;
     auditLog := auditLog d |}.
Definition setThreadIndex (v : list ThreadRecord.t) (d : Disk) : Disk :=
  {| teamFile := teamFile d; taskFiles := taskFiles d;
     idempotencyEntries := idempotencyEntries d; threadIndex := v;
     threadFiles := threadFiles d; inboxFiles := inboxFiles d;
     auditLog := auditLog d |}.
Definition setThreadFiles (v : gmap string string) (d : Disk) : Disk :=
  {| teamFile := teamFile d; taskFiles := taskFiles d;
     idempotencyEntries := idempotencyEntries d; threadIndex := threadIndex d;
     threadFiles := v; inboxFiles := inboxFiles d;
     auditLog := auditLog d |}.
Definition setInboxFiles (v : gmap string InboxState.t) (d : Disk) : Disk :=
  {| teamFile := teamFile d; taskFiles := taskFiles d;
     idempotencyEntries := idempotencyEntries d; threadIndex := threadIndex d;
     threadFiles := threadFiles d; inboxFiles := v;
     auditLog := auditLog d |}.
Definition setAuditLog (v : list AuditEvent.t) (d : Disk) : Disk :=
  {| teamFile := teamFile d; taskFiles := taskFiles d;
     idempotencyEntries := idempotencyEntries d; threadIndex := threadIndex d;
     threadFiles := threadFiles d; inboxFiles := inboxFiles d;
     auditLog := v |}.

(** The task record after each of the assignments the code makes to it. *)
Module TaskUpdate.
Import TaskRecord.

Definition setStatus (s : TaskStatus) (t : TaskRecord.t) : TaskRecord.t :=
  mk (id t) (title t) (description t) s (owner t) (deps t) (resources t)
     (lease t) (epoch t) (timestamps t).
Definition setOwner (o : option string) (t : TaskRecord.t) : TaskRecord.t :=
  mk (id t) (title t) (description t) (status t) o (deps t) (resources t)
     (lease t) (epoch t) (timestamps t).
Definition setLease (l : option TaskLease.t) (t : TaskRecord.t) : TaskRecord.t :=
  mk (id t) (title t) (description t) (status t) (owner t) (deps t) (resources t)
     l (epoch t) (timestamps t).
Definition setEpoch (e : Z) (t : TaskRecord.t) : TaskRecord.t :=
  mk (id t) (title t) (description t) (status t) (owner t) (deps t) (resources t)
     (lease t) e (timestamps t).
Definition setTimestamps (ts : Timestamps.t) (t : TaskRecord.t) : TaskRecord.t :=
  mk (id t) (title t) (description t) (status t) (owner t) (deps t) (resources t)
     (lease t) (epoch t) ts.

(** [timestamps.startedAt ??= now] *)
Definition startIfUnset (now : Z) (ts : Timestamps.t) : Timestamps.t :=
  Timestamps.mk (Timestamps.createdAt ts)
    (match Timestamps.startedAt ts with Some s => Some s | None => Some now end)
    (Timestamps.completedAt ts) (Timestamps.failedAt ts).
Definition setCompletedAt (now : Z) (ts : Timestamps.t) : Timestamps.t :=
  Timestamps.mk (Timestamps.createdAt ts) (Timestamps.startedAt ts)
    (Some now) (Timestamps.failedAt ts).
Definition setFailedAt (now : Z) (ts : Timestamps.t) : Timestamps.t :=
  Timestamps.mk (Timestamps.createdAt ts) (Timestamps.startedAt ts)
    (Timestamps.completedAt ts) (Some now).
End TaskUpdate.

Record CanWriteResult := { allow : bool; reason : string }.

(** The event handed to [appendInboxEvent]. *)
Module InboxEvent.
Record t := mk {
  type : string;
  taskId : option string;
  threadId : option string;
  actor : option string;
  summary : option string;
  content : option string
}.
End InboxEvent.

(* ===================================================================== *)
(** ** Plain objects used as maps *)
(* ===================================================================== *)

(** The idempotency index is a plain object, [entries: {}] or what
    [JSON.parse] makes of the index file, read with [entries[key]] and
    written with [entries[key] = value]. Its own properties are the finite
    map; a read also sees the members of [Object.prototype], and a write to
    [__proto__] that finds no own property of that name sets the prototype
    and makes no own property, so [JSON.stringify] does not save it. *)
Module JsObject.

(** The property names of [Object.prototype]; the value of each is an
    object or a function, hence truthy, and has no [taskId]. *)
Definition prototypeKeys : list string :=
  [ "__proto__"; "constructor"; "hasOwnProperty"; "isPrototypeOf";
    "propertyIsEnumerable"; "toLocaleString"; "toString"; "valueOf";
    "__defineGetter__"; "__defineSetter__"; "__lookupGetter__"; "__lookupSetter__" ].

Inductive Property (A : Type) :=
| Own (a : A)
| Inherited.
Arguments Own {A} a.
Arguments Inherited {A}.

(** [o[key]], [None] for [undefined]. *)
Definition getProperty {A} (o : gmap string A) (key : string) : option (Property A) :=
  match o !! key with
  | Some a => Some (Own a)
  | None => if bool_decide (key ∈ prototypeKeys) then Some Inherited else None
  end.

(** The own properties of [o] after [o[key] = a]. *)
Definition setProperty {A} (key : string) (a : A) (o : gmap string A) : gmap string A :=
  match o !! key with
  | Some _ => <[key := a]> o
  | None => if String.eqb key "__proto__" then o else <[key := a]> o
  end.

End JsObject.

(* ===================================================================== *)
(** ** The persistent store: [class TeamdStore] *)
(* ===================================================================== *)

Section TeamdStore.
Variable fs : FileSystem.
Variable JSON_parse : string -> option Json.
Variable JSON_stringify : Json -> string.
Variable cfg : StoreConfig.

(** [assertTeamId(teamId)] *)
Definition assertTeamId (teamIdArg : string) : M unit :=
  if negb (String.eqb teamIdArg (teamId cfg))
  then throw (TeamdStoreError 404 TEAM_NOT_FOUND)
  else ret tt.

(** [ensureAgentId(agentId)] *)
Definition ensureAgentId (agentId : string) : M string :=
  if negb (Str.isIdentifier agentId)
  then throw (TeamdStoreError 400 INVALID_AGENT_ID)
  else ret agentId.

Definition readTeam : M (option TeamRecord.t) := gets teamFile.
Definition writeTeam (team : TeamRecord.t) : M unit :=
  modify (setTeamFile (Some team)).

Definition readTask (taskId : string) : M (option TaskRecord.t) :=
  gets (fun d => taskFiles d !! taskId).

Definition loadTaskOrThrow (taskId : string) : M TaskRecord.t :=
  let* task := readTask taskId in
  match task with
  | None => throw (TeamdStoreError 404 TASK_NOT_FOUND)
  | Some task => ret task
  end.

Definition writeTask (task : TaskRecord.t) : M unit :=
  modify (fun d => setTaskFiles (<[TaskRecord.id task := task]> (taskFiles d)) d).

(** [listTasksUnsafe()]: the records of the task files, in directory
    order. *)
Definition listTasksUnsafe : M (list TaskRecord.t) :=
  gets (fun d => (map_to_list (taskFiles d)).*2).

Definition readThreadIndex : M (list ThreadRecord.t) := gets threadIndex.
Definition writeThreadIndex (threads : list ThreadRecord.t) : M unit :=
  modify (setThreadIndex threads).

Definition writeInbox (agentId : string) (state : InboxState.t) : M unit :=
  modify (fun d => setInboxFiles (<[agentId := state]> (inboxFiles d)) d).

Definition readInbox (agentId : string) (createIfMissing : bool) : M InboxState.t :=
  let* state := gets (fun d => inboxFiles d !! agentId) in
  match state with
  | Some state => ret state
  | None =>
      let initialState := InboxState.mk 0 [] in
      (if createIfMissing then writeInbox agentId initialState else ret tt) ;;
      ret initialState
  end.

Definition listInboxAgents : M (list string) :=
  gets (fun d =>
    filter (fun a => Is_true (Str.nonEmpty a)) (map_to_list (inboxFiles d)).*1).

(** [broadcastRecipients()] *)
Definition broadcastRecipients : M (list string) :=
  let* team := readTeam in
  let fromTeam :=
    match team with
    | Some team =>
        filter (fun a => Is_true (Str.nonEmpty a))
               (map Agent.id (TeamRecord.agents team))
    | None => []
    end in
  let* fromInboxes := listInboxAgents in
  ret (Str.dedupe (fromTeam ++ fromInboxes)).

(** [appendAuditEvent(event)] *)
Definition appendAuditEvent (now : Z) (actor type : string)
    (refs : list (string * string)) : M unit :=
  modify (fun d => setAuditLog (auditLog d ++ [AuditEvent.mk actor type refs now]) d).

(** [appendInboxEvent(recipients, event)] *)
Definition appendInboxEvent (now : Z) (recipients : list string)
    (event : InboxEvent.t) : M unit :=
  let uniqueRecipients :=
    Str.dedupe (filter (fun a => Is_true (Str.nonEmpty a)) (map Str.trim recipients)) in
  forEachM (fun rawAgentId =>
    let* agentId := ensureAgentId rawAgentId in
    let* state := readInbox agentId true in
    let cursor := InboxState.nextCursor state + 1 in
    let inboxEvent :=
      InboxEventRecord.mk cursor (InboxEvent.type event) (teamId cfg) agentId
        (InboxEvent.taskId event) (InboxEvent.threadId event)
        (InboxEvent.actor event) (InboxEvent.summary event)
        (InboxEvent.content event) now in
    writeInbox agentId
      (InboxState.mk cursor (InboxState.events state ++ [inboxEvent])))
    uniqueRecipients.

(** [createTeam(team)] *)
Definition createTeam (now : Z) (team : TeamRecord.t) : M TeamRecord.t :=
  assertTeamId (TeamRecord.teamId team) ;;
  let* existing := readTeam in
  match existing with
  | Some existing => ret existing
  | None =>
      writeTeam team ;;
      appendAuditEvent now "teamd" "team_created" [("teamId", teamId cfg)] ;;
      ret team
  end.

(** [listTeams()] *)
Definition listTeams : M (list TeamRecord.t) :=
  let* team := readTeam in
  match team with
  | None => ret []
  | Some team => ret [team]
  end.

(** [getTeam(teamId)] *)
Definition getTeam (teamIdArg : string) : M TeamRecord.t :=
  assertTeamId teamIdArg ;;
  let* team := readTeam in
  match team with
  | None => throw (TeamdStoreError 404 TEAM_NOT_FOUND)
  | Some team => ret team
  end.

(** [String.prototype.localeCompare] is left to the runtime. *)
Variable localeCompare : string -> string -> Z.

Fixpoint insertSorted (task : TaskRecord.t) (sorted : list TaskRecord.t)
    : list TaskRecord.t :=
  match sorted with
  | [] => [task]
  | t' :: rest =>
      if localeCompare (TaskRecord.id task) (TaskRecord.id t') <=? 0
      then task :: sorted
      else t' :: insertSorted task rest
  end.

(** [tasks.sort((a, b) => a.id.localeCompare(b.id))] *)
Definition sortById (tasks : list TaskRecord.t) : list TaskRecord.t :=
  fold_right insertSorted [] tasks.

(** The status a new task gets from its dependencies. *)
Definition areDepsComplete (existingTasks : list TaskRecord.t)
    (deps : list string) : bool :=
  forallb (fun depId =>
    match List.find (fun task => String.eqb (TaskRecord.id task) depId) existingTasks with
    | Some dep => bool_decide (TaskRecord.status dep = completed)
    | None => false
    end) deps.

Definition nextTaskNumber (existingTasks : list TaskRecord.t) : nat :=
  (fold_left (fun maxValue task =>
     Nat.max maxValue (Helpers.parseTaskNumericId (TaskRecord.id task)))
     existingTasks 0 + 1)%nat.

(** The record [createTask] builds for a new task. *)
Definition newTask (createdAt : Z) (title : string) (input : CreateTaskInput.t)
    (deps resources : list string) (existingTasks : list TaskRecord.t)
    : TaskRecord.t :=
  TaskRecord.mk (Helpers.buildTaskId (nextTaskNumber existingTasks)) title
    (match CreateTaskInput.description input with
     | Some d => Str.trim d
     | None => ""
     end)
    (if (0 <? length deps)%nat && negb (areDepsComplete existingTasks deps)
     then blocked else pending)
    None deps resources None 0
    (Timestamps.mk createdAt None None None).

(** The part of [createTask] after the idempotency look-up. *)
Definition createFreshTask (now : Z) (title : string)
    (input : CreateTaskInput.t) (deps resources : list string)
    (idempotencyKey : option string) : M (TaskRecord.t * bool) :=
  let* existingTasks := listTasksUnsafe in
  let createdAt := now in
  let task := newTask createdAt title input deps resources existingTasks in
  let taskId := TaskRecord.id task in
  writeTask task ;;
  (match idempotencyKey with
   | Some key =>
       if Str.nonEmpty key
       then modify (fun d =>
              setIdempotencyEntries
                (JsObject.setProperty key (IdempotencyEntry.mk taskId createdAt)
                   (idempotencyEntries d)) d)
       else ret tt
   | None => ret tt
   end) ;;
  appendAuditEvent now "teamd" "task_created" [("taskId", taskId)] ;;
  ret (task, true).

(** [[...new Set((input.deps ?? []).map(trim).filter(Boolean))]] *)
Definition cleanDeps (input : CreateTaskInput.t) : list string :=
  Str.dedupe (filter (fun s => Is_true (Str.nonEmpty s))
    (map Str.trim (default [] (CreateTaskInput.deps input)))).

(** [[...new Set((input.resources ?? []).map(normalizePathPrefix).filter(Boolean))]] *)
Definition cleanResources (input : CreateTaskInput.t) : list string :=
  Str.dedupe (filter (fun s => Is_true (Str.nonEmpty s))
    (map Helpers.normalizePathPrefix (default [] (CreateTaskInput.resources input)))).

(** [idempotencyKey && idempotency.entries[idempotencyKey]] *)
Definition recordedEntry (idempotencyKey : option string)
    (entries : gmap string IdempotencyEntry.t)
    : option (JsObject.Property IdempotencyEntry.t) :=
  match idempotencyKey with
  | Some key => if Str.nonEmpty key then JsObject.getProperty entries key else None
  | None => None
  end.

(** [idempotency.entries[idempotencyKey].taskId] as the path of the task
    file spells it: a member of [Object.prototype] has no [taskId], and
    the template string prints [undefined]. *)
Definition existingTaskIdOf (entry : JsObject.Property IdempotencyEntry.t) : string :=
  match entry with
  | JsObject.Own e => IdempotencyEntry.taskId e
  | JsObject.Inherited => "undefined"
  end.

(** [createTask(teamId, input, idempotencyKey)]; the pair is
    [{task, created}]. *)
Definition createTask (now : Z) (teamIdArg : string) (input : CreateTaskInput.t)
    (idempotencyKey : option string) : M (TaskRecord.t * bool) :=
  assertTeamId teamIdArg ;;
  let title := Str.trim (CreateTaskInput.title input) in
  if negb (Str.nonEmpty title) then throw (TeamdStoreError 400 INVALID_TASK)
  else
    let deps := cleanDeps input in
    let resources := cleanResources input in
    let* entries := gets idempotencyEntries in
    match recordedEntry idempotencyKey entries with
    | Some entry =>
        let* existingTask := readTask (existingTaskIdOf entry) in
        match existingTask with
        | Some existingTask => ret (existingTask, false)
        | None => createFreshTask now title input deps resources idempotencyKey
        end
    | None => createFreshTask now title input deps resources idempotencyKey
    end.

(** [listTasks(teamId)] *)
Definition listTasks (teamIdArg : string) : M (list TaskRecord.t) :=
  assertTeamId teamIdArg ;;
  let* tasks := listTasksUnsafe in
  ret (sortById tasks).

(** [getTask(teamId, taskId)] *)
Definition getTask (teamIdArg taskId : string) : M TaskRecord.t :=
  assertTeamId teamIdArg ;;
  let* task := readTask taskId in
  match task with
  | None => throw (TeamdStoreError 404 TASK_NOT_FOUND)
  | Some task => ret task
  end.

(** The silent reset at the head of [claimTask]. *)
Definition resetIfExpired (now : Z) (task : TaskRecord.t) : TaskRecord.t :=
  match TaskRecord.status task, TaskRecord.lease task with
  | in_progress, Some l =>
      if Helpers.isLeaseExpired now l
      then TaskUpdate.setLease None
             (TaskUpdate.setOwner None (TaskUpdate.setStatus pending task))
      else task
  | _, _ => task
  end.

(** The lease [claimTask] builds: [{holder, epoch: task.epoch + 1,
    expiresAt: now + ttlMs}]. *)
Definition claimLease (now ttlMs : Z) (agentId : string) (task : TaskRecord.t)
    : TaskLease.t :=
  TaskLease.mk agentId (TaskRecord.epoch task + 1) (now + ttlMs).

(** The assignments of [claimTask] to the task. *)
Definition claimed (now : Z) (lease : TaskLease.t) (task : TaskRecord.t)
    : TaskRecord.t :=
  TaskUpdate.setTimestamps
    (TaskUpdate.startIfUnset now (TaskRecord.timestamps task))
    (TaskUpdate.setEpoch (TaskLease.epoch lease)
      (TaskUpdate.setLease (Some lease)
        (TaskUpdate.setOwner (Some (TaskLease.holder lease))
          (TaskUpdate.setStatus in_progress task)))).

(** [claimTask(teamId, input)]; the pair is [{task, lease}]. *)
Definition claimTask (now : Z) (teamIdArg : string) (input : ClaimTaskInput.t)
    : M (TaskRecord.t * TaskLease.t) :=
  assertTeamId teamIdArg ;;
  let* task := loadTaskOrThrow (ClaimTaskInput.taskId input) in
  let task := resetIfExpired now task in
  if negb (bool_decide (TaskRecord.status task = pending))
  then throw (TeamdStoreError 409 TASK_NOT_CLAIMABLE)
  else
    let ttlMs := default (defaultLeaseTtlMs cfg) (ClaimTaskInput.ttlMs input) in
    if negb (Helpers.validDate (now + ttlMs)) then throw RangeError
    else
      let lease := claimLease now ttlMs (ClaimTaskInput.agentId input) task in
      let task := claimed now lease task in
      writeTask task ;;
      appendAuditEvent now (ClaimTaskInput.agentId input) "task_claimed"
        [("taskId", TaskRecord.id task)] ;;
      let* recipients := broadcastRecipients in
      appendInboxEvent now recipients
        (InboxEvent.mk "task_claimed" (Some (TaskRecord.id task)) None
           (Some (ClaimTaskInput.agentId input))
           (Some ("Task " +:+ TaskRecord.id task +:+ " claimed by "
                  +:+ ClaimTaskInput.agentId input))
           None) ;;
      ret (task, lease).

(** The checks shared by [renewTask] and [finalizeTask]: the lease the
    caller may act on, or the error to throw. *)
Definition checkLease (now : Z) (task : TaskRecord.t) (agentId : string)
    (epoch : Z) : Result StoreThrown TaskLease.t :=
  match TaskRecord.status task, TaskRecord.lease task with
  | in_progress, Some l =>
      if Helpers.isLeaseExpired now l
      then Err (TeamdStoreError 403 LEASE_EXPIRED)
      else if negb (String.eqb (TaskLease.holder l) agentId)
      then Err (TeamdStoreError 403 LEASE_HOLDER_MISMATCH)
      else if negb (TaskLease.epoch l =? epoch)
      then Err (TeamdStoreError 409 EPOCH_MISMATCH)
      else Ok l
  | _, _ => Err (TeamdStoreError 409 TASK_NOT_IN_PROGRESS)
  end.

(** [{...task.lease, expiresAt}] *)
Definition renewedLease (expiresAt : Z) (l : TaskLease.t) : TaskLease.t :=
  TaskLease.mk (TaskLease.holder l) (TaskLease.epoch l) expiresAt.

(** [renewTask(teamId, input)] *)
Definition renewTask (now : Z) (teamIdArg : string) (input : RenewTaskInput.t)
    : M (TaskRecord.t * TaskLease.t) :=
  assertTeamId teamIdArg ;;
  let* task := loadTaskOrThrow (RenewTaskInput.taskId input) in
  match checkLease now task (RenewTaskInput.agentId input) (RenewTaskInput.epoch input) with
  | Err e => throw e
  | Ok l =>
      let ttlMs := default (defaultLeaseTtlMs cfg) (RenewTaskInput.ttlMs input) in
      if negb (Helpers.validDate (now + ttlMs)) then throw RangeError
      else
        let lease := renewedLease (now + ttlMs) l in
        let task := TaskUpdate.setLease (Some lease) task in
        writeTask task ;;
        appendAuditEvent now (RenewTaskInput.agentId input) "task_renewed"
          [("taskId", TaskRecord.id task)] ;;
        ret (task, lease)
  end.

Inductive FinalStatus := FinalCompleted | FinalFailed.

Definition finalStatusOf (f : FinalStatus) : TaskStatus :=
  match f with FinalCompleted => completed | FinalFailed => failed end.

Definition finalStatusName (f : FinalStatus) : string :=
  match f with FinalCompleted => "completed" | FinalFailed => "failed" end.

(** The assignments of [finalizeTask] to the task. *)
Definition finalized (now : Z) (finalStatus : FinalStatus) (task : TaskRecord.t)
    : TaskRecord.t :=
  let task := TaskUpdate.setLease None
                (TaskUpdate.setStatus (finalStatusOf finalStatus) task) in
  TaskUpdate.setTimestamps
    (match finalStatus with
     | FinalCompleted => TaskUpdate.setCompletedAt now (TaskRecord.timestamps task)
     | FinalFailed => TaskUpdate.setFailedAt now (TaskRecord.timestamps task)
     end) task.

(** [finalizeTask(input, finalStatus)] *)
Definition finalizeTask (now : Z) (input : FinalizeTaskInput.t)
    (finalStatus : FinalStatus) : M TaskRecord.t :=
  let* task := loadTaskOrThrow (FinalizeTaskInput.taskId input) in
  match checkLease now task (FinalizeTaskInput.agentId input)
                   (FinalizeTaskInput.epoch input) with
  | Err e => throw e
  | Ok _ =>
      let task := finalized now finalStatus task in
      let eventType :=
        match finalStatus with
        | FinalCompleted => "task_completed"
        | FinalFailed => "task_failed"
        end in
      writeTask task ;;
      appendAuditEvent now (FinalizeTaskInput.agentId input) eventType
        [("taskId", TaskRecord.id task)] ;;
      let* recipients := broadcastRecipients in
      appendInboxEvent now recipients
        (InboxEvent.mk eventType (Some (TaskRecord.id task)) None
           (Some (FinalizeTaskInput.agentId input))
           (Some ("Task " +:+ TaskRecord.id task +:+ " "
                  +:+ finalStatusName finalStatus +:+ " by "
                  +:+ FinalizeTaskInput.agentId input))
           None) ;;
      ret task
  end.

(** The test of the loop of [unlockDependents] on one task. *)
Definition unlockable (completedTaskId : string) (completedTaskSet : list string)
    (task : TaskRecord.t) : bool :=
  bool_decide (TaskRecord.status task = blocked) &&
  bool_decide (completedTaskId ∈ TaskRecord.deps task) &&
  forallb (fun depId => bool_decide (depId ∈ completedTaskSet)) (TaskRecord.deps task).

(** [unlockDependents(completedTaskId, actor)] *)
Definition unlockDependents (now : Z) (completedTaskId actor : string) : M unit :=
  let* tasks := listTasksUnsafe in
  let completedTaskSet :=
    map TaskRecord.id
        (filter (fun task => TaskRecord.status task = completed) tasks) in
  forEachM (fun task =>
    if negb (unlockable completedTaskId completedTaskSet task) then ret tt
    else
      let task := TaskUpdate.setStatus pending task in
      writeTask task ;;
      appendAuditEvent now actor "task_unblocked" [("taskId", TaskRecord.id task)])
    tasks.

(** [completeTask(teamId, input)] *)
Definition completeTask (now : Z) (teamIdArg : string) (input : FinalizeTaskInput.t)
    : M TaskRecord.t :=
  assertTeamId teamIdArg ;;
  let* task := finalizeTask now input FinalCompleted in
  unlockDependents now (TaskRecord.id task) (FinalizeTaskInput.agentId input) ;;
  ret task.

(** [failTask(teamId, input)] *)
Definition failTask (now : Z) (teamIdArg : string) (input : FinalizeTaskInput.t)
    : M TaskRecord.t :=
  assertTeamId teamIdArg ;;
  finalizeTask now input FinalFailed.

(** [JSON.stringify] of a thread message, as a JSON value. *)
Definition messageJson (m : ThreadMessageRecord.t) : Json :=
  JObj [("schemaVersion", JStr "1.0.0");
        ("id", JStr (ThreadMessageRecord.id m));
        ("threadId", JStr (ThreadMessageRecord.threadId m));
        ("from", JStr (ThreadMessageRecord.from m));
        ("body", JStr (ThreadMessageRecord.body m));
        ("ts", JNum (ThreadMessageRecord.ts m))].

(** [appendJsonl(threadFilePath(threadId), obj)] *)
Definition appendThreadLine (threadId : string) (obj : Json) : M unit :=
  modify (fun d =>
    setThreadFiles
      (<[threadId := default "" (threadFiles d !! threadId)
                      +:+ JSON_stringify obj +:+ String Io.newline ""]>
         (threadFiles d)) d).

Definition findThread (threadId : string) (threads : list ThreadRecord.t)
    : option ThreadRecord.t :=
  List.find (fun item => String.eqb (ThreadRecord.id item) threadId) threads.

(** The index after an assignment to the thread that [find] returned. *)
Fixpoint updateThread (threadId : string) (f : ThreadRecord.t -> ThreadRecord.t)
    (threads : list ThreadRecord.t) : list ThreadRecord.t :=
  match threads with
  | [] => []
  | item :: rest =>
      if String.eqb (ThreadRecord.id item) threadId then f item :: rest
      else item :: updateThread threadId f rest
  end.

Definition trimmedOption (o : option string) : option string :=
  match o with
  | Some s => if Str.nonEmpty (Str.trim s) then Some (Str.trim s) else None
  | None => None
  end.

(** [startThread(teamId, input)] *)
Definition startThread (now : Z) (teamIdArg : string) (input : StartThreadInput.t)
    : M ThreadRecord.t :=
  assertTeamId teamIdArg ;;
  let title := default "Thread" (trimmedOption (StartThreadInput.title input)) in
  let participants :=
    Str.dedupe (filter (fun s => Is_true (Str.nonEmpty s))
      (map Str.trim (default [] (StartThreadInput.participants input)))) in
  let participants :=
    match trimmedOption (StartThreadInput.agentId input) with
    | Some a => participants ++ [a]
    | None => participants
    end in
  let* uniqueParticipants := mapM ensureAgentId (Str.dedupe participants) in
  let* threads := readThreadIndex in
  let nextThreadNumber :=
    (fold_left (fun maxValue thread =>
       Nat.max maxValue (Helpers.parseThreadNumericId (ThreadRecord.id thread)))
       threads 0 + 1)%nat in
  let threadId := Helpers.buildThreadId nextThreadNumber in
  let createdAt := now in
  (match trimmedOption (StartThreadInput.taskId input) with
   | Some taskId => loadTaskOrThrow taskId ;; ret tt
   | None => ret tt
   end) ;;
  let thread :=
    ThreadRecord.mk threadId title uniqueParticipants
      (trimmedOption (StartThreadInput.taskId input)) createdAt createdAt in
  writeThreadIndex (threads ++ [thread]) ;;
  appendAuditEvent now
    (default "teamd" (trimmedOption (StartThreadInput.agentId input)))
    "thread_started" [("threadId", threadId)] ;;
  ret thread.

(** [postThreadMessage(teamId, input)]; [uuid] is what [randomUUID()]
    returns. *)
Definition postThreadMessage (now : Z) (uuid : string) (teamIdArg : string)
    (input : PostThreadMessageInput.t) : M ThreadMessageRecord.t :=
  assertTeamId teamIdArg ;;
  let* author := ensureAgentId (Str.trim (PostThreadMessageInput.agentId input)) in
  let body := Str.trim (PostThreadMessageInput.message input) in
  if negb (Str.nonEmpty body) then throw (TeamdStoreError 400 INVALID_THREAD_MESSAGE)
  else
    let* threads := readThreadIndex in
    match findThread (PostThreadMessageInput.threadId input) threads with
    | None => throw (TeamdStoreError 404 THREAD_NOT_FOUND)
    | Some thread =>
        let message :=
          ThreadMessageRecord.mk ("msg-" +:+ uuid) (ThreadRecord.id thread)
            author body now in
        appendThreadLine (ThreadRecord.id thread) (messageJson message) ;;
        writeThreadIndex
          (updateThread (PostThreadMessageInput.threadId input)
             (fun t => ThreadRecord.mk (ThreadRecord.id t) (ThreadRecord.title t)
                         (ThreadRecord.participants t) (ThreadRecord.taskId t)
                         (ThreadRecord.createdAt t) now)
             threads) ;;
        appendAuditEvent now author "thread_message"
          [("threadId", ThreadRecord.id thread)] ;;
        let recipients :=
          filter (fun participant => participant <> author)
                 (ThreadRecord.participants thread) in
        appendInboxEvent now recipients
          (InboxEvent.mk "thread_message" None (Some (ThreadRecord.id thread))
             (Some author) (Some (Helpers.sliceTo 120 body)) (Some body)) ;;
        ret message
    end.

(** A JavaScript number: the finite ones are rationals, which holds every
    double. *)
Inductive JsNumber := JsNaN | JsInfinity (negative : bool) | JsFinite (q : Q).

(** [Number.isFinite(limit) && limit > 0 ? Math.min(Math.floor(limit), 200) : 20] *)
Definition normalizedLimit (limit : JsNumber) : Z :=
  match limit with
  | JsFinite q => if negb (Qle_bool q (inject_Z 0)) then Z.min (Qfloor q) 200 else 20
  | _ => 20
  end.

Definition lastN {A} (n : nat) (l : list A) : list A :=
  drop (length l - n) l.

(** [l.slice(-n)] for an integer [n] that is not negative: [-0] is [0],
    and [l.slice(0)] is the whole of [l]. *)
Definition sliceLast {A} (n : Z) (l : list A) : list A :=
  if n =? 0 then l else lastN (Z.to_nat n) l.

Example sliceLast_ex_half :
  normalizedLimit (JsFinite (1 # 2)) = 0 /\
  sliceLast (normalizedLimit (JsFinite (1 # 2))) ["m1"; "m2"; "m3"] = ["m1"; "m2"; "m3"] /\
  sliceLast (normalizedLimit (JsFinite (5 # 2))) ["m1"; "m2"; "m3"] = ["m2"; "m3"] /\
  normalizedLimit JsNaN = 20 /\ normalizedLimit (JsFinite (inject_Z 1000)) = 200.
Proof. repeat split; reflexivity. Qed.

(** [readThreadTail(teamId, threadId, limit)]; a call without [limit]
    passes 20. *)
Definition readThreadTail (teamIdArg threadId : string) (limit : JsNumber)
    : M (ThreadRecord.t * list Json) :=
  assertTeamId teamIdArg ;;
  let* threads := readThreadIndex in
  match findThread threadId threads with
  | None => throw (TeamdStoreError 404 THREAD_NOT_FOUND)
  | Some thread =>
      let* raw := gets (fun d => threadFiles d !! ThreadRecord.id thread) in
      let outcome := match raw with Some raw => Ok raw | None => Err ENOENT end in
      match Io.readJsonlSafeFrom JSON_parse outcome with
      | Err e => throw (IoThrown e)
      | Ok values =>
          let records := filter (fun v => Is_true (isObjectLike v)) values in
          ret (thread, sliceLast (normalizedLimit limit) records)
      end
  end.

(** [searchThreads(teamId, query)] *)
Definition searchThreads (teamIdArg query : string) : M (list ThreadRecord.t) :=
  assertTeamId teamIdArg ;;
  let needle := Helpers.toLowerCase (Str.trim query) in
  let* threads := readThreadIndex in
  if negb (Str.nonEmpty needle) then ret threads
  else
    ret (filter (fun thread => Is_true (
           Str.includes (Helpers.toLowerCase (ThreadRecord.title thread)) needle ||
           match ThreadRecord.taskId thread with
           | Some taskId => Str.includes (Helpers.toLowerCase taskId) needle
           | None => false
           end ||
           existsb (fun participant =>
                      Str.includes (Helpers.toLowerCase participant) needle)
                   (ThreadRecord.participants thread)))
         threads).

(** [linkThreadToTask(teamId, input)] *)
Definition linkThreadToTask (now : Z) (teamIdArg : string)
    (input : LinkThreadToTaskInput.t) : M ThreadRecord.t :=
  assertTeamId teamIdArg ;;
  loadTaskOrThrow (LinkThreadToTaskInput.taskId input) ;;
  let* threads := readThreadIndex in
  match findThread (LinkThreadToTaskInput.threadId input) threads with
  | None => throw (TeamdStoreError 404 THREAD_NOT_FOUND)
  | Some thread =>
      let linked t :=
        ThreadRecord.mk (ThreadRecord.id t) (ThreadRecord.title t)
          (ThreadRecord.participants t) (Some (LinkThreadToTaskInput.taskId input))
          (ThreadRecord.createdAt t) now in
      writeThreadIndex
        (updateThread (LinkThreadToTaskInput.threadId input) linked threads) ;;
      appendAuditEvent now "teamd" "thread_linked_task"
        [("threadId", ThreadRecord.id thread);
         ("taskId", LinkThreadToTaskInput.taskId input)] ;;
      ret (linked thread)
  end.

(** [fetchInbox(teamId, agentId, since)]; the pair is [{events, nextSince}],
    with [nextSince] before its conversion to a string. *)
Definition fetchInbox (teamIdArg agentId : string) (since : option string)
    : M (list InboxEventRecord.t * Z) :=
  assertTeamId teamIdArg ;;
  let* normalizedAgentId := ensureAgentId (Str.trim agentId) in
  let* state := readInbox normalizedAgentId true in
  let cursorFloor :=
    match Helpers.parseInt10 (default "0" since) with
    | Helpers.Finite sinceCursor => if 0 <? sinceCursor then sinceCursor else 0
    | _ => 0
    end in
  let events :=
    filter (fun event => cursorFloor < InboxEventRecord.cursor event)
           (InboxState.events state) in
  let nextSince :=
    match last events with
    | Some event => InboxEventRecord.cursor event
    | None => Z.max cursorFloor (InboxState.nextCursor state)
    end in
  ret (events, nextSince).

(** The test of the loop of [canWrite] on one task. *)
Definition grantsWrite (now : Z) (agentId safePath : string)
    (task : TaskRecord.t) : bool :=
  match TaskRecord.status task, TaskRecord.lease task with
  | in_progress, Some l =>
      String.eqb (TaskLease.holder l) agentId &&
      negb (TaskLease.expiresAt l <=? now) &&
      existsb (fun resource => Helpers.resourceMatchesPath resource safePath)
              (TaskRecord.resources task)
  | _, _ => false
  end.

(** [canWrite(teamId, agentId, requestedPath)] *)
Definition canWrite (now : Z) (teamIdArg agentId requestedPath : string)
    : M CanWriteResult :=
  assertTeamId teamIdArg ;;
  let safePath := Helpers.normalizePathPrefix requestedPath in
  if negb (Str.nonEmpty safePath)
  then ret {| allow := false; reason := "invalid_path" |}
  else
    match Io.safeJoin fs (teamDirPath cfg) safePath with
    | Err _ => ret {| allow := false; reason := "path_traversal_denied" |}
    | Ok _ =>
        let* tasks := listTasksUnsafe in
        if existsb (grantsWrite now agentId safePath) tasks
        then ret {| allow := true; reason := "lease_active_for_resource" |}
        else ret {| allow := false; reason := "no_active_lease_for_path" |}
    end.

End TeamdStore.

(* ===================================================================== *)
(** ** The guard client's discovery ([src/extension/teamd-client.ts]) *)
(* ===================================================================== *)

Module DiscoveryData.
Record t := mk { teamId : string; agentId : string; baseUrl : string; token : string }.
End DiscoveryData.

Module TokenFileData.
Record t := mk { token : option string; url : option string }.
End TokenFileData.

Module TeamdClient.

(** [asString(value)] on an environment variable or a JSON field that may
    be missing. *)
Definition asString (value : option string) : string :=
  match value with
  | Some s => Str.trim s
  | None => ""
  end.

Definition jsonString (value : option Json) : option string :=
  match value with
  | Some (JStr s) => Some s
  | _ => None
  end.

(** [normalizeUrl(input)] *)
Definition normalizeUrl (input : string) : string := Str.dropTrailing "/" input.

(** [a ||= b] on strings *)
Definition orElse (a b : string) : string := if Str.nonEmpty a then a else b.

Section WithReader.
Variable readFileImpl : string -> Result Errno string.
Variable JSON_parse : string -> option Json.

(** [parseTokenFile(tokenFilePath, reader)]; [Err] when the reader
    throws. *)
Definition parseTokenFile (tokenFilePath : string) : Result Errno TokenFileData.t :=
  match readFileImpl tokenFilePath with
  | Err e => Err e
  | Ok content =>
      let raw := Str.trim content in
      if negb (Str.nonEmpty raw) then Ok (TokenFileData.mk None None)
      else if Str.startsWith raw "{" then
        match JSON_parse raw with
        | Some (JObj fields) =>
            Ok (TokenFileData.mk
                  (Some (asString (jsonString (lookupField "token" fields))))
                  (Some (asString (jsonString (lookupField "url" fields)))))
        | Some _ => Ok (TokenFileData.mk (Some "") (Some ""))
        | None => Ok (TokenFileData.mk None None)
        end
      else
        match List.find Str.nonEmpty (map Str.trim (Str.split Io.newline raw)) with
        | Some token => Ok (TokenFileData.mk (Some token) None)
        | None => Ok (TokenFileData.mk None None)
        end
  end.

(** [discover(requireAgent)] over the environment snapshot [env]. *)
Definition discover (env : gmap string string) (requireAgent : bool)
    : option DiscoveryData.t :=
  let url := asString (env !! "PI_TEAMD_URL") in
  let token := asString (env !! "PI_TEAMD_TOKEN") in
  let teamId := asString (env !! "PI_TEAM_ID") in
  let agentId := asString (env !! "PI_AGENT_ID") in
  let tokenFile := asString (env !! "PI_TEAMD_TOKEN_FILE") in
  let filled :=
    if (negb (Str.nonEmpty token) || negb (Str.nonEmpty url)) && Str.nonEmpty tokenFile
    then
      match parseTokenFile tokenFile with
      | Ok fromFile =>
          Some (orElse token (default "" (TokenFileData.token fromFile)),
                orElse url (default "" (TokenFileData.url fromFile)))
      | Err _ => None
      end
    else Some (token, url) in
  match filled with
  | None => None
  | Some (token, url) =>
      if negb (Str.nonEmpty url) || negb (Str.nonEmpty token) || negb (Str.nonEmpty teamId)
      then None
      else if requireAgent && negb (Str.nonEmpty agentId) then None
      else Some (DiscoveryData.mk teamId agentId (normalizeUrl url) token)
  end.

End WithReader.

End TeamdClient.

(* ===================================================================== *)
(** ** Histories of the store *)
(* ===================================================================== *)

(** The state-changing calls of the public interface, with the clock
    reading at which the mutation queue runs them. *)
Inductive Op :=
| OpCreateTeam (now : Z) (team : TeamRecord.t)
| OpCreateTask (now : Z) (teamIdArg : string) (input : CreateTaskInput.t)
    (idempotencyKey : option string)
| OpClaimTask (now : Z) (teamIdArg : string) (input : ClaimTaskInput.t)
| OpRenewTask (now : Z) (teamIdArg : string) (input : RenewTaskInput.t)
| OpCompleteTask (now : Z) (teamIdArg : string) (input : FinalizeTaskInput.t)
| OpFailTask (now : Z) (teamIdArg : string) (input : FinalizeTaskInput.t)
| OpStartThread (now : Z) (teamIdArg : string) (input : StartThreadInput.t)
| OpPostThreadMessage (now : Z) (uuid teamIdArg : string)
    (input : PostThreadMessageInput.t)
| OpLinkThreadToTask (now : Z) (teamIdArg : string) (input : LinkThreadToTaskInput.t)
| OpFetchInbox (teamIdArg agentId : string) (since : option string).

Section History.
Variable JSON_stringify : Json -> string.
Variable cfg : StoreConfig.

(** The disk after one call, whatever the call returned. *)
Definition runOp (op : Op) (d : Disk) : Disk :=
  match op with
  | OpCreateTeam now team => fst (createTeam cfg now team d)
  | OpCreateTask now tid input key => fst (createTask cfg now tid input key d)
  | OpClaimTask now tid input => fst (claimTask cfg now tid input d)
  | OpRenewTask now tid input => fst (renewTask cfg now tid input d)
  | OpCompleteTask now tid input => fst (completeTask cfg now tid input d)
  | OpFailTask now tid input => fst (failTask cfg now tid input d)
  | OpStartThread now tid input => fst (startThread cfg now tid input d)
  | OpPostThreadMessage now uuid tid input =>
      fst (postThreadMessage JSON_stringify cfg now uuid tid input d)
  | OpLinkThreadToTask now tid input => fst (linkThreadToTask cfg now tid input d)
  | OpFetchInbox tid agentId since => fst (fetchInbox cfg tid agentId since d)
  end.

Definition runOps (ops : list Op) (d : Disk) : Disk :=
  fold_left (fun d op => runOp op d) ops d.

(** A fresh team directory holds no task and no idempotency record; its
    team file, inboxes and threads are arbitrary. *)
Definition freshDisk (d : Disk) : Prop :=
  taskFiles d = ∅ /\ idempotencyEntries d = ∅.

Inductive reachable : Disk -> Prop :=
| reachable_fresh d : freshDisk d -> reachable d
| reachable_step d op : reachable d -> reachable (runOp op d).

End History.

Definition emptyDisk : Disk := {|
  teamFile := None; taskFiles := ∅; idempotencyEntries := ∅;
  threadIndex := []; threadFiles := ∅; inboxFiles := ∅; auditLog := []
|}.

(** The store of the examples: team [test-team] with a lease of five
    minutes. *)
Definition exampleCfg : StoreConfig := {|
  teamId := "test-team";
  defaultLeaseTtlMs := 300000;
  teamDirPath := "/ws/team"
|}.

(* ===================================================================== *)
(** ** Which parts of the disk an operation leaves alone *)
(* ===================================================================== *)

(** [keepsTasks m]: [m] writes neither a task file nor the idempotency
    file. *)
Definition keepsTasks {A} (m : M A) : Prop :=
  forall d, taskFiles (fst (m d)) = taskFiles d /\
            idempotencyEntries (fst (m d)) = idempotencyEntries d.

(** [returnsOnly m v]: when [m] returns, it returns [v]. *)
Definition returnsOnly {A} (m : M A) (v : A) : Prop :=
  forall d d' x, m d = (d', Ok x) -> x = v.

Lemma keepsTasks_ret {A} (a : A) : keepsTasks (ret a).
Proof. intros d; split; reflexivity. Qed.

Lemma keepsTasks_throw {A} e : keepsTasks (@throw A e).
Proof. intros d; split; reflexivity. Qed.

Lemma keepsTasks_gets {A} (f : Disk -> A) : keepsTasks (gets f).
Proof. intros d; split; reflexivity. Qed.

Lemma keepsTasks_bind {A B} (m : M A) (k : A -> M B) :
  keepsTasks m -> (forall a, keepsTasks (k a)) -> keepsTasks (bind m k).
Proof.
  intros Hm Hk d. unfold bind.
  destruct (Hm d) as [Ht Hi]. destruct (m d) as [d1 [a|e]]; simpl in *.
  - destruct (Hk a d1) as [Ht' Hi']. split; congruence.
  - split; assumption.
Qed.

Lemma keepsTasks_forEachM {A} (f : A -> M unit) (l : list A) :
  (forall a, keepsTasks (f a)) -> keepsTasks (forEachM f l).
Proof.
  intros Hf. induction l as [|x l IH]; simpl.
  - apply keepsTasks_ret.
  - apply keepsTasks_bind; [apply Hf | intros _; exact IH].
Qed.

Lemma keepsTasks_mapM {A B} (f : A -> M B) (l : list A) :
  (forall a, keepsTasks (f a)) -> keepsTasks (mapM f l).
Proof.
  intros Hf. induction l as [|x l IH]; simpl.
  - apply keepsTasks_ret.
  - apply keepsTasks_bind; [apply Hf | intros y].
    apply keepsTasks_bind; [exact IH | intros ys; apply keepsTasks_ret].
Qed.

Lemma keepsTasks_if {A} (b : bool) (m1 m2 : M A) :
  keepsTasks m1 -> keepsTasks m2 -> keepsTasks (if b then m1 else m2).
Proof. destruct b; auto. Qed.

Lemma returnsOnly_ret {A} (v : A) : returnsOnly (ret v) v.
Proof. intros d d' x H. unfold ret in H. congruence. Qed.

Lemma returnsOnly_throw {A} e (v : A) : returnsOnly (throw e) v.
Proof. intros d d' x H. unfold throw in H. congruence. Qed.

Lemma returnsOnly_bind {A B} (m : M A) (k : A -> M B) (v : B) :
  (forall a, returnsOnly (k a) v) -> returnsOnly (bind m k) v.
Proof.
  intros Hk d d' x H. unfold bind in H.
  destruct (m d) as [d1 [a|e]]; [eapply Hk; eauto | congruence].
Qed.

Create HintDb keeps discriminated.
#[export] Hint Resolve keepsTasks_ret keepsTasks_throw keepsTasks_gets
  keepsTasks_if : keeps.
#[export] Hint Resolve returnsOnly_ret returnsOnly_throw : keeps.

Ltac keeps_tac :=
  repeat first
    [ apply keepsTasks_ret | apply keepsTasks_throw | apply keepsTasks_gets
    | apply keepsTasks_bind; [| intros ?]
    | apply keepsTasks_forEachM; intros ?
    | apply keepsTasks_mapM; intros ?
    | match goal with
      | |- keepsTasks (if ?b then _ else _) => destruct b
      | |- keepsTasks (match ?o with Some _ => _ | None => _ end) => destruct o
      end
    | solve [auto with keeps] ].

Section KeepsTasks.
Variable cfg : StoreConfig.

Lemma keepsTasks_assertTeamId tid : keepsTasks (assertTeamId cfg tid).
Proof. unfold assertTeamId. keeps_tac. Qed.

Lemma keepsTasks_ensureAgentId a : keepsTasks (ensureAgentId a).
Proof. unfold ensureAgentId. keeps_tac. Qed.

Lemma keepsTasks_appendAuditEvent now actor type refs :
  keepsTasks (appendAuditEvent now actor type refs).
Proof. intros d; split; reflexivity. Qed.

Lemma keepsTasks_writeInbox a st : keepsTasks (writeInbox a st).
Proof. intros d; split; reflexivity. Qed.

Lemma keepsTasks_writeTeam team : keepsTasks (writeTeam team).
Proof. intros d; split; reflexivity. Qed.

Lemma keepsTasks_writeThreadIndex ts : keepsTasks (writeThreadIndex ts).
Proof. intros d; split; reflexivity. Qed.

Lemma keepsTasks_readTask k : keepsTasks (readTask k).
Proof. apply keepsTasks_gets. Qed.

Lemma keepsTasks_loadTaskOrThrow k : keepsTasks (loadTaskOrThrow k).
Proof. unfold loadTaskOrThrow, readTask. keeps_tac. Qed.

Hint Resolve keepsTasks_assertTeamId keepsTasks_ensureAgentId
  keepsTasks_appendAuditEvent keepsTasks_writeInbox keepsTasks_writeTeam
  keepsTasks_writeThreadIndex keepsTasks_readTask keepsTasks_loadTaskOrThrow
  : keeps.

Lemma keepsTasks_readInbox a b : keepsTasks (readInbox a b).
Proof. unfold readInbox. keeps_tac. Qed.

Lemma keepsTasks_broadcastRecipients : keepsTasks broadcastRecipients.
Proof. unfold broadcastRecipients, readTeam, listInboxAgents. keeps_tac. Qed.

Hint Resolve keepsTasks_readInbox keepsTasks_broadcastRecipients : keeps.

Lemma keepsTasks_appendInboxEvent now recipients event :
  keepsTasks (appendInboxEvent cfg now recipients event).
Proof. unfold appendInboxEvent. keeps_tac. Qed.

Hint Resolve keepsTasks_appendInboxEvent : keeps.

Lemma keepsTasks_createTeam now team : keepsTasks (createTeam cfg now team).
Proof. unfold createTeam, readTeam. keeps_tac. Qed.

Lemma keepsTasks_startThread now tid input :
  keepsTasks (startThread cfg now tid input).
Proof. unfold startThread, readThreadIndex. keeps_tac. Qed.

Lemma keepsTasks_postThreadMessage stringify now uuid tid input :
  keepsTasks (postThreadMessage stringify cfg now uuid tid input).
Proof.
  unfold postThreadMessage, readThreadIndex, appendThreadLine. keeps_tac.
Qed.

Lemma keepsTasks_linkThreadToTask now tid input :
  keepsTasks (linkThreadToTask cfg now tid input).
Proof. unfold linkThreadToTask, readThreadIndex. keeps_tac. Qed.

Lemma keepsTasks_fetchInbox tid agentId since :
  keepsTasks (fetchInbox cfg tid agentId since).
Proof. unfold fetchInbox. keeps_tac. Qed.

End KeepsTasks.

(** [throwsOnly m e]: when [m] throws, it throws [e]. *)
Definition throwsOnly {A} (m : M A) (e : StoreThrown) : Prop :=
  forall d d' e', m d = (d', Err e') -> e' = e.

Lemma throwsOnly_ret {A} (a : A) e : throwsOnly (ret a) e.
Proof. intros d d' e' H. unfold ret in H. congruence. Qed.

Lemma throwsOnly_modify f e : throwsOnly (modify f) e.
Proof. intros d d' e' H. unfold modify in H. congruence. Qed.

Lemma throwsOnly_gets {A} (f : Disk -> A) e : throwsOnly (gets f) e.
Proof. intros d d' e' H. unfold gets in H. congruence. Qed.

Lemma throwsOnly_throw {A} e : throwsOnly (@throw A e) e.
Proof. intros d d' e' H. unfold throw in H. congruence. Qed.

Lemma throwsOnly_bind {A B} (m : M A) (k : A -> M B) e :
  throwsOnly m e -> (forall a, throwsOnly (k a) e) -> throwsOnly (bind m k) e.
Proof.
  intros Hm Hk d d' e' H. unfold bind in H.
  destruct (m d) as [d1 [a|e1]] eqn:E.
  - eapply Hk; eauto.
  - inversion H; subst. eapply Hm; eauto.
Qed.

Lemma throwsOnly_forEachM {A} (f : A -> M unit) (l : list A) e :
  (forall a, throwsOnly (f a) e) -> throwsOnly (forEachM f l) e.
Proof.
  intros Hf. induction l as [|x l IH]; simpl.
  - apply throwsOnly_ret.
  - apply throwsOnly_bind; [apply Hf | intros _; exact IH].
Qed.

Ltac throws_tac :=
  repeat first
    [ apply throwsOnly_ret | apply throwsOnly_throw | apply throwsOnly_gets
    | apply throwsOnly_modify
    | apply throwsOnly_bind; [| intros ?]
    | apply throwsOnly_forEachM; intros ?
    | match goal with
      | |- throwsOnly (if ?b then _ else _) _ => destruct b
      | |- throwsOnly (match ?o with Some _ => _ | None => _ end) _ => destruct o
      end ].

(** The fan-out to the inboxes throws nothing but [400 INVALID_AGENT_ID]. *)
Lemma throwsOnly_appendInboxEvent cfg now recipients event :
  throwsOnly (appendInboxEvent cfg now recipients event)
             (TeamdStoreError 400 INVALID_AGENT_ID).
Proof.
  unfold appendInboxEvent, ensureAgentId, readInbox, writeInbox. throws_tac.
Qed.

Lemma throwsOnly_broadcastRecipients e : throwsOnly broadcastRecipients e.
Proof. unfold broadcastRecipients, readTeam, listInboxAgents. throws_tac. Qed.

(** The notification that follows the write of a claimed or finalized
    task: audit line, then inbox fan-out, then the return value. *)
Definition notifyAndReturn {A} (cfg : StoreConfig) (now : Z) (actor type : string)
    (refs : list (string * string)) (event : InboxEvent.t) (v : A) : M A :=
  appendAuditEvent now actor type refs ;;
  let* recipients := broadcastRecipients in
  appendInboxEvent cfg now recipients event ;;
  ret v.

Lemma notifyAndReturn_facts {A} cfg now actor type refs event (v : A) d :
  taskFiles (fst (notifyAndReturn cfg now actor type refs event v d)) = taskFiles d /\
  idempotencyEntries (fst (notifyAndReturn cfg now actor type refs event v d))
    = idempotencyEntries d /\
  (snd (notifyAndReturn cfg now actor type refs event v d) = Ok v \/
   snd (notifyAndReturn cfg now actor type refs event v d)
     = Err (TeamdStoreError 400 INVALID_AGENT_ID)).
Proof.
  assert (Hk : keepsTasks (notifyAndReturn cfg now actor type refs event v)).
  { unfold notifyAndReturn.
    apply keepsTasks_bind; [apply keepsTasks_appendAuditEvent|intros _].
    apply keepsTasks_bind; [apply keepsTasks_broadcastRecipients|intros r].
    apply keepsTasks_bind; [apply keepsTasks_appendInboxEvent|intros _].
    apply keepsTasks_ret. }
  assert (Hr : returnsOnly (notifyAndReturn cfg now actor type refs event v) v).
  { unfold notifyAndReturn. repeat (apply returnsOnly_bind; intros ?).
    apply returnsOnly_ret. }
  assert (Ht : throwsOnly (notifyAndReturn cfg now actor type refs event v)
                          (TeamdStoreError 400 INVALID_AGENT_ID)).
  { unfold notifyAndReturn. apply throwsOnly_bind; [apply throwsOnly_modify|intros _].
    apply throwsOnly_bind; [apply throwsOnly_broadcastRecipients|intros r].
    apply throwsOnly_bind; [apply throwsOnly_appendInboxEvent|intros _].
    apply throwsOnly_ret. }
  destruct (Hk d) as [H1 H2]. split; [exact H1|]. split; [exact H2|].
  destruct (notifyAndReturn cfg now actor type refs event v d) as [d' [x|e]] eqn:E; simpl.
  - left. f_equal. eapply Hr; eauto.
  - right. f_equal. eapply Ht; eauto.
Qed.

(* ===================================================================== *)
(** ** Running the monad *)
(* ===================================================================== *)

Lemma bind_ret {A B} (a : A) (k : A -> M B) d : bind (ret a) k d = k a d.
Proof. reflexivity. Qed.

Lemma bind_throw {A B} e (k : A -> M B) d : bind (throw e) k d = (d, Err e).
Proof. reflexivity. Qed.

Lemma bind_gets {A B} (f : Disk -> A) (k : A -> M B) d :
  bind (gets f) k d = k (f d) d.
Proof. reflexivity. Qed.

Lemma bind_modify {B} (f : Disk -> Disk) (k : unit -> M B) d :
  bind (modify f) k d = k tt (f d).
Proof. reflexivity. Qed.

Lemma bind_bind {A B C} (m : M A) (k1 : A -> M B) (k2 : B -> M C) d :
  bind (bind m k1) k2 d = bind m (fun a => bind (k1 a) k2) d.
Proof. unfold bind. destruct (m d) as [d1 [a|e]]; reflexivity. Qed.

Ltac mrun :=
  repeat first
    [ rewrite bind_ret | rewrite bind_throw | rewrite bind_gets
    | rewrite bind_modify | rewrite bind_bind ].

Section TaskOps.
Variable cfg : StoreConfig.

Lemma assertTeamId_ok : assertTeamId cfg (teamId cfg) = ret tt.
Proof. unfold assertTeamId. rewrite String.eqb_refl. reflexivity. Qed.

Lemma assertTeamId_bad tid :
  tid <> teamId cfg ->
  assertTeamId cfg tid = throw (TeamdStoreError 404 TEAM_NOT_FOUND).
Proof.
  intros H. unfold assertTeamId.
  destruct (String.eqb_spec tid (teamId cfg)); [contradiction|reflexivity].
Qed.

Lemma resetIfExpired_id now t :
  TaskRecord.id (resetIfExpired now t) = TaskRecord.id t.
Proof.
  unfold resetIfExpired.
  destruct (TaskRecord.status t), (TaskRecord.lease t) as [l|]; try reflexivity.
  destruct (Helpers.isLeaseExpired now l); reflexivity.
Qed.

Lemma resetIfExpired_epoch now t :
  TaskRecord.epoch (resetIfExpired now t) = TaskRecord.epoch t.
Proof.
  unfold resetIfExpired.
  destruct (TaskRecord.status t), (TaskRecord.lease t) as [l|]; try reflexivity.
  destruct (Helpers.isLeaseExpired now l); reflexivity.
Qed.

(** *** [claimTask] *)

Lemma claimTask_wrong_team now tid input d :
  tid <> teamId cfg ->
  claimTask cfg now tid input d = (d, Err (TeamdStoreError 404 TEAM_NOT_FOUND)).
Proof. intros H. unfold claimTask. rewrite (assertTeamId_bad _ H). reflexivity. Qed.

Lemma claimTask_not_found now input d :
  taskFiles d !! ClaimTaskInput.taskId input = None ->
  claimTask cfg now (teamId cfg) input d
  = (d, Err (TeamdStoreError 404 TASK_NOT_FOUND)).
Proof.
  intros H. unfold claimTask, loadTaskOrThrow, readTask.
  rewrite assertTeamId_ok. mrun. rewrite H. reflexivity.
Qed.

Lemma claimTask_not_claimable now input d t :
  taskFiles d !! ClaimTaskInput.taskId input = Some t ->
  TaskRecord.status (resetIfExpired now t) <> pending ->
  claimTask cfg now (teamId cfg) input d
  = (d, Err (TeamdStoreError 409 TASK_NOT_CLAIMABLE)).
Proof.
  intros H Hs. unfold claimTask, loadTaskOrThrow, readTask.
  rewrite assertTeamId_ok. mrun. rewrite H. mrun.
  rewrite bool_decide_eq_false_2 by exact Hs. reflexivity.
Qed.

Lemma claimTask_range_error now input d t :
  taskFiles d !! ClaimTaskInput.taskId input = Some t ->
  TaskRecord.status (resetIfExpired now t) = pending ->
  Helpers.validDate
    (now + default (defaultLeaseTtlMs cfg) (ClaimTaskInput.ttlMs input)) = false ->
  claimTask cfg now (teamId cfg) input d = (d, Err RangeError).
Proof.
  intros H Hs Hv. unfold claimTask, loadTaskOrThrow, readTask.
  rewrite assertTeamId_ok. mrun. rewrite H. mrun.
  rewrite bool_decide_eq_true_2 by exact Hs. simpl. rewrite Hv. reflexivity.
Qed.

Lemma claimTask_claims now input d t :
  taskFiles d !! ClaimTaskInput.taskId input = Some t ->
  TaskRecord.status (resetIfExpired now t) = pending ->
  Helpers.validDate
    (now + default (defaultLeaseTtlMs cfg) (ClaimTaskInput.ttlMs input)) = true ->
  let l := claimLease now (default (defaultLeaseTtlMs cfg) (ClaimTaskInput.ttlMs input))
             (ClaimTaskInput.agentId input) (resetIfExpired now t) in
  let t' := claimed now l (resetIfExpired now t) in
  let r := claimTask cfg now (teamId cfg) input d in
  taskFiles (fst r) = <[TaskRecord.id t := t']> (taskFiles d) /\
  idempotencyEntries (fst r) = idempotencyEntries d /\
  (snd r = Ok (t', l) \/ snd r = Err (TeamdStoreError 400 INVALID_AGENT_ID)).
Proof.
  intros H Hs Hv l t' r. subst r. unfold claimTask, loadTaskOrThrow, readTask.
  rewrite assertTeamId_ok. mrun. rewrite H. mrun.
  rewrite bool_decide_eq_true_2 by exact Hs. cbn [negb].
  rewrite Hv. cbn [negb]. unfold writeTask. mrun.
  fold l. fold t'.
  match goal with
  | |- context [bind (appendAuditEvent ?n ?a ?ty ?refs) _ ?d'] =>
      destruct (notifyAndReturn_facts cfg n a ty refs
                  (InboxEvent.mk "task_claimed" (Some (TaskRecord.id t')) None
                     (Some (ClaimTaskInput.agentId input))
                     (Some ("Task " +:+ TaskRecord.id t' +:+ " claimed by "
                            +:+ ClaimTaskInput.agentId input)) None)
                  (t', l) d') as (H1 & H2 & H3)
  end.
  unfold notifyAndReturn in H1, H2, H3.
  split; [|split].
  - rewrite H1. simpl. subst t'. unfold claimed. simpl.
    rewrite resetIfExpired_id. reflexivity.
  - rewrite H2. reflexivity.
  - exact H3.
Qed.

(** *** The task directory as a list *)

(** Every task file is named by the id of the record it holds. *)
Definition wfTasks (m : gmap string TaskRecord.t) : Prop :=
  forall k t, m !! k = Some t -> TaskRecord.id t = k.

Lemma elem_of_listed (m : gmap string TaskRecord.t) t :
  t ∈ (map_to_list m).*2 <-> exists k, m !! k = Some t.
Proof.
  rewrite list_elem_of_fmap. split.
  - intros [[k t'] [-> Hin]]. exists k. by apply elem_of_map_to_list.
  - intros [k Hk]. exists (k, t). split; [reflexivity|].
    by apply elem_of_map_to_list.
Qed.

Lemma listed_ids (m : gmap string TaskRecord.t) :
  wfTasks m -> map TaskRecord.id (map_to_list m).*2 = (map_to_list m).*1.
Proof.
  intros Hwf.
  assert (H : forall l : list (string * TaskRecord.t),
             (forall k t, (k, t) ∈ l -> TaskRecord.id t = k) ->
             map TaskRecord.id l.*2 = l.*1).
  { induction l as [|[k t] l IH]; intros Hl; [reflexivity|]. simpl. f_equal.
    - apply Hl. left.
    - apply IH. intros k' t' Hin. apply Hl. by right. }
  apply H. intros k t Hin. apply Hwf. by apply elem_of_map_to_list.
Qed.

Lemma listed_NoDup (m : gmap string TaskRecord.t) :
  wfTasks m -> NoDup (map TaskRecord.id (map_to_list m).*2).
Proof. intros Hwf. rewrite listed_ids by exact Hwf. apply NoDup_fst_map_to_list. Qed.

Lemma find_none_iff (l : list TaskRecord.t) k :
  List.find (fun t => String.eqb (TaskRecord.id t) k) l = None <->
  k ∉ map TaskRecord.id l.
Proof.
  induction l as [|x l IH]; simpl.
  - split; [intros _ H; inversion H | reflexivity].
  - destruct (String.eqb_spec (TaskRecord.id x) k) as [->|Hne].
    + split; [discriminate | intros H; exfalso; apply H; left].
    + rewrite IH. rewrite not_elem_of_cons.
      split; [intros H; split; [congruence | exact H] | intros [_ H]; exact H].
Qed.

Lemma find_listed (m : gmap string TaskRecord.t) k :
  wfTasks m ->
  List.find (fun t => String.eqb (TaskRecord.id t) k) (map_to_list m).*2 = m !! k.
Proof.
  intros Hwf.
  destruct (List.find _ _) as [t|] eqn:E.
  - apply List.find_some in E as [Hin Hid].
    apply String.eqb_eq in Hid. apply list_elem_of_In, elem_of_listed in Hin as [k' Hk'].
    pose proof (Hwf _ _ Hk'). congruence.
  - destruct (m !! k) as [t|] eqn:Hk; [|reflexivity].
    exfalso. apply find_none_iff in E. apply E.
    apply list_elem_of_fmap. exists t. split; [symmetry; eauto|].
    apply elem_of_listed. eauto.
Qed.

(** The directory after a loop that rewrites some of its task files. *)
Lemma rewrite_loop_lookup (p : TaskRecord.t -> bool)
    (g : TaskRecord.t -> TaskRecord.t) (l : list TaskRecord.t)
    (acc : gmap string TaskRecord.t) k :
  NoDup (map TaskRecord.id l) ->
  fold_left (fun acc t => if p t then <[TaskRecord.id t := g t]> acc else acc) l acc !! k
  = match List.find (fun t => String.eqb (TaskRecord.id t) k) l with
    | Some t => if p t then Some (g t) else acc !! k
    | None => acc !! k
    end.
Proof.
  revert acc. induction l as [|x l IH]; intros acc Hnd; [reflexivity|].
  simpl in Hnd. apply NoDup_cons in Hnd as [Hx Hnd]. simpl.
  rewrite IH by exact Hnd.
  destruct (String.eqb_spec (TaskRecord.id x) k) as [<-|Hne].
  - apply find_none_iff in Hx. rewrite Hx.
    destruct (p x); [apply lookup_insert_eq | reflexivity].
  - assert (Hacc : (if p x then <[TaskRecord.id x := g x]> acc else acc) !! k = acc !! k).
    { destruct (p x); [by apply lookup_insert_ne | reflexivity]. }
    rewrite Hacc. reflexivity.
Qed.

(** *** [renewTask] and [finalizeTask] *)

Lemma checkLease_Ok now t agentId epoch l :
  checkLease now t agentId epoch = Ok l <->
  TaskRecord.status t = in_progress /\ TaskRecord.lease t = Some l /\
  now < TaskLease.expiresAt l /\ TaskLease.holder l = agentId /\
  TaskLease.epoch l = epoch.
Proof.
  unfold checkLease, Helpers.isLeaseExpired.
  destruct (TaskRecord.status t), (TaskRecord.lease t) as [l0|];
    try (split; [discriminate | intros (? & ? & _); congruence]).
  destruct (Z.leb_spec (TaskLease.expiresAt l0) now).
  { split; [discriminate | intros (_ & Hl & ? & _); inversion Hl; subst; lia]. }
  destruct (String.eqb_spec (TaskLease.holder l0) agentId); simpl.
  2:{ split; [discriminate | intros (_ & Hl & _ & ? & _); congruence]. }
  destruct (Z.eqb_spec (TaskLease.epoch l0) epoch); simpl.
  2:{ split; [discriminate | intros (_ & Hl & _ & _ & ?); congruence]. }
  split.
  - intros H'; inversion H'; subst. auto.
  - intros (_ & Hl & _). congruence.
Qed.

Lemma finalized_id now f t : TaskRecord.id (finalized now f t) = TaskRecord.id t.
Proof. destruct f; reflexivity. Qed.

Lemma finalizeTask_not_found now input f d :
  taskFiles d !! FinalizeTaskInput.taskId input = None ->
  finalizeTask cfg now input f d = (d, Err (TeamdStoreError 404 TASK_NOT_FOUND)).
Proof.
  intros H. unfold finalizeTask, loadTaskOrThrow, readTask. mrun.
  rewrite H. reflexivity.
Qed.

Lemma finalizeTask_rejected now input f d t e :
  taskFiles d !! FinalizeTaskInput.taskId input = Some t ->
  checkLease now t (FinalizeTaskInput.agentId input) (FinalizeTaskInput.epoch input)
    = Err e ->
  finalizeTask cfg now input f d = (d, Err e).
Proof.
  intros H Hc. unfold finalizeTask, loadTaskOrThrow, readTask. mrun.
  rewrite H. mrun. rewrite Hc. reflexivity.
Qed.

Lemma finalizeTask_finalizes now input f d t l :
  taskFiles d !! FinalizeTaskInput.taskId input = Some t ->
  checkLease now t (FinalizeTaskInput.agentId input) (FinalizeTaskInput.epoch input)
    = Ok l ->
  let t' := finalized now f t in
  let r := finalizeTask cfg now input f d in
  taskFiles (fst r) = <[TaskRecord.id t := t']> (taskFiles d) /\
  idempotencyEntries (fst r) = idempotencyEntries d /\
  (snd r = Ok t' \/ snd r = Err (TeamdStoreError 400 INVALID_AGENT_ID)).
Proof.
  intros H Hc t' r. subst r. unfold finalizeTask, loadTaskOrThrow, readTask. mrun.
  rewrite H. mrun. rewrite Hc. unfold writeTask. mrun. fold t'.
  match goal with
  | |- context [bind (appendAuditEvent ?n ?a ?ty ?refs)
                     (fun _ => bind _ (fun recipients =>
                        bind (appendInboxEvent _ _ _ ?ev) _)) ?d'] =>
      destruct (notifyAndReturn_facts cfg n a ty refs ev t' d') as (H1 & H2 & H3)
  end.
  unfold notifyAndReturn in H1, H2, H3.
  split; [|split].
  - rewrite H1. simpl. subst t'. rewrite ?finalized_id. reflexivity.
  - rewrite H2. reflexivity.
  - exact H3.
Qed.

Lemma renewTask_wrong_team now tid input d :
  tid <> teamId cfg ->
  renewTask cfg now tid input d = (d, Err (TeamdStoreError 404 TEAM_NOT_FOUND)).
Proof. intros H. unfold renewTask. rewrite (assertTeamId_bad _ H). reflexivity. Qed.

(** What [renewTask] does to the task files: nothing, or it rewrites one
    held task with a lease that differs in [expiresAt] only. *)
Lemma renewTask_effect now tid input d :
  let r := renewTask cfg now tid input d in
  idempotencyEntries (fst r) = idempotencyEntries d /\
  (taskFiles (fst r) = taskFiles d \/
   exists t l e,
     taskFiles d !! RenewTaskInput.taskId input = Some t /\
     TaskRecord.status t = in_progress /\ TaskRecord.lease t = Some l /\
     taskFiles (fst r)
     = <[TaskRecord.id t := TaskUpdate.setLease (Some (renewedLease e l)) t]>
         (taskFiles d)).
Proof.
  intros r. subst r. unfold renewTask.
  destruct (String.eqb_spec tid (teamId cfg)) as [->|Hne].
  2:{ rewrite (assertTeamId_bad _ Hne). simpl. auto. }
  rewrite assertTeamId_ok. unfold loadTaskOrThrow, readTask. mrun.
  destruct (taskFiles d !! RenewTaskInput.taskId input) as [t|] eqn:H; mrun;
    [|simpl; auto].
  destruct (checkLease now t _ _) as [l|e] eqn:Hc; [|simpl; auto].
  apply checkLease_Ok in Hc as (Hs & Hl & _).
  destruct (Helpers.validDate _); cbn [negb]; [|simpl; auto].
  unfold writeTask, appendAuditEvent. mrun. simpl. split; [reflexivity|].
  right. exists t, l. eexists. repeat split; eauto.
Qed.

(** *** [unlockDependents], [completeTask], [failTask] *)

Definition completedIds (m : gmap string TaskRecord.t) : list string :=
  map TaskRecord.id
      (filter (fun task => TaskRecord.status task = completed) (map_to_list m).*2).

(** The task files after [unlockDependents]. *)
Definition unlockedFiles (completedTaskId : string) (m : gmap string TaskRecord.t)
    : gmap string TaskRecord.t :=
  (fun t => if unlockable completedTaskId (completedIds m) t
            then TaskUpdate.setStatus pending t else t) <$> m.

Lemma wfTasks_insert m t t' :
  wfTasks m -> TaskRecord.id t' = TaskRecord.id t ->
  wfTasks (<[TaskRecord.id t := t']> m).
Proof.
  intros Hwf Hid k x. rewrite lookup_insert.
  case_decide; [intros [= <-]; congruence | apply Hwf].
Qed.

Lemma unlock_loop now cid actor cset (l : list TaskRecord.t) d :
  let r := forEachM (fun task =>
             if negb (unlockable cid cset task) then ret tt
             else
               let task := TaskUpdate.setStatus pending task in
               writeTask task ;;
               appendAuditEvent now actor "task_unblocked"
                 [("taskId", TaskRecord.id task)]) l d in
  taskFiles (fst r)
  = fold_left (fun acc t => if unlockable cid cset t
                            then <[TaskRecord.id t := TaskUpdate.setStatus pending t]> acc
                            else acc) l (taskFiles d) /\
  idempotencyEntries (fst r) = idempotencyEntries d /\
  snd r = Ok tt.
Proof.
  intros r. subst r.
  match goal with |- context [forEachM ?f l d] => set (body := f) end.
  revert d. induction l as [|x l IH]; intros d; [simpl; auto|].
  change (forEachM body (x :: l) d)
    with (bind (body x) (fun _ => forEachM body l) d).
  cbn [fold_left]. unfold bind.
  destruct (body x d) as [d1 r1] eqn:Hx. unfold body in Hx.
  destruct (unlockable cid cset x) eqn:E; cbn [negb] in Hx.
  - unfold writeTask, appendAuditEvent, bind, modify in Hx.
    inversion Hx; subst d1 r1; clear Hx.
    match goal with |- context [forEachM body l ?d'] =>
      destruct (IH d') as (H1 & H2 & H3) end.
    rewrite H1, H2, H3. simpl. auto.
  - unfold ret in Hx. inversion Hx; subst d1 r1; clear Hx.
    destruct (IH d) as (H1 & H2 & H3). rewrite H1, H2, H3. auto.
Qed.

Lemma unlockDependents_run now cid actor d :
  wfTasks (taskFiles d) ->
  let r := unlockDependents now cid actor d in
  taskFiles (fst r) = unlockedFiles cid (taskFiles d) /\
  idempotencyEntries (fst r) = idempotencyEntries d /\
  snd r = Ok tt.
Proof.
  intros Hwf r. subst r. unfold unlockDependents, listTasksUnsafe. mrun.
  destruct (unlock_loop now cid actor (completedIds (taskFiles d))
              (map_to_list (taskFiles d)).*2 d) as (H1 & H2 & H3).
  unfold completedIds in H1, H2, H3 |- *.
  split; [|split; assumption].
  etransitivity; [exact H1|]. apply map_eq. intros k.
  rewrite rewrite_loop_lookup by (apply listed_NoDup; exact Hwf).
  rewrite find_listed by exact Hwf.
  unfold unlockedFiles, completedIds. rewrite lookup_fmap.
  destruct (taskFiles d !! k) as [t|] eqn:Hk; simpl; [|reflexivity].
  destruct (unlockable _ _ t); reflexivity.
Qed.

Lemma failTask_wrong_team now tid input d :
  tid <> teamId cfg ->
  failTask cfg now tid input d = (d, Err (TeamdStoreError 404 TEAM_NOT_FOUND)).
Proof. intros H. unfold failTask. rewrite (assertTeamId_bad _ H). reflexivity. Qed.

Lemma failTask_ok_team now input d :
  failTask cfg now (teamId cfg) input d = finalizeTask cfg now input FinalFailed d.
Proof. unfold failTask. rewrite assertTeamId_ok. reflexivity. Qed.

Lemma completeTask_wrong_team now tid input d :
  tid <> teamId cfg ->
  completeTask cfg now tid input d = (d, Err (TeamdStoreError 404 TEAM_NOT_FOUND)).
Proof. intros H. unfold completeTask. rewrite (assertTeamId_bad _ H). reflexivity. Qed.

Lemma completeTask_not_found now input d :
  taskFiles d !! FinalizeTaskInput.taskId input = None ->
  completeTask cfg now (teamId cfg) input d
  = (d, Err (TeamdStoreError 404 TASK_NOT_FOUND)).
Proof.
  intros H. unfold completeTask. rewrite assertTeamId_ok. mrun.
  unfold bind. rewrite (finalizeTask_not_found _ _ _ _ H). reflexivity.
Qed.

Lemma completeTask_rejected now input d t e :
  taskFiles d !! FinalizeTaskInput.taskId input = Some t ->
  checkLease now t (FinalizeTaskInput.agentId input) (FinalizeTaskInput.epoch input)
    = Err e ->
  completeTask cfg now (teamId cfg) input d = (d, Err e).
Proof.
  intros H Hc. unfold completeTask. rewrite assertTeamId_ok. mrun.
  unfold bind. rewrite (finalizeTask_rejected _ _ _ _ _ _ H Hc). reflexivity.
Qed.

(** A completion writes the completed task; when the notification goes
    through it also unblocks the dependents and returns the task. *)
Lemma completeTask_completes now input d t l :
  wfTasks (taskFiles d) ->
  taskFiles d !! FinalizeTaskInput.taskId input = Some t ->
  checkLease now t (FinalizeTaskInput.agentId input) (FinalizeTaskInput.epoch input)
    = Ok l ->
  let t' := finalized now FinalCompleted t in
  let written := <[TaskRecord.id t := t']> (taskFiles d) in
  let r := completeTask cfg now (teamId cfg) input d in
  idempotencyEntries (fst r) = idempotencyEntries d /\
  ((snd r = Ok t' /\ taskFiles (fst r) = unlockedFiles (TaskRecord.id t) written) \/
   (snd r = Err (TeamdStoreError 400 INVALID_AGENT_ID) /\ taskFiles (fst r) = written)).
Proof.
  intros Hwf H Hc t' written r. subst r.
  destruct (finalizeTask_finalizes now input FinalCompleted d t l H Hc)
    as (H1 & H2 & H3).
  destruct (completeTask cfg now (teamId cfg) input d) as [dr rr] eqn:Hrun.
  unfold completeTask in Hrun. rewrite assertTeamId_ok, bind_ret in Hrun.
  unfold bind in Hrun.
  destruct (finalizeTask cfg now input FinalCompleted d) as [d1 r1].
  simpl in H1, H2, H3. destruct H3 as [-> | ->].
  - assert (Hwf1 : wfTasks (taskFiles d1)).
    { rewrite H1. apply wfTasks_insert; [exact Hwf | reflexivity]. }
    destruct (unlockDependents_run now (TaskRecord.id (finalized now FinalCompleted t))
                (FinalizeTaskInput.agentId input) d1 Hwf1) as (U1 & U2 & U3).
    destruct (unlockDependents now (TaskRecord.id (finalized now FinalCompleted t))
                (FinalizeTaskInput.agentId input) d1) as [d2 r2].
    simpl in U1, U2, U3. subst r2. unfold ret in Hrun.
    inversion Hrun; subst dr rr; clear Hrun. simpl.
    split; [congruence|]. left. split; [reflexivity|].
    rewrite U1, H1. reflexivity.
  - inversion Hrun; subst dr rr; clear Hrun. simpl.
    split; [assumption|]. right. split; [reflexivity | exact H1].
Qed.

(** *** Minted identifiers *)

Lemma dropPrefix_app p s : JsonText.dropPrefix p (p +:+ s) = Some s.
Proof.
  induction p as [|a p IH]; simpl; [destruct s; reflexivity|].
  rewrite Ascii.eqb_refl. exact IH.
Qed.

Lemma zeros_S k :
  String.concat "" (repeat "0" (S k)) = String "0" (String.concat "" (repeat "0" k)).
Proof. destruct k; reflexivity. Qed.

Lemma digits_string_of_uint d :
  Str.forallChars Str.isDigit (NilEmpty.string_of_uint d) = true.
Proof. induction d; simpl; auto. Qed.

Lemma parse_padded k s d :
  NilEmpty.uint_of_string s = Some d ->
  exists d', NilEmpty.uint_of_string (String.concat "" (repeat "0" k) +:+ s) = Some d' /\
             Nat.of_uint d' = Nat.of_uint d.
Proof.
  intros Hs. induction k as [|k (d' & H1 & H2)].
  - exists d. split; [exact Hs | reflexivity].
  - rewrite zeros_S. exists (Decimal.D0 d'). split.
    + simpl. fold NilEmpty.uint_of_string. rewrite H1. reflexivity.
    + rewrite <- H2. reflexivity.
Qed.

Lemma digits_padded k s :
  Str.forallChars Str.isDigit s = true ->
  Str.forallChars Str.isDigit (String.concat "" (repeat "0" k) +:+ s) = true.
Proof.
  intros Hs. induction k as [|k IH]; [exact Hs|]. rewrite zeros_S. exact IH.
Qed.

Lemma nonEmpty_padded s : Str.nonEmpty (Str.padStart0 4 s) = true.
Proof.
  unfold Str.padStart0. destruct (4 - String.length s)%nat as [|k] eqn:E.
  - destruct s; [simpl in E; discriminate | reflexivity].
  - rewrite zeros_S. reflexivity.
Qed.

(** Parsing a minted identifier gives its number back. *)
Lemma parseNumericId_build prefix n :
  Helpers.parseNumericId prefix (Helpers.buildNumericId prefix n) = n.
Proof.
  unfold Helpers.parseNumericId, Helpers.buildNumericId.
  rewrite dropPrefix_app, nonEmpty_padded. unfold Str.padStart0.
  rewrite digits_padded by apply digits_string_of_uint. simpl andb. cbv iota.
  destruct (parse_padded (4 - String.length (NilEmpty.string_of_uint (Nat.to_uint n)))
              _ _ (NilEmpty.usu (Nat.to_uint n))) as (d' & H1 & H2).
  rewrite H1, H2. apply DecimalNat.Unsigned.of_to.
Qed.

Lemma parseTaskNumericId_build n :
  Helpers.parseTaskNumericId (Helpers.buildTaskId n) = n.
Proof. apply parseNumericId_build. Qed.

Lemma fold_max_le (l : list TaskRecord.t) (a : nat) :
  (a <= fold_left (fun maxValue task =>
         Nat.max maxValue (Helpers.parseTaskNumericId (TaskRecord.id task))) l a)%nat.
Proof.
  revert a. induction l as [|x l IH]; intros a; simpl; [lia|].
  etransitivity; [|apply IH]. lia.
Qed.

Lemma nextTaskNumber_above (l : list TaskRecord.t) t :
  t ∈ l -> (Helpers.parseTaskNumericId (TaskRecord.id t) < nextTaskNumber l)%nat.
Proof.
  unfold nextTaskNumber.
  enough (H : forall a, t ∈ l ->
            (Helpers.parseTaskNumericId (TaskRecord.id t) <
             fold_left (fun maxValue task =>
               Nat.max maxValue (Helpers.parseTaskNumericId (TaskRecord.id task)))
               l a + 1)%nat) by apply H.
  induction l as [|x l IH]; intros a Hin; [inversion Hin|].
  simpl. apply elem_of_cons in Hin as [->|Hin].
  - pose proof (fold_max_le l (Nat.max a (Helpers.parseTaskNumericId (TaskRecord.id x)))).
    lia.
  - apply IH. exact Hin.
Qed.

(** The identifier minted for a new task names no existing task file. *)
Lemma minted_id_fresh (m : gmap string TaskRecord.t) :
  wfTasks m ->
  m !! Helpers.buildTaskId (nextTaskNumber (map_to_list m).*2) = None.
Proof.
  intros Hwf. destruct (m !! _) as [t|] eqn:E; [|reflexivity]. exfalso.
  pose proof (Hwf _ _ E) as Hid.
  assert (Hin : t ∈ (map_to_list m).*2) by (apply elem_of_listed; eauto).
  apply nextTaskNumber_above in Hin. rewrite Hid, parseTaskNumericId_build in Hin. lia.
Qed.

(** *** [createTask] *)

Definition recordKey (idempotencyKey : option string) (taskId : string)
    (createdAt : Z) (entries : gmap string IdempotencyEntry.t)
    : gmap string IdempotencyEntry.t :=
  match idempotencyKey with
  | Some key =>
      if Str.nonEmpty key
      then JsObject.setProperty key (IdempotencyEntry.mk taskId createdAt) entries
      else entries
  | None => entries
  end.

Lemma createFreshTask_run now title input deps resources key d :
  let t := newTask now title input deps resources (map_to_list (taskFiles d)).*2 in
  let r := createFreshTask now title input deps resources key d in
  taskFiles (fst r) = <[TaskRecord.id t := t]> (taskFiles d) /\
  idempotencyEntries (fst r)
    = recordKey key (TaskRecord.id t) now (idempotencyEntries d) /\
  snd r = Ok (t, true).
Proof.
  intros t r. subst r. unfold createFreshTask, listTasksUnsafe, writeTask. mrun.
  fold t. unfold recordKey, appendAuditEvent.
  destruct key as [key|]; [destruct (Str.nonEmpty key)|]; mrun; simpl; auto.
Qed.

Lemma createTask_wrong_team now tid input key d :
  tid <> teamId cfg ->
  createTask cfg now tid input key d = (d, Err (TeamdStoreError 404 TEAM_NOT_FOUND)).
Proof. intros H. unfold createTask. rewrite (assertTeamId_bad _ H). reflexivity. Qed.

Lemma createTask_invalid_title now input key d :
  Str.nonEmpty (Str.trim (CreateTaskInput.title input)) = false ->
  createTask cfg now (teamId cfg) input key d
  = (d, Err (TeamdStoreError 400 INVALID_TASK)).
Proof.
  intros H. unfold createTask. rewrite assertTeamId_ok. mrun. rewrite H. reflexivity.
Qed.

Lemma createTask_existing now input key d e t :
  Str.nonEmpty (Str.trim (CreateTaskInput.title input)) = true ->
  recordedEntry key (idempotencyEntries d) = Some e ->
  taskFiles d !! existingTaskIdOf e = Some t ->
  createTask cfg now (teamId cfg) input key d = (d, Ok (t, false)).
Proof.
  intros Ht He Hk. unfold createTask. rewrite assertTeamId_ok. mrun. rewrite Ht.
  cbn [negb]. mrun. rewrite He. unfold readTask. mrun. rewrite Hk. reflexivity.
Qed.

Lemma createTask_fresh now input key d :
  Str.nonEmpty (Str.trim (CreateTaskInput.title input)) = true ->
  match recordedEntry key (idempotencyEntries d) with
  | Some e => taskFiles d !! existingTaskIdOf e = None
  | None => True
  end ->
  createTask cfg now (teamId cfg) input key d
  = createFreshTask now (Str.trim (CreateTaskInput.title input)) input
      (cleanDeps input) (cleanResources input) key d.
Proof.
  intros Ht He. unfold createTask. rewrite assertTeamId_ok. mrun. rewrite Ht.
  cbn [negb]. mrun.
  destruct (recordedEntry key (idempotencyEntries d)) as [e|]; [|reflexivity].
  unfold readTask. mrun. rewrite He. reflexivity.
Qed.

Lemma dedupeFrom_subset seen l x : x ∈ Str.dedupeFrom seen l -> x ∈ l.
Proof.
  revert seen. induction l as [|y l IH]; intros seen; simpl; [auto|].
  case_bool_decide.
  - intros H'. right. eapply IH; eauto.
  - intros H'. apply elem_of_cons in H' as [->|H']; [left | right; eapply IH; eauto].
Qed.

Lemma cleanResources_nonempty input :
  Forall (fun s => s <> "") (cleanResources input).
Proof.
  apply Forall_forall. intros x Hx. unfold cleanResources, Str.dedupe in Hx.
  apply dedupeFrom_subset in Hx. apply list_elem_of_filter in Hx as [Hx _].
  destruct x; [contradiction | discriminate].
Qed.

(** What [createTask] does to the disk, in every case. *)
Lemma createTask_effect now tid input key d :
  let r := createTask cfg now tid input key d in
  let t := newTask now (Str.trim (CreateTaskInput.title input)) input
             (cleanDeps input) (cleanResources input)
             (map_to_list (taskFiles d)).*2 in
  (fst r = d /\ (forall t, snd r <> Ok (t, true))) \/
  (taskFiles (fst r) = <[TaskRecord.id t := t]> (taskFiles d) /\
   idempotencyEntries (fst r)
     = recordKey key (TaskRecord.id t) now (idempotencyEntries d) /\
   (match recordedEntry key (idempotencyEntries d) with
    | Some e => taskFiles d !! existingTaskIdOf e = None
    | None => True
    end) /\
   snd r = Ok (t, true)).
Proof.
  intros r t. subst r.
  destruct (String.eqb_spec tid (teamId cfg)) as [->|Hne].
  2:{ left. rewrite createTask_wrong_team by exact Hne. split; [reflexivity|discriminate]. }
  destruct (Str.nonEmpty (Str.trim (CreateTaskInput.title input))) eqn:Ht.
  2:{ left. rewrite createTask_invalid_title by exact Ht. split; [reflexivity|discriminate]. }
  assert (Hfresh :
    match recordedEntry key (idempotencyEntries d) with
    | Some e => taskFiles d !! existingTaskIdOf e = None
    | None => True
    end ->
    let r := createTask cfg now (teamId cfg) input key d in
    taskFiles (fst r) = <[TaskRecord.id t := t]> (taskFiles d) /\
    idempotencyEntries (fst r)
      = recordKey key (TaskRecord.id t) now (idempotencyEntries d) /\
    (match recordedEntry key (idempotencyEntries d) with
     | Some e => taskFiles d !! existingTaskIdOf e = None
     | None => True
     end) /\
    snd r = Ok (t, true)).
  { intros He. rewrite createTask_fresh by assumption.
    destruct (createFreshTask_run now (Str.trim (CreateTaskInput.title input)) input
                (cleanDeps input) (cleanResources input) key d) as (H1 & H2 & H3).
    cbv zeta. auto. }
  destruct (recordedEntry key (idempotencyEntries d)) as [e|] eqn:He.
  - destruct (taskFiles d !! existingTaskIdOf e) as [t0|] eqn:Hk.
    + left. rewrite (createTask_existing _ _ _ _ _ _ Ht He Hk).
      split; [reflexivity|]. intros t' H'. inversion H'.
    + right. apply Hfresh. reflexivity.
  - right. apply Hfresh. exact I.
Qed.

End TaskOps.

(* ===================================================================== *)
(** ** Invariants of the task files *)
(* ===================================================================== *)

(** The lease invariant of a task record: a lease exactly when the task is
    in progress, and the lease names the owner and the epoch. *)
Definition leaseInvariant (t : TaskRecord.t) : Prop :=
  (TaskRecord.lease t <> None <-> TaskRecord.status t = in_progress) /\
  (forall l, TaskRecord.lease t = Some l ->
     TaskRecord.owner t = Some (TaskLease.holder l) /\
     TaskRecord.epoch t = TaskLease.epoch l).

(** What holds of the disk of a running daemon. *)
Record goodDisk (d : Disk) : Prop := {
  good_wf : wfTasks (taskFiles d);
  good_lease : forall k t, taskFiles d !! k = Some t -> leaseInvariant t;
  good_resources : forall k t, taskFiles d !! k = Some t -> "" ∉ TaskRecord.resources t;
  good_keys : forall key e,
    idempotencyEntries d !! key = Some e ->
    key <> "" /\ is_Some (taskFiles d !! IdempotencyEntry.taskId e);
  good_names : taskFiles d !! "undefined" = None
}.

(** How a task record may change from one state of the disk to a later
    one. *)
Definition taskEvolves (t t' : TaskRecord.t) : Prop :=
  TaskRecord.id t' = TaskRecord.id t /\
  TaskRecord.epoch t <= TaskRecord.epoch t' /\
  TaskRecord.resources t' = TaskRecord.resources t /\
  TaskRecord.deps t' = TaskRecord.deps t.

Definition diskEvolves (d d' : Disk) : Prop :=
  (forall k t, taskFiles d !! k = Some t ->
     exists t', taskFiles d' !! k = Some t' /\ taskEvolves t t') /\
  (forall key e, idempotencyEntries d !! key = Some e ->
     idempotencyEntries d' !! key = Some e).

Lemma taskEvolves_refl t : taskEvolves t t.
Proof. repeat split; lia. Qed.

Lemma taskEvolves_trans t1 t2 t3 :
  taskEvolves t1 t2 -> taskEvolves t2 t3 -> taskEvolves t1 t3.
Proof. intros (?&?&?&?) (?&?&?&?). repeat split; try congruence; lia. Qed.

Lemma diskEvolves_refl d : diskEvolves d d.
Proof. split; eauto using taskEvolves_refl. Qed.

Lemma diskEvolves_trans d1 d2 d3 :
  diskEvolves d1 d2 -> diskEvolves d2 d3 -> diskEvolves d1 d3.
Proof.
  intros [H1 K1] [H2 K2]. split; [|eauto].
  intros k t Hk. destruct (H1 _ _ Hk) as (t' & Hk' & E1).
  destruct (H2 _ _ Hk') as (t'' & Hk'' & E2). eauto using taskEvolves_trans.
Qed.

Lemma freshDisk_good d : freshDisk d -> goodDisk d.
Proof.
  intros [Ht Hi]. split; try unfold wfTasks; try intros ? ?;
    rewrite ?Ht, ?Hi, lookup_empty; try discriminate; reflexivity.
Qed.

Lemma unchanged_good d d' :
  taskFiles d' = taskFiles d -> idempotencyEntries d' = idempotencyEntries d ->
  goodDisk d -> goodDisk d' /\ diskEvolves d d'.
Proof.
  intros Ht Hi [G1 G2 G3 G4 G5]. split.
  - split; intros *; rewrite ?Ht, ?Hi; eauto.
  - split; intros *; rewrite ?Ht, ?Hi; eauto using taskEvolves_refl.
Qed.

(** Rewriting one task file in place. *)
Lemma update_good d d' k t t' :
  goodDisk d ->
  taskFiles d !! k = Some t ->
  taskFiles d' = <[TaskRecord.id t := t']> (taskFiles d) ->
  idempotencyEntries d' = idempotencyEntries d ->
  taskEvolves t t' -> leaseInvariant t' ->
  goodDisk d' /\ diskEvolves d d'.
Proof.
  intros [G1 G2 G3 G4 G5] Hk Ht Hi (E1 & E2 & E3 & E4) Hl.
  pose proof (G1 _ _ Hk) as Hid. split.
  - split.
    + rewrite Ht. apply wfTasks_insert; assumption.
    + intros k0 t0. rewrite Ht, lookup_insert. case_decide; [intros [= <-]; exact Hl | apply G2].
    + intros k0 t0. rewrite Ht, lookup_insert.
      case_decide; [intros [= <-]; rewrite E3; eapply G3; eauto | apply G3].
    + intros key e He. rewrite Hi in He. destruct (G4 _ _ He) as [Hne Hs].
      split; [exact Hne|]. rewrite Ht, lookup_insert. case_decide; [eauto | exact Hs].
    + rewrite Ht, lookup_insert_ne; [exact G5|]. intros Heq. congruence.
  - split.
    + intros k0 t0 Hk0. rewrite Ht, lookup_insert. case_decide.
      * exists t'. split; [reflexivity|]. assert (t0 = t) by congruence. subst t0.
        repeat split; assumption.
      * exists t0. split; [assumption | apply taskEvolves_refl].
    + intros key e He. rewrite Hi. exact He.
Qed.

Lemma resetIfExpired_fields now t :
  TaskRecord.resources (resetIfExpired now t) = TaskRecord.resources t /\
  TaskRecord.deps (resetIfExpired now t) = TaskRecord.deps t /\
  TaskRecord.timestamps (resetIfExpired now t) = TaskRecord.timestamps t.
Proof.
  unfold resetIfExpired.
  destruct (TaskRecord.status t), (TaskRecord.lease t) as [l|]; auto.
  destruct (Helpers.isLeaseExpired now l); auto.
Qed.

Lemma leaseInvariant_claimed now l t : leaseInvariant (claimed now l t).
Proof.
  split; simpl.
  - split; [reflexivity | discriminate].
  - intros l' [= <-]. auto.
Qed.

Lemma taskEvolves_claimed now ttl a t :
  taskEvolves t (claimed now (claimLease now ttl a (resetIfExpired now t))
                         (resetIfExpired now t)).
Proof.
  destruct (resetIfExpired_fields now t) as (R1 & R2 & _).
  repeat split; simpl; rewrite ?resetIfExpired_id, ?resetIfExpired_epoch; auto; lia.
Qed.

Lemma leaseInvariant_finalized now f t : leaseInvariant (finalized now f t).
Proof.
  split.
  - destruct f; simpl; split; intros H; [contradiction | discriminate
                                        | contradiction | discriminate].
  - destruct f; simpl; discriminate.
Qed.

Lemma taskEvolves_finalized now f t : taskEvolves t (finalized now f t).
Proof. destruct f; repeat split; simpl; lia. Qed.

Lemma leaseInvariant_renewed e l t :
  leaseInvariant t -> TaskRecord.lease t = Some l ->
  leaseInvariant (TaskUpdate.setLease (Some (renewedLease e l)) t).
Proof.
  intros [H1 H2] Hl. destruct (H2 _ Hl) as [Ho He]. split; simpl.
  - split; [intros _; apply H1; congruence | discriminate].
  - intros l' [= <-]. simpl. auto.
Qed.

Lemma leaseInvariant_newTask now title input deps resources existing :
  leaseInvariant (newTask now title input deps resources existing).
Proof.
  split; simpl.
  - split; [contradiction|]. destruct (_ && _); discriminate.
  - discriminate.
Qed.

Lemma leaseInvariant_unblocked t :
  leaseInvariant t -> TaskRecord.status t = blocked ->
  leaseInvariant (TaskUpdate.setStatus pending t).
Proof.
  intros [H1 H2] Hs. split; simpl.
  - split; [|discriminate]. intros H. apply H1 in H. congruence.
  - exact H2.
Qed.

Section Effects.
Variable cfg : StoreConfig.

Lemma claimTask_effect now tid input d :
  let r := claimTask cfg now tid input d in
  idempotencyEntries (fst r) = idempotencyEntries d /\
  (taskFiles (fst r) = taskFiles d \/
   exists t ttl,
     taskFiles d !! ClaimTaskInput.taskId input = Some t /\
     taskFiles (fst r)
     = <[TaskRecord.id t :=
           claimed now (claimLease now ttl (ClaimTaskInput.agentId input)
                          (resetIfExpired now t)) (resetIfExpired now t)]>
         (taskFiles d)).
Proof.
  intros r. subst r.
  destruct (String.eqb_spec tid (teamId cfg)) as [->|Hne].
  2:{ rewrite claimTask_wrong_team by exact Hne. simpl. auto. }
  destruct (taskFiles d !! ClaimTaskInput.taskId input) as [t|] eqn:H.
  2:{ rewrite claimTask_not_found by exact H. simpl. auto. }
  destruct (decide (TaskRecord.status (resetIfExpired now t) = pending)) as [Hs|Hs].
  2:{ rewrite (claimTask_not_claimable _ _ _ _ _ H Hs). simpl. auto. }
  destruct (Helpers.validDate
              (now + default (defaultLeaseTtlMs cfg) (ClaimTaskInput.ttlMs input))) eqn:Hv.
  2:{ rewrite (claimTask_range_error _ _ _ _ _ H Hs Hv). simpl. auto. }
  destruct (claimTask_claims cfg now input d t H Hs Hv) as (H1 & H2 & _).
  split; [exact H2|]. right. eauto.
Qed.

Lemma finalizeTask_effect now input f d :
  let r := finalizeTask cfg now input f d in
  idempotencyEntries (fst r) = idempotencyEntries d /\
  (taskFiles (fst r) = taskFiles d \/
   exists t,
     taskFiles d !! FinalizeTaskInput.taskId input = Some t /\
     taskFiles (fst r) = <[TaskRecord.id t := finalized now f t]> (taskFiles d)).
Proof.
  intros r. subst r.
  destruct (taskFiles d !! FinalizeTaskInput.taskId input) as [t|] eqn:H.
  2:{ rewrite finalizeTask_not_found by exact H. simpl. auto. }
  destruct (checkLease now t (FinalizeTaskInput.agentId input)
              (FinalizeTaskInput.epoch input)) as [l|e] eqn:Hc.
  2:{ rewrite (finalizeTask_rejected _ _ _ _ _ _ _ H Hc). simpl. auto. }
  destruct (finalizeTask_finalizes cfg now input f d t l H Hc) as (H1 & H2 & _).
  split; [exact H2|]. right. eauto.
Qed.

Lemma completeTask_effect now tid input d :
  wfTasks (taskFiles d) ->
  let r := completeTask cfg now tid input d in
  idempotencyEntries (fst r) = idempotencyEntries d /\
  (taskFiles (fst r) = taskFiles d \/
   exists t,
     taskFiles d !! FinalizeTaskInput.taskId input = Some t /\
     let written := <[TaskRecord.id t := finalized now FinalCompleted t]> (taskFiles d) in
     (taskFiles (fst r) = written \/
      taskFiles (fst r) = unlockedFiles (TaskRecord.id t) written)).
Proof.
  intros Hwf r. subst r.
  destruct (String.eqb_spec tid (teamId cfg)) as [->|Hne].
  2:{ rewrite completeTask_wrong_team by exact Hne. simpl. auto. }
  destruct (taskFiles d !! FinalizeTaskInput.taskId input) as [t|] eqn:H.
  2:{ rewrite completeTask_not_found by exact H. simpl. auto. }
  destruct (checkLease now t (FinalizeTaskInput.agentId input)
              (FinalizeTaskInput.epoch input)) as [l|e] eqn:Hc.
  2:{ rewrite (completeTask_rejected _ _ _ _ _ _ H Hc). simpl. auto. }
  destruct (completeTask_completes cfg now input d t l Hwf H Hc) as (H2 & H3).
  split; [exact H2|]. right. exists t. split; [reflexivity|].
  cbv zeta. destruct H3 as [[_ H3]|[_ H3]]; auto.
Qed.

End Effects.

Lemma unlockable_blocked cid cset t :
  unlockable cid cset t = true -> TaskRecord.status t = blocked.
Proof.
  unfold unlockable. intros H. apply andb_prop in H as [H _].
  apply andb_prop in H as [H _]. by apply bool_decide_eq_true in H.
Qed.

Lemma unlocked_good d d' cid :
  goodDisk d ->
  taskFiles d' = unlockedFiles cid (taskFiles d) ->
  idempotencyEntries d' = idempotencyEntries d ->
  goodDisk d' /\ diskEvolves d d'.
Proof.
  intros [G1 G2 G3 G4 G5] Ht Hi.
  set (f := fun t => if unlockable cid (completedIds (taskFiles d)) t
                     then TaskUpdate.setStatus pending t else t).
  assert (Hlk : forall k, taskFiles d' !! k = f <$> taskFiles d !! k).
  { intros k. rewrite Ht. unfold unlockedFiles. apply lookup_fmap. }
  assert (Hf : forall t, leaseInvariant t -> leaseInvariant (f t) /\ taskEvolves t (f t)).
  { intros t Hl. unfold f. destruct (unlockable _ _ t) eqn:E.
    - split; [apply leaseInvariant_unblocked; eauto using unlockable_blocked|].
      repeat split; simpl; lia.
    - split; [exact Hl | apply taskEvolves_refl]. }
  split; [split|split].
  - intros k t'. rewrite Hlk. destruct (taskFiles d !! k) as [t|] eqn:Hk; [|discriminate].
    intros [= <-]. destruct (Hf t (G2 _ _ Hk)) as [_ (E1 & _)]. rewrite E1. eauto.
  - intros k t'. rewrite Hlk. destruct (taskFiles d !! k) as [t|] eqn:Hk; [|discriminate].
    intros [= <-]. apply Hf. eauto.
  - intros k t'. rewrite Hlk. destruct (taskFiles d !! k) as [t|] eqn:Hk; [|discriminate].
    intros [= <-]. destruct (Hf t (G2 _ _ Hk)) as [_ (_ & _ & E3 & _)]. rewrite E3. eauto.
  - intros key e He. rewrite Hi in He. destruct (G4 _ _ He) as [Hne [t Hs]].
    split; [exact Hne|]. rewrite Hlk, Hs. simpl. eauto.
  - rewrite Hlk, G5. reflexivity.
  - intros k t Hk. exists (f t). rewrite Hlk, Hk. split; [reflexivity|]. apply Hf. eauto.
  - intros key e He. rewrite Hi. exact He.
Qed.

Lemma setProperty_lookup {A} (key k : string) (a : A) (o : gmap string A) :
  JsObject.setProperty key a o !! k
  = if bool_decide (k = key /\ (is_Some (o !! key) \/ key <> "__proto__"))
    then Some a else o !! k.
Proof.
  unfold JsObject.setProperty. destruct (o !! key) as [b|] eqn:Hb.
  - rewrite lookup_insert. case_decide as Hd; case_bool_decide as Hc; try reflexivity.
    + exfalso. apply Hc. split; [congruence | left; eauto].
    + exfalso. destruct Hc as [Hc _]. congruence.
  - destruct (String.eqb_spec key "__proto__") as [->|Hne].
    + rewrite bool_decide_eq_false_2; [reflexivity|].
      intros [_ [[? H]|H]]; [discriminate | contradiction].
    + rewrite lookup_insert. case_decide as Hd; case_bool_decide as Hc; try reflexivity.
      * exfalso. apply Hc. split; [congruence | right; assumption].
      * exfalso. destruct Hc as [Hc _]. congruence.
Qed.

Lemma buildTaskId_defined n : Helpers.buildTaskId n <> "undefined".
Proof.
  intros H.
  apply (f_equal (fun s => match s with String a _ => a | EmptyString => "000"%char end)) in H.
  lazy in H. discriminate.
Qed.

Lemma created_good d d' key t now :
  goodDisk d ->
  taskFiles d !! TaskRecord.id t = None ->
  TaskRecord.id t <> "undefined" ->
  leaseInvariant t -> "" ∉ TaskRecord.resources t ->
  taskFiles d' = <[TaskRecord.id t := t]> (taskFiles d) ->
  idempotencyEntries d' = recordKey key (TaskRecord.id t) now (idempotencyEntries d) ->
  match recordedEntry key (idempotencyEntries d) with
  | Some e => taskFiles d !! existingTaskIdOf e = None
  | None => True
  end ->
  goodDisk d' /\ diskEvolves d d'.
Proof.
  intros [G1 G2 G3 G4 G5] Hfresh Hdef Hl Hr Ht Hi Hrec.
  assert (Hnone : forall k, key = Some k -> Str.nonEmpty k = true ->
                    idempotencyEntries d !! k = None).
  { intros k -> Hk. simpl in Hrec. rewrite Hk in Hrec. unfold JsObject.getProperty in Hrec.
    destruct (idempotencyEntries d !! k) as [e|] eqn:He; [|reflexivity].
    destruct (G4 _ _ He) as [_ [t0 Ht0]]. simpl in Hrec. congruence. }
  split; [split|split].
  - rewrite Ht. apply wfTasks_insert; [assumption | reflexivity].
  - intros k t0. rewrite Ht, lookup_insert. case_decide; [intros [= <-]; exact Hl | apply G2].
  - intros k t0. rewrite Ht, lookup_insert. case_decide; [intros [= <-]; exact Hr | apply G3].
  - intros k e. rewrite Hi, Ht. unfold recordKey.
    destruct key as [key|]; [destruct (Str.nonEmpty key) eqn:Hk|].
    + rewrite setProperty_lookup. case_bool_decide as Hc.
      * destruct Hc as [-> _]. intros [= <-]. simpl.
        split; [intros ->; discriminate|]. rewrite lookup_insert_eq. eauto.
      * intros He. destruct (G4 _ _ He) as [Hne [t0 Ht0]]. split; [exact Hne|].
        rewrite lookup_insert. case_decide; eauto.
    + intros He. destruct (G4 _ _ He) as [Hne [t0 Ht0]]. split; [exact Hne|].
      rewrite lookup_insert. case_decide; eauto.
    + intros He. destruct (G4 _ _ He) as [Hne [t0 Ht0]]. split; [exact Hne|].
      rewrite lookup_insert. case_decide; eauto.
  - rewrite Ht, lookup_insert_ne; [exact G5 | exact Hdef].
  - intros k t0 Hk. exists t0. split; [|apply taskEvolves_refl].
    rewrite Ht, lookup_insert_ne; [exact Hk | congruence].
  - intros k e He. rewrite Hi. unfold recordKey.
    destruct key as [key|]; [destruct (Str.nonEmpty key) eqn:Hk|]; try exact He.
    rewrite setProperty_lookup. case_bool_decide as Hc; [|exact He].
    destruct Hc as [-> _]. rewrite (Hnone key eq_refl Hk) in He. discriminate.
Qed.

Section Steps.
Variable JSON_stringify : Json -> string.
Variable cfg : StoreConfig.

(** Every call keeps the disk good and lets the tasks evolve. *)
Lemma runOp_good op d :
  goodDisk d ->
  goodDisk (runOp JSON_stringify cfg op d) /\
  diskEvolves d (runOp JSON_stringify cfg op d).
Proof.
  intros G. destruct op; simpl.
  - apply unchanged_good; [apply keepsTasks_createTeam.. | exact G].
  - destruct (createTask_effect cfg now teamIdArg input idempotencyKey d)
      as [[-> _] | (H1 & H2 & H3 & _)].
    + split; [exact G | apply diskEvolves_refl].
    + eapply created_good; eauto.
      * apply minted_id_fresh, G.
      * apply buildTaskId_defined.
      * apply leaseInvariant_newTask.
      * pose proof (cleanResources_nonempty input) as Hr.
        rewrite Forall_forall in Hr. intros Hin. apply (Hr _ Hin). reflexivity.
  - destruct (claimTask_effect cfg now teamIdArg input d)
      as [H2 [H1 | (t & ttl & Hk & H1)]].
    + apply unchanged_good; assumption.
    + eapply update_good; eauto using leaseInvariant_claimed, taskEvolves_claimed.
  - destruct (renewTask_effect cfg now teamIdArg input d)
      as [H2 [H1 | (t & l & e & Hk & Hs & Hl & H1)]].
    + apply unchanged_good; assumption.
    + eapply update_good; eauto.
      * repeat split; simpl; lia.
      * apply leaseInvariant_renewed; [eapply good_lease; eauto | exact Hl].
  - destruct (completeTask_effect cfg now teamIdArg input d (good_wf _ G))
      as [H2 [H1 | (t & Hk & [H1 | H1])]].
    + apply unchanged_good; assumption.
    + eapply update_good; eauto using leaseInvariant_finalized, taskEvolves_finalized.
    + set (d1 := setTaskFiles
                   (<[TaskRecord.id t := finalized now FinalCompleted t]> (taskFiles d)) d).
      assert (G1 : goodDisk d1 /\ diskEvolves d d1).
      { eapply update_good; eauto using leaseInvariant_finalized, taskEvolves_finalized. }
      destruct G1 as [G1 E1].
      assert (G2 : goodDisk (fst (completeTask cfg now teamIdArg input d)) /\
                   diskEvolves d1 (fst (completeTask cfg now teamIdArg input d))).
      { eapply unlocked_good; eauto. }
      destruct G2 as [G2 E2]. split; [exact G2 | eapply diskEvolves_trans; eauto].
  - unfold failTask.
    destruct (String.eqb_spec teamIdArg (teamId cfg)) as [->|Hne].
    2:{ rewrite (assertTeamId_bad _ _ Hne). simpl.
        split; [exact G | apply diskEvolves_refl]. }
    rewrite assertTeamId_ok. rewrite bind_ret.
    destruct (finalizeTask_effect cfg now input FinalFailed d)
      as [H2 [H1 | (t & Hk & H1)]].
    + apply unchanged_good; assumption.
    + eapply update_good; eauto using leaseInvariant_finalized, taskEvolves_finalized.
  - apply unchanged_good; [apply keepsTasks_startThread.. | exact G].
  - apply unchanged_good; [apply keepsTasks_postThreadMessage.. | exact G].
  - apply unchanged_good; [apply keepsTasks_linkThreadToTask.. | exact G].
  - apply unchanged_good; [apply keepsTasks_fetchInbox.. | exact G].
Qed.

Lemma reachable_good d : reachable JSON_stringify cfg d -> goodDisk d.
Proof.
  induction 1 as [d Hf | d op _ IH]; [apply freshDisk_good, Hf | apply runOp_good, IH].
Qed.

Lemma runOps_good ops d :
  goodDisk d ->
  goodDisk (runOps JSON_stringify cfg ops d) /\
  diskEvolves d (runOps JSON_stringify cfg ops d).
Proof.
  revert d. induction ops as [|op ops IH]; intros d G; simpl.
  - split; [exact G | apply diskEvolves_refl].
  - destruct (runOp_good op d G) as [G1 E1]. destruct (IH _ G1) as [G2 E2].
    split; [exact G2 | eapply diskEvolves_trans; eauto].
Qed.

Lemma runOps_reachable ops d :
  reachable JSON_stringify cfg d -> reachable JSON_stringify cfg (runOps JSON_stringify cfg ops d).
Proof.
  revert d. induction ops as [|op ops IH]; intros d R; simpl; [exact R|].
  apply IH. apply reachable_step. exact R.
Qed.

End Steps.

(* ===================================================================== *)
(** ** A worked history *)
(* ===================================================================== *)

(** [JSON.stringify] for the examples: thread lines are not inspected. *)
Definition exampleStringify (v : Json) : string := "{}".

Definition exampleInput : CreateTaskInput.t :=
  CreateTaskInput.mk "lease-expiry-task" None None (Some ["src/"]).

Definition exampleClaim : ClaimTaskInput.t :=
  ClaimTaskInput.mk "task-0001" "agent-a" (Some 25).

(** The task is created at time 1000 under the key [create-task-1]. *)
Definition diskCreated : Disk :=
  runOp exampleStringify exampleCfg
    (OpCreateTask 1000 "test-team" exampleInput (Some "create-task-1")) emptyDisk.

(** [agent-a] claims it at time 2000 for 25 ms. *)
Definition diskClaimed : Disk :=
  runOp exampleStringify exampleCfg (OpClaimTask 2000 "test-team" exampleClaim) diskCreated.

Definition taskCreated : TaskRecord.t :=
  TaskRecord.mk "task-0001" "lease-expiry-task" "" pending None [] ["src"] None 0
    (Timestamps.mk 1000 None None None).

Definition taskClaimed : TaskRecord.t :=
  TaskRecord.mk "task-0001" "lease-expiry-task" "" in_progress (Some "agent-a") []
    ["src"] (Some (TaskLease.mk "agent-a" 1 2025)) 1
    (Timestamps.mk 1000 (Some 2000) None None).

Lemma diskCreated_reachable : reachable exampleStringify exampleCfg diskCreated.
Proof. apply reachable_step, reachable_fresh. split; reflexivity. Defined.

Lemma diskClaimed_reachable : reachable exampleStringify exampleCfg diskClaimed.
Proof. apply reachable_step, diskCreated_reachable. Defined.

Example diskCreated_task : taskFiles diskCreated !! "task-0001" = Some taskCreated.
Proof. vm_compute. reflexivity. Qed.

Example diskClaimed_task : taskFiles diskClaimed !! "task-0001" = Some taskClaimed.
Proof. vm_compute. reflexivity. Qed.

(* ===================================================================== *)
(** ** The lease invariant *)
(* ===================================================================== *)

(** C1. In every state the store reaches from a fresh team directory by
    any sequence of its operations, every task file holds a record whose
    lease is non-null exactly when its status is [in_progress], and whose
    owner and epoch are the holder and the epoch of that lease when there
    is one. *)
Theorem lease_iff_in_progress stringify cfg d k t :
  reachable stringify cfg d ->
  taskFiles d !! k = Some t ->
  (TaskRecord.lease t <> None <-> TaskRecord.status t = in_progress) /\
  (forall l, TaskRecord.lease t = Some l ->
     TaskRecord.owner t = Some (TaskLease.holder l) /\
     TaskRecord.epoch t = TaskLease.epoch l).
Proof.
  intros R Hk. exact (good_lease _ (reachable_good _ _ _ R) _ _ Hk).
Qed.

Lemma lease_iff_in_progress_witness :
  reachable exampleStringify exampleCfg diskClaimed /\
  taskFiles diskClaimed !! "task-0001" = Some taskClaimed /\
  (TaskRecord.lease taskClaimed <> None <-> TaskRecord.status taskClaimed = in_progress) /\
  (forall l, TaskRecord.lease taskClaimed = Some l ->
     TaskRecord.owner taskClaimed = Some (TaskLease.holder l) /\
     TaskRecord.epoch taskClaimed = TaskLease.epoch l).
Proof.
  split; [exact diskClaimed_reachable|].
  split; [vm_compute; reflexivity|].
  apply (lease_iff_in_progress exampleStringify exampleCfg diskClaimed "task-0001").
  - exact diskClaimed_reachable.
  - vm_compute. reflexivity.
Defined.

(* ===================================================================== *)
(** ** Claims and epochs *)
(* ===================================================================== *)






(* ===================================================================== *)
(** ** Completing and failing a task *)
(* ===================================================================== *)

(** [completeTask] or [failTask], by the final status. *)
Definition finish (cfg : StoreConfig) (now : Z) (f : FinalStatus)
    (input : FinalizeTaskInput.t) : M TaskRecord.t :=
  match f with
  | FinalCompleted => completeTask cfg now (teamId cfg) input
  | FinalFailed => failTask cfg now (teamId cfg) input
  end.

Lemma finish_rejected cfg now f input d t e :
  taskFiles d !! FinalizeTaskInput.taskId input = Some t ->
  checkLease now t (FinalizeTaskInput.agentId input) (FinalizeTaskInput.epoch input)
    = Err e ->
  finish cfg now f input d = (d, Err e).
Proof.
  intros Hk Hc. destruct f; simpl.
  - apply (completeTask_rejected _ _ _ _ _ _ Hk Hc).
  - rewrite failTask_ok_team. apply (finalizeTask_rejected _ _ _ _ _ _ _ Hk Hc).
Qed.

Lemma unlockedFiles_lookup_other cid m k t :
  m !! k = Some t -> TaskRecord.status t <> blocked ->
  unlockedFiles cid m !! k = Some t.
Proof.
  intros Hk Hs. unfold unlockedFiles. rewrite lookup_fmap, Hk. simpl.
  destruct (unlockable _ _ t) eqn:E; [|reflexivity].
  apply unlockable_blocked in E. contradiction.
Qed.

(** A finalize that passes the checks writes the finalized task; it
    returns it unless the inbox fan-out throws. *)
Lemma finish_finalizes cfg now f input d t l :
  wfTasks (taskFiles d) ->
  taskFiles d !! FinalizeTaskInput.taskId input = Some t ->
  checkLease now t (FinalizeTaskInput.agentId input) (FinalizeTaskInput.epoch input)
    = Ok l ->
  let r := finish cfg now f input d in
  taskFiles (fst r) !! FinalizeTaskInput.taskId input = Some (finalized now f t) /\
  (snd r = Ok (finalized now f t) \/
   snd r = Err (TeamdStoreError 400 INVALID_AGENT_ID)).
Proof.
  intros Hwf Hk Hc r. subst r. pose proof (Hwf _ _ Hk) as Hid. destruct f; simpl.
  - destruct (completeTask_completes cfg now input d t l Hwf Hk Hc) as (_ & H).
    destruct H as [[H1 H2] | [H1 H2]]; rewrite H1, H2; split; auto.
    + apply unlockedFiles_lookup_other; [|simpl; discriminate].
      rewrite Hid. apply lookup_insert_eq.
    + rewrite Hid. apply lookup_insert_eq.
  - rewrite failTask_ok_team.
    destruct (finalizeTask_finalizes cfg now input FinalFailed d t l Hk Hc) as (H1 & _ & H3).
    split; [|exact H3]. rewrite H1, Hid. apply lookup_insert_eq.
Qed.

(** C3. [completeTask] and [failTask] on an existing task: the four
    rejections in the order of the checks, each leaving the disk as it
    was; otherwise the task is written with its lease cleared, its final
    status and its terminal time stamp; and a call returns a task only when
    the task was [in_progress] with a lease that had not expired, held by
    the caller, at the epoch the caller gave. *)
Theorem finalize_requires_live_lease stringify cfg now f input d t :
  reachable stringify cfg d ->
  taskFiles d !! FinalizeTaskInput.taskId input = Some t ->
  let agentId := FinalizeTaskInput.agentId input in
  let r := finish cfg now f input d in
  (TaskRecord.status t <> in_progress \/ TaskRecord.lease t = None ->
     r = (d, Err (TeamdStoreError 409 TASK_NOT_IN_PROGRESS))) /\
  (forall l, TaskRecord.status t = in_progress -> TaskRecord.lease t = Some l ->
     (TaskLease.expiresAt l <= now ->
        r = (d, Err (TeamdStoreError 403 LEASE_EXPIRED))) /\
     (now < TaskLease.expiresAt l -> TaskLease.holder l <> agentId ->
        r = (d, Err (TeamdStoreError 403 LEASE_HOLDER_MISMATCH))) /\
     (now < TaskLease.expiresAt l -> TaskLease.holder l = agentId ->
      TaskLease.epoch l <> FinalizeTaskInput.epoch input ->
        r = (d, Err (TeamdStoreError 409 EPOCH_MISMATCH))) /\
     (now < TaskLease.expiresAt l -> TaskLease.holder l = agentId ->
      TaskLease.epoch l = FinalizeTaskInput.epoch input ->
        exists t',
          taskFiles (fst r) !! FinalizeTaskInput.taskId input = Some t' /\
          TaskRecord.lease t' = None /\
          TaskRecord.status t' = finalStatusOf f /\
          (snd r = Ok t' \/ snd r = Err (TeamdStoreError 400 INVALID_AGENT_ID)))) /\
  (forall d' t', r = (d', Ok t') ->
     TaskRecord.status t = in_progress /\
     (exists l, TaskRecord.lease t = Some l /\ now < TaskLease.expiresAt l /\
                TaskLease.holder l = agentId /\
                TaskLease.epoch l = FinalizeTaskInput.epoch input) /\
     TaskRecord.lease t' = None /\
     TaskRecord.status t' = finalStatusOf f /\
     match f with
     | FinalCompleted => Timestamps.completedAt (TaskRecord.timestamps t') = Some now
     | FinalFailed => Timestamps.failedAt (TaskRecord.timestamps t') = Some now
     end /\
     taskFiles d' !! FinalizeTaskInput.taskId input = Some t').
Proof.
  intros R Hk agentId r.
  pose proof (good_wf _ (reachable_good _ _ _ R)) as Hwf.
  assert (Hrej : forall e,
            checkLease now t agentId (FinalizeTaskInput.epoch input) = Err e ->
            r = (d, Err e)).
  { intros e Hc. apply (finish_rejected _ _ _ _ _ _ _ Hk Hc). }
  split; [|split].
  - intros Hn. apply Hrej. unfold checkLease.
    destruct Hn as [Hs | Hl].
    + destruct (TaskRecord.status t); try reflexivity; [contradiction|..];
        destruct (TaskRecord.lease t); reflexivity.
    + rewrite Hl. destruct (TaskRecord.status t); reflexivity.
  - intros l Hs Hl. unfold checkLease in Hrej. rewrite Hs, Hl in Hrej.
    unfold Helpers.isLeaseExpired in Hrej.
    split; [|split; [|split]].
    + intros He. apply Hrej.
      destruct (Z.leb_spec (TaskLease.expiresAt l) now); [reflexivity | lia].
    + intros He Hh. apply Hrej.
      destruct (Z.leb_spec (TaskLease.expiresAt l) now); [lia|].
      destruct (String.eqb_spec (TaskLease.holder l) agentId); [contradiction|reflexivity].
    + intros He Hh Hep. apply Hrej.
      destruct (Z.leb_spec (TaskLease.expiresAt l) now); [lia|].
      destruct (String.eqb_spec (TaskLease.holder l) agentId); [|contradiction].
      destruct (Z.eqb_spec (TaskLease.epoch l) (FinalizeTaskInput.epoch input));
        [contradiction|reflexivity].
    + intros He Hh Hep.
      assert (Hc : checkLease now t agentId (FinalizeTaskInput.epoch input) = Ok l)
        by (apply checkLease_Ok; auto).
      destruct (finish_finalizes cfg now f input d t l Hwf Hk Hc) as [H1 H2].
      exists (finalized now f t). split; [exact H1|].
      split; [destruct f; reflexivity|]. split; [destruct f; reflexivity | exact H2].
  - intros d' t' Hrun.
    destruct (checkLease now t agentId (FinalizeTaskInput.epoch input)) as [l|e] eqn:Hc.
    2:{ rewrite (Hrej e eq_refl) in Hrun. discriminate. }
    destruct (finish_finalizes cfg now f input d t l Hwf Hk Hc) as [H1 H2].
    fold r in H1, H2. rewrite Hrun in H1, H2. simpl in H1, H2.
    destruct H2 as [H2|H2]; [|discriminate]. inversion H2; subst t'.
    apply checkLease_Ok in Hc as (Hs & Hl & He & Hh & Hep).
    split; [exact Hs|]. split; [eauto 6|].
    split; [destruct f; reflexivity|]. split; [destruct f; reflexivity|].
    split; [destruct f; reflexivity | exact H1].
Qed.

Lemma finalize_requires_live_lease_witness :
  reachable exampleStringify exampleCfg diskClaimed /\
  taskFiles diskClaimed !! "task-0001" = Some taskClaimed /\
  completeTask exampleCfg 2010 "test-team"
    (FinalizeTaskInput.mk "task-0001" "agent-a" 0) diskClaimed
  = (diskClaimed, Err (TeamdStoreError 409 EPOCH_MISMATCH)) /\
  completeTask exampleCfg 2050 "test-team"
    (FinalizeTaskInput.mk "task-0001" "agent-a" 1) diskClaimed
  = (diskClaimed, Err (TeamdStoreError 403 LEASE_EXPIRED)).
Proof.
  assert (Hk : taskFiles diskClaimed !! "task-0001" = Some taskClaimed)
    by (vm_compute; reflexivity).
  split; [exact diskClaimed_reachable|]. split; [exact Hk|]. split.
  - destruct (finalize_requires_live_lease exampleStringify exampleCfg 2010 FinalCompleted
                (FinalizeTaskInput.mk "task-0001" "agent-a" 0) diskClaimed taskClaimed
                diskClaimed_reachable Hk) as (_ & H & _).
    destruct (H (TaskLease.mk "agent-a" 1 2025) eq_refl eq_refl) as (_ & _ & H3 & _).
    apply H3; [reflexivity | reflexivity | discriminate].
  - destruct (finalize_requires_live_lease exampleStringify exampleCfg 2050 FinalCompleted
                (FinalizeTaskInput.mk "task-0001" "agent-a" 1) diskClaimed taskClaimed
                diskClaimed_reachable Hk) as (_ & H & _).
    destruct (H (TaskLease.mk "agent-a" 1 2025) eq_refl eq_refl) as (H1 & _).
    apply H1. discriminate.
Defined.

(* ===================================================================== *)
(** ** Dependencies *)
(* ===================================================================== *)

(** Every listed dependency is a task whose status is [completed]. *)
Definition depsSatisfied (m : gmap string TaskRecord.t) (deps : list string) : Prop :=
  Forall (fun dep => exists t', m !! dep = Some t' /\ TaskRecord.status t' = completed) deps.

Lemma areDepsComplete_spec (m : gmap string TaskRecord.t) deps :
  wfTasks m ->
  areDepsComplete (map_to_list m).*2 deps = true <-> depsSatisfied m deps.
Proof.
  intros Hwf. unfold areDepsComplete, depsSatisfied.
  rewrite forallb_forall, Forall_forall. split; intros H dep Hin.
  - specialize (H dep (proj1 (list_elem_of_In _ _) Hin)).
    rewrite find_listed in H by exact Hwf.
    destruct (m !! dep) as [t'|]; [|discriminate].
    apply bool_decide_eq_true in H. eauto.
  - apply list_elem_of_In in Hin. destruct (H dep Hin) as (t' & Hk & Hs).
    rewrite find_listed by exact Hwf. rewrite Hk. by apply bool_decide_eq_true.
Qed.

Lemma completedIds_spec (m : gmap string TaskRecord.t) dep :
  wfTasks m ->
  dep ∈ completedIds m <-> exists t', m !! dep = Some t' /\ TaskRecord.status t' = completed.
Proof.
  intros Hwf. unfold completedIds. rewrite list_elem_of_fmap. split.
  - intros (t' & -> & Hin). apply list_elem_of_filter in Hin as [Hs Hin].
    apply elem_of_listed in Hin as [k Hk]. pose proof (Hwf _ _ Hk). subst k. eauto.
  - intros (t' & Hk & Hs). exists t'. split; [symmetry; eauto|].
    apply list_elem_of_filter. split; [exact Hs|]. apply elem_of_listed. eauto.
Qed.

Lemma unlockedFiles_completed cid m dep :
  (exists t', unlockedFiles cid m !! dep = Some t' /\ TaskRecord.status t' = completed) <->
  (exists t', m !! dep = Some t' /\ TaskRecord.status t' = completed).
Proof.
  unfold unlockedFiles. rewrite lookup_fmap. split.
  - intros (t' & Hk & Hs). destruct (m !! dep) as [x|]; [|discriminate].
    simpl in Hk. inversion Hk; subst t'; clear Hk.
    destruct (unlockable _ _ x); [discriminate | eauto].
  - intros (t' & Hk & Hs). rewrite Hk. simpl. exists t'. split; [|exact Hs].
    destruct (unlockable _ _ t') eqn:E; [|reflexivity].
    apply unlockable_blocked in E. congruence.
Qed.

Lemma unlockable_spec cid m t :
  wfTasks m ->
  unlockable cid (completedIds m) t = true <->
  TaskRecord.status t = blocked /\ cid ∈ TaskRecord.deps t /\
  depsSatisfied m (TaskRecord.deps t).
Proof.
  intros Hwf. unfold unlockable, depsSatisfied.
  rewrite !andb_true_iff, !bool_decide_eq_true, forallb_forall, Forall_forall.
  split.
  - intros ((Hs & Hc) & Hd). split; [exact Hs|]. split; [exact Hc|].
    intros dep Hin. apply completedIds_spec; [exact Hwf|].
    apply (bool_decide_eq_true_1 _). apply Hd. apply list_elem_of_In. exact Hin.
  - intros (Hs & Hc & Hd). split; [split; assumption|].
    intros dep Hin. apply bool_decide_eq_true_2.
    apply completedIds_spec; [exact Hwf|]. apply Hd. apply list_elem_of_In. exact Hin.
Qed.


(** A creation that reports [created = true] has built [newTask]. *)
Lemma createTask_created_inv cfg now tid input key d d' t :
  createTask cfg now tid input key d = (d', Ok (t, true)) ->
  t = newTask now (Str.trim (CreateTaskInput.title input)) input
        (cleanDeps input) (cleanResources input) (map_to_list (taskFiles d)).*2 /\
  taskFiles d' = <[TaskRecord.id t := t]> (taskFiles d) /\
  idempotencyEntries d' = recordKey key (TaskRecord.id t) now (idempotencyEntries d).
Proof.
  intros Hrun.
  destruct (createTask_effect cfg now tid input key d) as [[_ H] | (H1 & H2 & _ & H3)].
  - rewrite Hrun in H. exfalso. apply (H t). reflexivity.
  - rewrite Hrun in H1, H2, H3. simpl in H1, H2, H3. inversion H3; subst. auto.
Qed.


(** The dependency scenario: [task-0002] depends on [task-0001], which
    [agent-a] has claimed until time 7000. *)
Definition diskDependent : Disk :=
  runOps exampleStringify exampleCfg
    [OpCreateTask 1000 "test-team" (CreateTaskInput.mk "dep-source" None None (Some ["src/"])) None;
     OpCreateTask 1100 "test-team"
       (CreateTaskInput.mk "dep-target" None (Some ["task-0001"]) (Some ["src/"])) None;
     OpClaimTask 2000 "test-team" (ClaimTaskInput.mk "task-0001" "agent-a" (Some 5000))]
    emptyDisk.

Definition taskDependent : TaskRecord.t :=
  TaskRecord.mk "task-0002" "dep-target" "" blocked None ["task-0001"] ["src"] None 0
    (Timestamps.mk 1100 None None None).

Lemma diskDependent_reachable : reachable exampleStringify exampleCfg diskDependent.
Proof.
  unfold diskDependent, runOps. cbn [fold_left].
  apply reachable_step, reachable_step, reachable_step, reachable_fresh.
  split; reflexivity.
Defined.


(* ===================================================================== *)
(** ** Idempotent creation *)
(* ===================================================================== *)

(** A creation that reports [created = false] has found the recorded
    task and written nothing. *)
Lemma createTask_repeat_inv cfg now tid input key d d' t :
  createTask cfg now tid input key d = (d', Ok (t, false)) ->
  d' = d /\
  exists e, recordedEntry key (idempotencyEntries d) = Some e /\
            taskFiles d !! existingTaskIdOf e = Some t.
Proof.
  intros Hrun.
  destruct (String.eqb_spec tid (teamId cfg)) as [->|Hne].
  2:{ rewrite createTask_wrong_team in Hrun by exact Hne. discriminate. }
  destruct (Str.nonEmpty (Str.trim (CreateTaskInput.title input))) eqn:Ht.
  2:{ rewrite createTask_invalid_title in Hrun by exact Ht. discriminate. }
  destruct (recordedEntry key (idempotencyEntries d)) as [e|] eqn:He.
  - destruct (taskFiles d !! existingTaskIdOf e) as [t0|] eqn:Hk.
    + rewrite (createTask_existing _ _ _ _ _ _ _ Ht He Hk) in Hrun.
      inversion Hrun; subst. eauto.
    + rewrite createTask_fresh in Hrun by (rewrite ?He; auto).
      destruct (createFreshTask_run now (Str.trim (CreateTaskInput.title input)) input
                  (cleanDeps input) (cleanResources input) key d) as (_ & _ & H3).
      rewrite Hrun in H3. discriminate.
  - rewrite createTask_fresh in Hrun by (rewrite ?He; auto).
    destruct (createFreshTask_run now (Str.trim (CreateTaskInput.title input)) input
                (cleanDeps input) (cleanResources input) key d) as (_ & _ & H3).
    rewrite Hrun in H3. discriminate.
Qed.

(** After a creation under a key other than [__proto__] has returned, the
    key is recorded for the returned task, and that task is on disk. *)
Lemma createTask_records_key cfg now tid input key d d1 t1 c1 :
  goodDisk d -> Str.nonEmpty key = true -> key <> "__proto__" ->
  createTask cfg now tid input (Some key) d = (d1, Ok (t1, c1)) ->
  taskFiles d1 !! TaskRecord.id t1 = Some t1 /\
  exists e, idempotencyEntries d1 !! key = Some e /\
            IdempotencyEntry.taskId e = TaskRecord.id t1.
Proof.
  intros G Hkey Hproto Hrun. destruct c1.
  - destruct (createTask_created_inv _ _ _ _ _ _ _ _ Hrun) as (_ & H1 & H2).
    split; [rewrite H1; apply lookup_insert_eq|].
    rewrite H2. unfold recordKey. rewrite Hkey. eexists.
    split; [rewrite setProperty_lookup, bool_decide_eq_true_2; [reflexivity | auto]|].
    reflexivity.
  - destruct (createTask_repeat_inv _ _ _ _ _ _ _ _ Hrun) as (-> & e & He & Hk).
    simpl in He. rewrite Hkey in He. unfold JsObject.getProperty in He.
    destruct (idempotencyEntries d !! key) as [e0|] eqn:He0.
    + inversion He; subst e; clear He. simpl in Hk.
      pose proof (good_wf _ G _ _ Hk) as Hid.
      split; [rewrite Hid; exact Hk|]. eauto.
    + destruct (bool_decide _); [|discriminate]. inversion He; subst e; clear He.
      simpl in Hk. rewrite (good_names _ G) in Hk. discriminate.
Qed.

Lemma insertSorted_Permutation localeCompare t l :
  Permutation (insertSorted localeCompare t l) (t :: l).
Proof.
  induction l as [|x l IH]; simpl; [reflexivity|].
  destruct (_ <=? 0); [reflexivity|]. rewrite IH. apply perm_swap.
Qed.

Lemma sortById_Permutation localeCompare l :
  Permutation (sortById localeCompare l) l.
Proof.
  induction l as [|x l IH]; simpl; [reflexivity|].
  rewrite insertSorted_Permutation. by constructor.
Qed.

Lemma filter_no_match (l : list TaskRecord.t) k :
  k ∉ map TaskRecord.id l ->
  filter (fun x => TaskRecord.id x = k) l = [].
Proof.
  induction l as [|x l IH]; intros Hk; [reflexivity|].
  simpl in Hk. apply not_elem_of_cons in Hk as [Hx Hk].
  rewrite filter_cons, decide_False by congruence. apply IH, Hk.
Qed.

Lemma one_task_per_id (l : list TaskRecord.t) t :
  NoDup (map TaskRecord.id l) -> t ∈ l ->
  length (filter (fun x => TaskRecord.id x = TaskRecord.id t) l) = 1%nat.
Proof.
  induction l as [|x l IH]; intros Hnd Hin; [inversion Hin|].
  simpl in Hnd. apply NoDup_cons in Hnd as [Hx Hnd].
  rewrite filter_cons. apply elem_of_cons in Hin as [<-|Hin].
  - rewrite decide_True by reflexivity. simpl. f_equal.
    rewrite filter_no_match by exact Hx. reflexivity.
  - rewrite decide_False; [apply IH; assumption|].
    intros Heq. apply Hx. rewrite Heq. apply list_elem_of_fmap. eauto.
Qed.

(** The listing of [listTasks] holds exactly one record per task id. *)
Lemma listTasks_one_per_id cfg localeCompare d k t :
  wfTasks (taskFiles d) -> taskFiles d !! k = Some t ->
  exists listing,
    listTasks cfg localeCompare (teamId cfg) d = (d, Ok listing) /\
    length (filter (fun x => TaskRecord.id x = TaskRecord.id t) listing) = 1%nat.
Proof.
  intros Hwf Hk. unfold listTasks, listTasksUnsafe. rewrite assertTeamId_ok. mrun.
  eexists. split; [reflexivity|].
  rewrite (sortById_Permutation localeCompare).
  apply one_task_per_id; [apply listed_NoDup, Hwf | apply elem_of_listed; eauto].
Qed.

(** C5, as the code has it. Once a [createTask] carrying a non-empty
    idempotency key other than [__proto__] has returned a task, every later
    [createTask] carrying the same key and a non-blank title, whatever else
    its payload holds and whatever the store did in between, writes nothing
    and returns the stored task of the same identifier with [created =
    false] (the very record of the first call when nothing happened in
    between), and the listing holds exactly one task of that identifier. *)
Theorem create_task_idempotent stringify cfg localeCompare
    now1 tid1 input1 key d d1 t1 c1 ops now2 input2 :
  reachable stringify cfg d ->
  Str.nonEmpty key = true -> key <> "__proto__" ->
  createTask cfg now1 tid1 input1 (Some key) d = (d1, Ok (t1, c1)) ->
  Str.nonEmpty (Str.trim (CreateTaskInput.title input2)) = true ->
  let d2 := runOps stringify cfg ops d1 in
  exists t2,
    createTask cfg now2 (teamId cfg) input2 (Some key) d2 = (d2, Ok (t2, false)) /\
    TaskRecord.id t2 = TaskRecord.id t1 /\
    taskFiles d2 !! TaskRecord.id t1 = Some t2 /\
    (ops = [] -> t2 = t1) /\
    exists listing,
      listTasks cfg localeCompare (teamId cfg) d2 = (d2, Ok listing) /\
      length (filter (fun x => TaskRecord.id x = TaskRecord.id t1) listing) = 1%nat.
Proof.
  intros R Hkey Hproto Hrun Htitle d2.
  assert (R1 : reachable stringify cfg d1).
  { replace d1 with (runOp stringify cfg (OpCreateTask now1 tid1 input1 (Some key)) d)
      by (simpl; rewrite Hrun; reflexivity).
    apply reachable_step, R. }
  pose proof (reachable_good _ _ _ R) as G.
  pose proof (reachable_good _ _ _ R1) as G1.
  destruct (createTask_records_key _ _ _ _ _ _ _ _ _ G Hkey Hproto Hrun)
    as (Hk1 & e & He & Hid).
  destruct (runOps_good stringify cfg ops d1 G1) as [G2 [Et Ei]]. fold d2 in G2, Et, Ei.
  destruct (Et _ _ Hk1) as (t2 & Hk2 & Hid2 & _).
  exists t2. split; [|split; [|split; [|split]]].
  - apply (createTask_existing cfg now2 input2 (Some key) d2 (JsObject.Own e) t2 Htitle).
    + simpl. rewrite Hkey. unfold JsObject.getProperty. rewrite (Ei _ _ He). reflexivity.
    + simpl. rewrite Hid. exact Hk2.
  - exact Hid2.
  - exact Hk2.
  - intros ->. simpl in d2. subst d2. congruence.
  - destruct (listTasks_one_per_id cfg localeCompare d2 _ t2 (good_wf _ G2) Hk2)
      as (listing & Hl & Hn).
    exists listing. split; [exact Hl|]. rewrite <- Hid2. exact Hn.
Qed.

Lemma create_task_idempotent_witness :
  reachable exampleStringify exampleCfg emptyDisk /\
  Str.nonEmpty "create-task-1" = true /\ "create-task-1" <> "__proto__" /\
  createTask exampleCfg 1000 "test-team" exampleInput (Some "create-task-1") emptyDisk
  = (diskCreated, Ok (taskCreated, true)) /\
  exists t2,
    createTask exampleCfg 5000 "test-team"
      (CreateTaskInput.mk "another title" (Some "other") None (Some ["docs/"]))
      (Some "create-task-1") diskClaimed
    = (diskClaimed, Ok (t2, false)) /\
    TaskRecord.id t2 = "task-0001".
Proof.
  assert (R : reachable exampleStringify exampleCfg emptyDisk)
    by (apply reachable_fresh; split; reflexivity).
  assert (Hrun : createTask exampleCfg 1000 "test-team" exampleInput
                   (Some "create-task-1") emptyDisk
                 = (diskCreated, Ok (taskCreated, true))) by reflexivity.
  split; [exact R|]. split; [reflexivity|]. split; [discriminate|]. split; [exact Hrun|].
  destruct (create_task_idempotent exampleStringify exampleCfg (fun _ _ => 0)
              1000 "test-team" exampleInput "create-task-1" emptyDisk diskCreated
              taskCreated true [OpClaimTask 2000 "test-team" exampleClaim] 5000
              (CreateTaskInput.mk "another title" (Some "other") None (Some ["docs/"]))
              R eq_refl ltac:(discriminate) Hrun eq_refl) as (t2 & H1 & H2 & _).
  exists t2. split; [exact H1 | exact H2].
Defined.

(** A creation on the empty store under [key], and a second creation under
    the same key right after it. *)
Definition firstCreation (key : string) : Disk * Result StoreThrown (TaskRecord.t * bool) :=
  createTask exampleCfg 1000 "test-team" exampleInput (Some key) emptyDisk.

Definition secondCreation (key : string) (input : CreateTaskInput.t)
    : Disk * Result StoreThrown (TaskRecord.t * bool) :=
  createTask exampleCfg 1001 "test-team" input (Some key) (fst (firstCreation key)).

(** The claim as stated fails in three ways. When the second payload has a
    blank title the call throws [400 INVALID_TASK], because the title is
    validated before the idempotency key is looked up. Under the key
    [__proto__] the first creation records nothing, because the assignment
    sets the prototype of the index, and the second creation makes a second
    task. The empty key is falsy and is no key: the second creation makes
    a second task. *)
Lemma repeated_key_is_not_always_replayed :
  (snd (firstCreation "create-task-1") = Ok (taskCreated, true) /\
   snd (secondCreation "create-task-1" (CreateTaskInput.mk "  " None None None))
   = Err (TeamdStoreError 400 INVALID_TASK)) /\
  (exists t1 t2,
     snd (firstCreation "__proto__") = Ok (t1, true) /\
     snd (secondCreation "__proto__" exampleInput) = Ok (t2, true) /\
     TaskRecord.id t1 = "task-0001" /\ TaskRecord.id t2 = "task-0002") /\
  (exists t1 t2,
     snd (firstCreation "") = Ok (t1, true) /\
     snd (secondCreation "" exampleInput) = Ok (t2, true) /\
     TaskRecord.id t1 = "task-0001" /\ TaskRecord.id t2 = "task-0002").
Proof.
  split; [split; vm_compute; reflexivity|].
  split; do 2 eexists; repeat split; vm_compute; reflexivity.
Qed.

(** A title of white space only is blank, whatever the white space:
    here the no-break space. *)
Example createTask_ex_blank_title :
  createTask exampleCfg 1000 "test-team" (CreateTaskInput.mk (nbsp +:+ " ") None None None)
    (Some "create-task-1") diskCreated
  = (diskCreated, Err (TeamdStoreError 400 INVALID_TASK)).
Proof. reflexivity. Qed.

(** A key that names a function of [Object.prototype] is recorded: the
    first look-up finds the function, which names no task, and the
    assignment makes an own property. *)
Example constructor_key_is_replayed :
  exists t1,
    snd (firstCreation "constructor") = Ok (t1, true) /\
    snd (secondCreation "constructor" exampleInput) = Ok (t1, false).
Proof. eexists. split; vm_compute; reflexivity. Qed.

(* ===================================================================== *)
(** ** One team per store *)
(* ===================================================================== *)

Definition teamNotFound {A} (d : Disk) : Disk * Result StoreThrown A :=
  (d, Err (TeamdStoreError 404 TEAM_NOT_FOUND)).

(** C10. Every public operation of the store that takes a team id, called
    with a team id other than the one the store was constructed with,
    throws [404 TEAM_NOT_FOUND] and leaves the disk as it was, whatever the
    disk holds. *)
Theorem foreign_team_is_not_found fs JSON_parse JSON_stringify localeCompare cfg tid d :
  tid <> teamId cfg ->
  (forall now team, TeamRecord.teamId team = tid ->
     createTeam cfg now team d = teamNotFound d) /\
  getTeam cfg tid d = teamNotFound d /\
  (forall now input key, createTask cfg now tid input key d = teamNotFound d) /\
  listTasks cfg localeCompare tid d = teamNotFound d /\
  (forall taskId, getTask cfg tid taskId d = teamNotFound d) /\
  (forall now input, claimTask cfg now tid input d = teamNotFound d) /\
  (forall now input, renewTask cfg now tid input d = teamNotFound d) /\
  (forall now input, completeTask cfg now tid input d = teamNotFound d) /\
  (forall now input, failTask cfg now tid input d = teamNotFound d) /\
  (forall now input, startThread cfg now tid input d = teamNotFound d) /\
  (forall now uuid input,
     postThreadMessage JSON_stringify cfg now uuid tid input d = teamNotFound d) /\
  (forall threadId limit,
     readThreadTail JSON_parse cfg tid threadId limit d = teamNotFound d) /\
  (forall query, searchThreads cfg tid query d = teamNotFound d) /\
  (forall now input, linkThreadToTask cfg now tid input d = teamNotFound d) /\
  (forall agentId since, fetchInbox cfg tid agentId since d = teamNotFound d) /\
  (forall now agentId requestedPath,
     canWrite fs cfg now tid agentId requestedPath d = teamNotFound d).
Proof.
  intros Hne. unfold teamNotFound.
  repeat split; intros;
    unfold createTeam, getTeam, createTask, listTasks, getTask, claimTask, renewTask,
      completeTask, failTask, startThread, postThreadMessage, readThreadTail,
      searchThreads, linkThreadToTask, fetchInbox, canWrite;
    subst; rewrite (assertTeamId_bad _ _ Hne); reflexivity.
Qed.

Lemma foreign_team_is_not_found_witness :
  "other-team" <> teamId exampleCfg /\
  claimTask exampleCfg 2000 "other-team" exampleClaim diskCreated
  = (diskCreated, Err (TeamdStoreError 404 TEAM_NOT_FOUND)) /\
  canWrite exampleFs exampleCfg 2000 "other-team" "agent-a" "src/index.ts" diskClaimed
  = (diskClaimed, Err (TeamdStoreError 404 TEAM_NOT_FOUND)).
Proof.
  assert (Hne : "other-team" <> teamId exampleCfg) by discriminate.
  split; [exact Hne|].
  split.
  - destruct (foreign_team_is_not_found exampleFs JsonText.parse exampleStringify
                (fun _ _ => 0) exampleCfg "other-team" diskCreated Hne)
      as (_ & _ & _ & _ & _ & H & _).
    apply H.
  - destruct (foreign_team_is_not_found exampleFs JsonText.parse exampleStringify
                (fun _ _ => 0) exampleCfg "other-team" diskClaimed Hne)
      as (_ & _ & _ & _ & _ & _ & _ & _ & _ & _ & _ & _ & _ & _ & _ & H).
    apply H.
Defined.

(* ===================================================================== *)
(** ** Write permission *)
(* ===================================================================== *)

(** Some task is in progress under a lease that [agentId] holds and that
    has not expired at [now], and one of its resources is [target] or a
    strict parent of it. *)
Definition holdsLeaseFor (d : Disk) (now : Z) (agentId target : string) : Prop :=
  exists k t l resource,
    taskFiles d !! k = Some t /\
    TaskRecord.status t = in_progress /\
    TaskRecord.lease t = Some l /\
    TaskLease.holder l = agentId /\
    now < TaskLease.expiresAt l /\
    resource ∈ TaskRecord.resources t /\
    (target = resource \/ Str.startsWith target (resource +:+ "/") = true).

Lemma resourceMatchesPath_spec resource target :
  Helpers.resourceMatchesPath resource target = true <->
  resource = "" \/ target = resource \/ Str.startsWith target (resource +:+ "/") = true.
Proof.
  unfold Helpers.resourceMatchesPath.
  destruct (String.eqb_spec resource "") as [->|Hne]; [tauto|].
  rewrite orb_true_iff, String.eqb_eq. tauto.
Qed.

Lemma grantsWrite_spec now agentId target t :
  "" ∉ TaskRecord.resources t ->
  grantsWrite now agentId target t = true <->
  TaskRecord.status t = in_progress /\
  exists l resource,
    TaskRecord.lease t = Some l /\ TaskLease.holder l = agentId /\
    now < TaskLease.expiresAt l /\ resource ∈ TaskRecord.resources t /\
    (target = resource \/ Str.startsWith target (resource +:+ "/") = true).
Proof.
  intros Hres. unfold grantsWrite.
  destruct (TaskRecord.status t), (TaskRecord.lease t) as [l|];
    try (split; [discriminate | intros [? (? & ? & ? & _)]; congruence]).
  rewrite !andb_true_iff, String.eqb_eq, negb_true_iff, Z.leb_gt, existsb_exists.
  split.
  - intros ((Hh & He) & (r & Hin & Hm)). split; [reflexivity|].
    apply list_elem_of_In in Hin.
    apply resourceMatchesPath_spec in Hm as [-> | Hm]; [contradiction|].
    exists l, r. auto.
  - intros (_ & l' & r & [= <-] & Hh & He & Hin & Hm).
    split; [auto|]. exists r. split; [apply list_elem_of_In, Hin|].
    apply resourceMatchesPath_spec. auto.
Qed.

Lemma existsb_grantsWrite d now agentId target :
  goodDisk d ->
  existsb (grantsWrite now agentId target) (map_to_list (taskFiles d)).*2 = true <->
  holdsLeaseFor d now agentId target.
Proof.
  intros G. rewrite existsb_exists. unfold holdsLeaseFor. split.
  - intros (t & Hin & Hg). apply list_elem_of_In, elem_of_listed in Hin as [k Hk].
    apply grantsWrite_spec in Hg as (Hs & l & r & H); [|eapply good_resources; eauto].
    exists k, t, l, r. tauto.
  - intros (k & t & l & r & Hk & Hs & H). exists t. split.
    + apply list_elem_of_In, elem_of_listed. eauto.
    + apply grantsWrite_spec; [eapply good_resources; eauto|]. split; [exact Hs|].
      exists l, r. exact H.
Qed.

(** C6, as the code has it. Called with the team id of the store,
    [canWrite] never throws and writes nothing. It answers [{allow: true,
    reason: "lease_active_for_resource"}] exactly when the normalized path
    is non-empty, passes [safeJoin] against the team directory, and some
    task in progress, under an unexpired lease held by the agent, has a
    resource equal to the normalized path or a strict parent of it.
    Otherwise it answers [allow = false] with [invalid_path] when the
    normalized path is empty, [path_traversal_denied] when [safeJoin]
    throws, and [no_active_lease_for_path] when no such task exists. *)
Theorem canWrite_decision fs stringify cfg now agentId requestedPath d :
  reachable stringify cfg d ->
  let safePath := Helpers.normalizePathPrefix requestedPath in
  let joined := Io.safeJoin fs (teamDirPath cfg) safePath in
  exists res,
    canWrite fs cfg now (teamId cfg) agentId requestedPath d = (d, Ok res) /\
    (res = {| allow := true; reason := "lease_active_for_resource" |} <->
     safePath <> "" /\ isOk joined = true /\ holdsLeaseFor d now agentId safePath) /\
    (safePath = "" -> res = {| allow := false; reason := "invalid_path" |}) /\
    (safePath <> "" -> isOk joined = false ->
     res = {| allow := false; reason := "path_traversal_denied" |}) /\
    (safePath <> "" -> isOk joined = true -> ~ holdsLeaseFor d now agentId safePath ->
     res = {| allow := false; reason := "no_active_lease_for_path" |}).
Proof.
  intros R safePath joined. pose proof (reachable_good _ _ _ R) as G.
  unfold canWrite. rewrite assertTeamId_ok, bind_ret. fold safePath. fold joined.
  destruct safePath as [|a s] eqn:Es; cbn [Str.nonEmpty negb].
  { eexists. split; [reflexivity|]. split; [|split; [|split]]; try tauto.
    split; [discriminate | intros [H _]; contradiction]. }
  destruct joined as [p|e] eqn:Ej; cbn [isOk].
  2:{ eexists. split; [reflexivity|]. split; [|split; [|split]]; try tauto; try discriminate.
      split; [discriminate | intros (_ & H & _); discriminate]. }
  unfold listTasksUnsafe. mrun.
  pose proof (existsb_grantsWrite d now agentId (String a s) G) as Hex.
  destruct (existsb _ _) eqn:E.
  - eexists. split; [reflexivity|]. split; [|split; [|split]]; try discriminate.
    + split; [intros _ | reflexivity]. split; [discriminate|]. split; [reflexivity|].
      apply Hex. reflexivity.
    + intros _ _ Hn. exfalso. apply Hn, Hex. reflexivity.
  - eexists. split; [reflexivity|]. split; [|split; [|split]]; try discriminate.
    + split; [discriminate|]. intros (_ & _ & H). apply Hex in H. discriminate.
    + reflexivity.
Qed.

Lemma canWrite_decision_witness :
  reachable exampleStringify exampleCfg diskClaimed /\
  canWrite exampleFs exampleCfg 2010 "test-team" "agent-a" "./src/index.ts" diskClaimed
  = (diskClaimed, Ok {| allow := true; reason := "lease_active_for_resource" |}).
Proof.
  split; [exact diskClaimed_reachable|].
  destruct (canWrite_decision exampleFs exampleStringify exampleCfg 2010 "agent-a"
              "./src/index.ts" diskClaimed diskClaimed_reachable)
    as (res & Hrun & Hiff & _).
  assert (Hres : res = {| allow := true; reason := "lease_active_for_resource" |}).
  { apply Hiff. split; [discriminate|]. split; [vm_compute; reflexivity|].
    exists "task-0001", taskClaimed, (TaskLease.mk "agent-a" 1 2025), "src".
    split; [vm_compute; reflexivity|].
    split; [reflexivity|]. split; [reflexivity|]. split; [reflexivity|].
    split; [reflexivity|]. split; [left|]. right. reflexivity. }
  rewrite <- Hres. exact Hrun.
Defined.

(** The claim as stated, that [canWrite] never throws, fails for a team
    id that is not the store's: the call throws [404 TEAM_NOT_FOUND] and
    returns no [{allow, reason}]. *)
Lemma canWrite_throws_for_foreign_team :
  snd (canWrite exampleFs exampleCfg 2010 "other-team" "agent-a" "src/index.ts" diskClaimed)
  = Err (TeamdStoreError 404 TEAM_NOT_FOUND).
Proof. reflexivity. Qed.

(** After the lease has expired the same path is refused. *)
Example canWrite_after_expiry :
  snd (canWrite exampleFs exampleCfg 2025 "test-team" "agent-a" "src/index.ts" diskClaimed)
  = Ok {| allow := false; reason := "no_active_lease_for_path" |}.
Proof. vm_compute. reflexivity. Qed.

(* ===================================================================== *)
(** ** The tolerant reader of line-delimited logs *)
(* ===================================================================== *)

Definition newlineString : string := String Io.newline "".

Definition noNewline (s : string) : Prop :=
  Str.forallChars (fun a => negb (Ascii.eqb a Io.newline)) s = true.

(** The file made of the newline-terminated lines [ls] followed by the
    bytes [frag]. *)
Definition fileOf (ls : list string) (frag : string) : string :=
  fold_right (fun l acc => l +:+ String Io.newline acc) frag ls.

Lemma noNewline_cons a s :
  noNewline (String a s) <-> a <> Io.newline /\ noNewline s.
Proof.
  unfold noNewline. simpl. rewrite andb_true_iff, negb_true_iff.
  split; intros [H1 H2]; (split; [|exact H2]).
  - intros ->. rewrite Ascii.eqb_refl in H1. discriminate.
  - apply Ascii.eqb_neq. exact H1.
Qed.

Lemma split_noNewline s : noNewline s -> Str.split Io.newline s = [s].
Proof.
  induction s as [|a s IH]; intros H; [reflexivity|].
  apply noNewline_cons in H as [Ha Hs]. simpl.
  rewrite (proj2 (Ascii.eqb_neq _ _) Ha), (IH Hs). reflexivity.
Qed.

Lemma split_line l rest :
  noNewline l ->
  Str.split Io.newline (l +:+ String Io.newline rest) = l :: Str.split Io.newline rest.
Proof.
  induction l as [|a l IH]; intros H; simpl.
  - rewrite ?Ascii.eqb_refl. reflexivity.
  - apply noNewline_cons in H as [Ha Hl].
    rewrite (proj2 (Ascii.eqb_neq _ _) Ha), (IH Hl). reflexivity.
Qed.

Lemma split_fileOf ls frag :
  Forall noNewline ls -> noNewline frag ->
  Str.split Io.newline (fileOf ls frag) = ls ++ [frag].
Proof.
  intros Hls Hf. induction Hls as [|l ls Hl _ IH]; simpl.
  - apply split_noNewline, Hf.
  - rewrite split_line by exact Hl. rewrite IH. reflexivity.
Qed.

Lemma endsWith_noNewline s : noNewline s -> Str.endsWith s newlineString = false.
Proof.
  induction s as [|a s IH]; intros H; [reflexivity|].
  apply noNewline_cons in H as [Ha Hs]. simpl.
  rewrite (proj2 (Ascii.eqb_neq _ _) Ha), (IH Hs). reflexivity.
Qed.

Lemma endsWith_line l rest :
  noNewline l ->
  Str.endsWith (l +:+ String Io.newline rest) newlineString
  = negb (Str.nonEmpty rest) || Str.endsWith rest newlineString.
Proof.
  induction l as [|a l IH]; intros H; simpl.
  - rewrite ?Ascii.eqb_refl. destruct rest; reflexivity.
  - apply noNewline_cons in H as [Ha Hl].
    rewrite (proj2 (Ascii.eqb_neq _ _) Ha). simpl. apply IH, Hl.
Qed.

Lemma fileOf_nonEmpty ls frag :
  Str.nonEmpty (fileOf ls frag)
  = match ls with [] => Str.nonEmpty frag | _ :: _ => true end.
Proof.
  destruct ls as [|l ls]; [reflexivity|]. simpl. destruct l; reflexivity.
Qed.

Lemma endsWith_fileOf ls frag :
  Forall noNewline ls -> noNewline frag ->
  Str.endsWith (fileOf ls frag) newlineString
  = match ls with [] => false | _ :: _ => negb (Str.nonEmpty frag) end.
Proof.
  intros Hls Hf. induction Hls as [|l ls Hl Hls IH].
  - apply endsWith_noNewline, Hf.
  - cbn [fileOf fold_right]. rewrite endsWith_line by exact Hl.
    fold (fileOf ls frag). rewrite IH, fileOf_nonEmpty.
    destruct ls; [rewrite orb_false_r; reflexivity|].
    simpl. reflexivity.
Qed.

Lemma parseLines_app_blank parse ls :
  Io.parseLines parse (ls ++ [""]) = Io.parseLines parse ls.
Proof.
  induction ls as [|l ls IH]; [reflexivity|]. simpl.
  destruct (Str.nonEmpty l); simpl; [|exact IH].
  destruct (parse l); [rewrite IH|]; reflexivity.
Qed.

(** The reader parses the newline-terminated lines and nothing else. *)
Lemma readJsonlSafeFrom_fileOf parse ls frag :
  Forall noNewline ls -> noNewline frag ->
  Io.readJsonlSafeFrom parse (Ok (fileOf ls frag)) = Io.parseLines parse ls.
Proof.
  intros Hls Hf. unfold Io.readJsonlSafeFrom.
  fold newlineString. rewrite endsWith_fileOf, split_fileOf by assumption.
  destruct ls as [|l ls]; [reflexivity|].
  destruct frag; simpl negb; cbv iota.
  - apply parseLines_app_blank.
  - rewrite removelast_last. reflexivity.
Qed.

Lemma parseLines_ok parse ls vs :
  Forall2 (fun l v => parse l = Some v) (filter (fun l => l <> "") ls) vs ->
  Io.parseLines parse ls = Ok vs.
Proof.
  revert vs. induction ls as [|l ls IH]; intros vs H.
  - inversion H. reflexivity.
  - rewrite filter_cons in H. simpl. destruct l as [|a l]; simpl.
    + rewrite decide_False in H by (intros Hn; apply Hn; reflexivity). apply IH, H.
    + rewrite decide_True in H by discriminate.
      inversion H as [|? v ? vs' Hv Hrest]; subst.
      rewrite Hv, (IH _ Hrest). reflexivity.
Qed.

Lemma parseLines_err parse ls l :
  l ∈ ls -> l <> "" -> parse l = None ->
  Io.parseLines parse ls = Err (IoError INVALID_JSONL_LINE).
Proof.
  intros Hin Hne Hp. induction ls as [|x ls IH]; [inversion Hin|].
  simpl. apply elem_of_cons in Hin as [<- | Hin].
  - destruct l; [contradiction|]. simpl. rewrite Hp. reflexivity.
  - destruct (Str.nonEmpty x); simpl; [|apply IH, Hin].
    destruct (parse x); [|reflexivity]. rewrite (IH Hin). reflexivity.
Qed.

(** Every file is some newline-terminated lines followed by a fragment
    without a newline. *)
Lemma every_file_is_lines raw :
  exists ls frag, raw = fileOf ls frag /\ Forall noNewline ls /\ noNewline frag.
Proof.
  induction raw as [|a raw (ls & frag & -> & Hls & Hf)].
  - exists [], "". repeat split. constructor.
  - destruct (Ascii.eqb_spec a Io.newline) as [->|Ha].
    + exists ("" :: ls), frag. repeat split; [|exact Hf]. constructor; [reflexivity|exact Hls].
    + destruct ls as [|l ls].
      * exists [], (String a frag). repeat split; [constructor|].
        apply noNewline_cons. auto.
      * exists (String a l :: ls), frag. repeat split; [|exact Hf].
        inversion Hls; subst. constructor; [apply noNewline_cons; auto | assumption].
Qed.

(** C8, as the code has it. For a file made of newline-terminated lines
    followed by a fragment without a newline, [readJsonlSafe] returns the
    parsed values of the non-empty lines in file order when each of them
    parses, whatever the trailing fragment is; empty lines are skipped; and
    it throws [INVALID_JSONL_LINE] as soon as some non-empty
    newline-terminated line does not parse. *)
Theorem readJsonlSafe_committed_lines parse fs filePath ls frag :
  readFile fs filePath = Ok (fileOf ls frag) ->
  Forall noNewline ls -> noNewline frag ->
  (forall vs,
     Forall2 (fun l v => parse l = Some v) (filter (fun l => l <> "") ls) vs ->
     Io.readJsonlSafe parse fs filePath = Ok vs) /\
  (forall l, l ∈ ls -> l <> "" -> parse l = None ->
     Io.readJsonlSafe parse fs filePath = Err (IoError INVALID_JSONL_LINE)).
Proof.
  intros Hfile Hls Hf. unfold Io.readJsonlSafe. rewrite Hfile.
  rewrite readJsonlSafeFrom_fileOf by assumption.
  split; [apply parseLines_ok | apply parseLines_err].
Qed.

Lemma readJsonlSafe_committed_lines_witness :
  Io.readJsonlSafe JsonText.parse exampleFs "/ws/team/threads/t-001.jsonl"
  = Ok [JObj [("id", JNum 1)]; JObj [("id", JNum 2)]].
Proof.
  destruct (readJsonlSafe_committed_lines JsonText.parse exampleFs
              "/ws/team/threads/t-001.jsonl"
              [JsonText.text "{'id':1}"; JsonText.text "{'id':2}"]
              (JsonText.text "{'id':3")) as [H _].
  - reflexivity.
  - repeat constructor.
  - reflexivity.
  - apply H. rewrite !filter_cons, filter_nil.
    repeat (rewrite decide_True by discriminate).
    repeat constructor.
Defined.

(** The claim as stated, that any non-final line that fails to parse as
    JSON fails the call, fails on an empty line: the second line of the
    file below is empty, the empty text is not JSON, and the call returns
    the two records around it. *)
Lemma blank_line_is_skipped :
  readFile exampleFs "/ws/team/threads/t-002.jsonl"
  = Ok (fileOf ["{}"; ""; "{}"] "") /\
  JsonText.parse "" = None /\
  Io.readJsonlSafe JsonText.parse exampleFs "/ws/team/threads/t-002.jsonl"
  = Ok [JObj []; JObj []].
Proof. repeat split. Qed.

(* ===================================================================== *)
(** ** Path segments *)
(* ===================================================================== *)




Lemma split_hd_tl c s :
  Str.split c s = hd "" (Str.split c s) :: tl (Str.split c s).
Proof.
  destruct s as [|a s]; [reflexivity|]. simpl.
  destruct (Ascii.eqb a c); [reflexivity|]. destruct (Str.split c s); reflexivity.
Qed.

Lemma split_sep c s : Str.split c (String c s) = "" :: Str.split c s.
Proof. simpl. rewrite Ascii.eqb_refl. reflexivity. Qed.

Lemma split_other c a s :
  a <> c ->
  Str.split c (String a s) = String a (hd "" (Str.split c s)) :: tl (Str.split c s).
Proof.
  intros Ha. simpl. rewrite (proj2 (Ascii.eqb_neq _ _) Ha).
  destruct (Str.split c s); reflexivity.
Qed.


Lemma app_empty s : "" +:+ s = s.
Proof. reflexivity. Qed.

Lemma app_cons a s t : String a s +:+ t = String a (s +:+ t).
Proof. reflexivity. Qed.


Lemma startsWith_empty a p : Str.startsWith "" (String a p) = false.
Proof. reflexivity. Qed.





Lemma split_app c s1 s2 :
  Str.split c (s1 +:+ String c s2) = Str.split c s1 ++ Str.split c s2.
Proof.
  induction s1 as [|a s1 IH]; rewrite ?app_cons, ?app_empty.
  - rewrite split_sep. reflexivity.
  - destruct (Ascii.eqb_spec a c) as [->|Ha].
    + rewrite !split_sep, IH. reflexivity.
    + rewrite !split_other by exact Ha. rewrite IH.
      rewrite (split_hd_tl c s1). reflexivity.
Qed.






(** A segment that [normalizeString] drops. *)
Definition skippedSegment (s : string) : Prop := s = "" \/ s = ".".

Global Instance skippedSegment_dec s : Decision (skippedSegment s).
Proof. unfold skippedSegment. apply _. Defined.
















(* ===================================================================== *)
(** ** Safe join *)
(* ===================================================================== *)










(** Nor is every link that leaves the root refused. In the example
    [/ws/team/drop] is a link to a file outside the root that does not
    exist yet: [lstat] finds the link, [realpath] fails with [ENOENT], the
    loop leaves by [break], and [safeJoin] returns the path through the
    link, where [appendJsonl] would create the file outside the root. *)
Lemma dangling_link_is_accepted :
  lstat exampleFs "/ws/team/drop" = Ok SymbolicLink /\
  realpath exampleFs "/ws/team/drop" = Err ENOENT /\
  Io.safeJoin exampleFs "/ws/team" "drop" = Ok "/ws/team/drop" /\
  Io.safeJoin exampleFs "/ws/team" "drop/log.jsonl" = Ok "/ws/team/drop/log.jsonl".
Proof. repeat split; reflexivity. Qed.

(* ===================================================================== *)
(** ** Discovery of the guard client *)
(* ===================================================================== *)

(** The environment of the discovery test of the repository: a workspace
    root and a user name, nothing else. *)
Definition workspaceOnlyEnv : gmap string string :=
  <["PI_TEAM_WORKSPACE_ROOT" := "/tmp/pi-team-runtime/.pi/teams"]>
    (<["USER" := "tester"]> ∅).

(** An environment that names everything, and a token file that would
    give other values. *)
Definition explicitEnv : gmap string string :=
  <["PI_TEAMD_URL" := "http://127.0.0.1:4402/"]>
    (<["PI_TEAMD_TOKEN" := "token-env"]>
       (<["PI_TEAM_ID" := "beta"]>
          (<["PI_AGENT_ID" := "agent-1"]>
             (<["PI_TEAMD_TOKEN_FILE" := "/ws/token"]> ∅)))).

(** An environment that leaves the token to the token file. *)
Definition tokenFileEnv : gmap string string :=
  <["PI_TEAMD_URL" := "http://127.0.0.1:4402"]>
    (<["PI_TEAM_ID" := "beta"]>
       (<["PI_AGENT_ID" := "agent-1"]>
          (<["PI_TEAMD_TOKEN_FILE" := "/ws/token"]> ∅))).

Definition tokenFileReader (path : string) : Result Errno string :=
  if String.eqb path "/ws/token" then Ok ("  token-file" +:+ String Io.newline "")
  else Err ENOENT.

(** C9. What [discover] does: it reads the team id and the agent id from
    the environment only, so without a team id it returns null whatever
    the workspace holds, and with [requireAgent] and without an agent id it
    returns null; when it returns a descriptor, the url and the token of
    the environment are used when set, and otherwise they are those of the
    token file named by the environment. There is no scan of the workspace
    root and no synthesized agent id. *)
Theorem discover_reads_env_and_token_file
    (readFileImpl : string -> Result Errno string) (JSON_parse : string -> option Json)
    (env : gmap string string) (requireAgent : bool) :
  let url := TeamdClient.asString (env !! "PI_TEAMD_URL") in
  let token := TeamdClient.asString (env !! "PI_TEAMD_TOKEN") in
  let teamId := TeamdClient.asString (env !! "PI_TEAM_ID") in
  let agentId := TeamdClient.asString (env !! "PI_AGENT_ID") in
  let tokenFile := TeamdClient.asString (env !! "PI_TEAMD_TOKEN_FILE") in
  let found := TeamdClient.discover readFileImpl JSON_parse env requireAgent in
  (Str.nonEmpty teamId = false -> found = None) /\
  (requireAgent = true -> Str.nonEmpty agentId = false -> found = None) /\
  (forall d, found = Some d ->
     DiscoveryData.teamId d = teamId /\ Str.nonEmpty teamId = true /\
     DiscoveryData.agentId d = agentId /\
     (requireAgent = true -> Str.nonEmpty agentId = true) /\
     (Str.nonEmpty url = true -> DiscoveryData.baseUrl d = TeamdClient.normalizeUrl url) /\
     (Str.nonEmpty token = true -> DiscoveryData.token d = token) /\
     (Str.nonEmpty url = false \/ Str.nonEmpty token = false ->
        exists fromFile,
          Str.nonEmpty tokenFile = true /\
          TeamdClient.parseTokenFile readFileImpl JSON_parse tokenFile = Ok fromFile /\
          DiscoveryData.baseUrl d
          = TeamdClient.normalizeUrl
              (TeamdClient.orElse url (default "" (TokenFileData.url fromFile))) /\
          DiscoveryData.token d
          = TeamdClient.orElse token (default "" (TokenFileData.token fromFile)))).
Proof.
  intros url token teamId agentId tokenFile found.
  unfold found, TeamdClient.discover.
  fold url token teamId agentId tokenFile.
  split; [|split].
  - intros Hteam.
    destruct ((negb (Str.nonEmpty token) || negb (Str.nonEmpty url)) && Str.nonEmpty tokenFile);
      [destruct (TeamdClient.parseTokenFile _ _ tokenFile); [|reflexivity]|];
      rewrite Hteam; cbn [negb]; rewrite orb_true_r; reflexivity.
  - intros -> Hagent.
    destruct ((negb (Str.nonEmpty token) || negb (Str.nonEmpty url)) && Str.nonEmpty tokenFile);
      [destruct (TeamdClient.parseTokenFile _ _ tokenFile); [|reflexivity]|];
      rewrite Hagent; cbn [negb andb];
      match goal with |- (if ?c then _ else _) = _ => destruct c; reflexivity end.
  - intros d.
    destruct (Str.nonEmpty token) eqn:Htok; destruct (Str.nonEmpty url) eqn:Hurl;
      destruct (Str.nonEmpty tokenFile) eqn:Hfile; cbn [negb orb andb];
      try (destruct (TeamdClient.parseTokenFile readFileImpl JSON_parse tokenFile)
             as [fromFile|e] eqn:Hparse; [|discriminate]);
      unfold TeamdClient.orElse; rewrite ?Htok, ?Hurl;
      try (destruct (Str.nonEmpty (default "" (TokenFileData.url fromFile))) eqn:Hfu);
      try (destruct (Str.nonEmpty (default "" (TokenFileData.token fromFile))) eqn:Hft);
      cbn [negb orb]; try discriminate;
      destruct (Str.nonEmpty teamId) eqn:Hteam; cbn [negb orb]; try discriminate;
      destruct requireAgent; destruct (Str.nonEmpty agentId) eqn:Hagent;
      cbn [negb andb]; try discriminate;
      intros Hd; inversion Hd; subst d; clear Hd; cbn;
      repeat split; try reflexivity; try discriminate; try (intros; assumption);
      try (intros [?|?]; discriminate);
      try (intros _; exists fromFile; unfold TeamdClient.orElse;
           rewrite ?Htok, ?Hurl; repeat split; reflexivity).
Qed.

Lemma discover_reads_env_and_token_file_witness :
  TeamdClient.discover tokenFileReader JsonText.parse workspaceOnlyEnv true = None /\
  exists d,
    TeamdClient.discover tokenFileReader JsonText.parse tokenFileEnv true = Some d /\
    DiscoveryData.teamId d = "beta" /\ DiscoveryData.agentId d = "agent-1" /\
    DiscoveryData.baseUrl d = "http://127.0.0.1:4402" /\
    DiscoveryData.token d = "token-file".
Proof.
  split.
  - destruct (discover_reads_env_and_token_file tokenFileReader JsonText.parse
                workspaceOnlyEnv true) as (Hnone & _).
    apply Hnone. vm_compute. reflexivity.
  - eexists. split; [vm_compute; reflexivity|].
    destruct (discover_reads_env_and_token_file tokenFileReader JsonText.parse
                tokenFileEnv true) as (_ & _ & Hfound).
    destruct (Hfound _ ltac:(vm_compute; reflexivity))
      as (Hteam & _ & Hagent & _ & Hurl & _ & Hfile).
    destruct Hfile as (fromFile & _ & Hparse & _ & Htoken);
      [right; vm_compute; reflexivity|].
    vm_compute in Hparse. inversion Hparse; subst fromFile; clear Hparse.
    rewrite Hteam, Hagent, (Hurl ltac:(vm_compute; reflexivity)), Htoken.
    vm_compute. repeat split.
Defined.

(** The discovery test of the repository expects, from the environment
    [workspaceOnlyEnv], a descriptor whose agent id is [tester-auto];
    [discover] returns null there, for every reader and parser, with or
    without [requireAgent]. *)
Example discover_ignores_workspace_root readFileImpl JSON_parse requireAgent :
  TeamdClient.discover readFileImpl JSON_parse workspaceOnlyEnv requireAgent = None.
Proof. destruct requireAgent; vm_compute; reflexivity. Qed.

(** An explicit url and token of the environment are kept although the
    token file named by the environment holds another token. *)
Example discover_env_over_token_file :
  TeamdClient.discover tokenFileReader JsonText.parse explicitEnv true
  = Some (DiscoveryData.mk "beta" "agent-1" "http://127.0.0.1:4402" "token-env").
Proof. vm_compute. reflexivity. Qed.

(* ===================================================================== *)
(** ** The life cycle of a task *)
(* ===================================================================== *)

(** What one call of the store can do to the record of one task file;
    [m'] holds the task files after the call. *)
Inductive taskStep (m' : gmap string TaskRecord.t) (t t' : TaskRecord.t) : Prop :=
| step_none : t' = t -> taskStep m' t t'
| step_claim (now ttl : Z) (agentId : string) :
    TaskRecord.status (resetIfExpired now t) = pending ->
    t' = claimed now (claimLease now ttl agentId (resetIfExpired now t))
                 (resetIfExpired now t) ->
    taskStep m' t t'
| step_renew (l : TaskLease.t) (expiresAt : Z) :
    TaskRecord.status t = in_progress -> TaskRecord.lease t = Some l ->
    t' = TaskUpdate.setLease (Some (renewedLease expiresAt l)) t ->
    taskStep m' t t'
| step_finalize (now : Z) (f : FinalStatus) :
    TaskRecord.status t = in_progress ->
    t' = finalized now f t ->
    taskStep m' t t'
| step_unblock :
    TaskRecord.status t = blocked -> depsSatisfied m' (TaskRecord.deps t) ->
    t' = TaskUpdate.setStatus pending t ->
    taskStep m' t t'.

(** The record of a task that [createTask] adds to the task files [m]. *)
Definition createdIn (m : gmap string TaskRecord.t) (t' : TaskRecord.t) : Prop :=
  exists now input,
    t' = newTask now (Str.trim (CreateTaskInput.title input)) input
           (cleanDeps input) (cleanResources input) (map_to_list m).*2.

(** Every task file is kept and makes one step; a file that appears holds
    a new task. *)
Definition tasksStep (m m' : gmap string TaskRecord.t) : Prop :=
  (forall k t, m !! k = Some t -> exists t', m' !! k = Some t' /\ taskStep m' t t') /\
  (forall k t', m' !! k = Some t' -> m !! k = None -> createdIn m t').

Lemma tasksStep_refl m : tasksStep m m.
Proof.
  split.
  - intros k t Hk. exists t. split; [exact Hk | apply step_none; reflexivity].
  - intros k t' H1 H2. congruence.
Qed.

Lemma tasksStep_update m k t t' :
  m !! k = Some t -> taskStep (<[k := t']> m) t t' -> tasksStep m (<[k := t']> m).
Proof.
  intros Hk Hstep. split.
  - intros k0 t0 Hk0. destruct (decide (k = k0)) as [<-|Hne].
    + exists t'. rewrite lookup_insert_eq. split; [reflexivity|].
      assert (t0 = t) by congruence. subst t0. exact Hstep.
    + exists t0. rewrite lookup_insert_ne by exact Hne.
      split; [exact Hk0 | apply step_none; reflexivity].
  - intros k0 t0 H1 H2. destruct (decide (k = k0)) as [<-|Hne]; [congruence|].
    rewrite lookup_insert_ne in H1 by exact Hne. congruence.
Qed.

Section LifeCycle.
Variable JSON_stringify : Json -> string.
Variable cfg : StoreConfig.

Lemma claimTask_effect_checked now tid input d :
  let r := claimTask cfg now tid input d in
  taskFiles (fst r) = taskFiles d \/
  exists t ttl,
    taskFiles d !! ClaimTaskInput.taskId input = Some t /\
    TaskRecord.status (resetIfExpired now t) = pending /\
    taskFiles (fst r)
    = <[TaskRecord.id t :=
          claimed now (claimLease now ttl (ClaimTaskInput.agentId input)
                         (resetIfExpired now t)) (resetIfExpired now t)]>
        (taskFiles d).
Proof.
  intros r. subst r.
  destruct (String.eqb_spec tid (teamId cfg)) as [->|Hne].
  2:{ rewrite claimTask_wrong_team by exact Hne. simpl. auto. }
  destruct (taskFiles d !! ClaimTaskInput.taskId input) as [t|] eqn:H.
  2:{ rewrite claimTask_not_found by exact H. simpl. auto. }
  destruct (decide (TaskRecord.status (resetIfExpired now t) = pending)) as [Hs|Hs].
  2:{ rewrite (claimTask_not_claimable _ _ _ _ _ H Hs). simpl. auto. }
  destruct (Helpers.validDate
              (now + default (defaultLeaseTtlMs cfg) (ClaimTaskInput.ttlMs input))) eqn:Hv.
  2:{ rewrite (claimTask_range_error _ _ _ _ _ H Hs Hv). simpl. auto. }
  destruct (claimTask_claims cfg now input d t H Hs Hv) as (H1 & _).
  right. eauto.
Qed.

Lemma finalizeTask_effect_checked now input f d :
  let r := finalizeTask cfg now input f d in
  taskFiles (fst r) = taskFiles d \/
  exists t,
    taskFiles d !! FinalizeTaskInput.taskId input = Some t /\
    TaskRecord.status t = in_progress /\
    taskFiles (fst r) = <[TaskRecord.id t := finalized now f t]> (taskFiles d).
Proof.
  intros r. subst r.
  destruct (taskFiles d !! FinalizeTaskInput.taskId input) as [t|] eqn:H.
  2:{ rewrite finalizeTask_not_found by exact H. simpl. auto. }
  destruct (checkLease now t (FinalizeTaskInput.agentId input)
              (FinalizeTaskInput.epoch input)) as [l|e] eqn:Hc.
  2:{ rewrite (finalizeTask_rejected _ _ _ _ _ _ _ H Hc). simpl. auto. }
  destruct (finalizeTask_finalizes cfg now input f d t l H Hc) as (H1 & _).
  apply checkLease_Ok in Hc as (Hs & _). right. eauto.
Qed.

Lemma completeTask_effect_checked now tid input d :
  wfTasks (taskFiles d) ->
  let r := completeTask cfg now tid input d in
  taskFiles (fst r) = taskFiles d \/
  exists t,
    taskFiles d !! FinalizeTaskInput.taskId input = Some t /\
    TaskRecord.status t = in_progress /\
    let written := <[TaskRecord.id t := finalized now FinalCompleted t]> (taskFiles d) in
    (taskFiles (fst r) = written \/
     taskFiles (fst r) = unlockedFiles (TaskRecord.id t) written).
Proof.
  intros Hwf r. subst r.
  destruct (String.eqb_spec tid (teamId cfg)) as [->|Hne].
  2:{ rewrite completeTask_wrong_team by exact Hne. simpl. auto. }
  destruct (taskFiles d !! FinalizeTaskInput.taskId input) as [t|] eqn:H.
  2:{ rewrite completeTask_not_found by exact H. simpl. auto. }
  destruct (checkLease now t (FinalizeTaskInput.agentId input)
              (FinalizeTaskInput.epoch input)) as [l|e] eqn:Hc.
  2:{ rewrite (completeTask_rejected _ _ _ _ _ _ H Hc). simpl. auto. }
  destruct (completeTask_completes cfg now input d t l Hwf H Hc) as (_ & H3).
  apply checkLease_Ok in Hc as (Hs & _).
  right. exists t. split; [reflexivity|]. split; [exact Hs|].
  cbv zeta. destruct H3 as [[_ H3]|[_ H3]]; auto.
Qed.

Lemma tasksStep_unlocked m m1 cid t0 t0' :
  wfTasks m -> m !! TaskRecord.id t0 = Some t0 ->
  TaskRecord.id t0' = TaskRecord.id t0 ->
  TaskRecord.status t0' = completed ->
  (forall m', taskStep m' t0 t0') ->
  m1 = <[TaskRecord.id t0 := t0']> m ->
  tasksStep m (unlockedFiles cid m1).
Proof.
  intros Hwf Hk0 Hid Hdone Hstep ->.
  set (m1 := <[TaskRecord.id t0 := t0']> m).
  assert (Hwf1 : wfTasks m1) by (apply wfTasks_insert; assumption).
  split.
  - intros k t Hk. destruct (decide (TaskRecord.id t0 = k)) as [<-|Hne].
    + assert (t = t0) by congruence. subst t. exists t0'. split; [|apply Hstep].
      apply unlockedFiles_lookup_other; [apply lookup_insert_eq | congruence].
    + assert (Hk1 : m1 !! k = Some t)
        by (unfold m1; rewrite lookup_insert_ne by exact Hne; exact Hk).
      unfold unlockedFiles at 1. rewrite lookup_fmap, Hk1. simpl.
      destruct (unlockable cid (completedIds m1) t) eqn:E.
      * exists (TaskUpdate.setStatus pending t). split; [reflexivity|].
        apply unlockable_spec in E as (Hs & _ & Hd); [|exact Hwf1].
        apply step_unblock; [exact Hs | | reflexivity].
        unfold depsSatisfied in *. eapply Forall_impl; [exact Hd|].
        intros dep Hdep. apply unlockedFiles_completed. exact Hdep.
      * exists t. split; [reflexivity | apply step_none; reflexivity].
  - intros k t' H1 H2. exfalso. unfold unlockedFiles in H1.
    rewrite lookup_fmap in H1.
    destruct (decide (TaskRecord.id t0 = k)) as [<-|Hne]; [congruence|].
    unfold m1 in H1. rewrite lookup_insert_ne, H2 in H1 by exact Hne. discriminate.
Qed.

(** Every call of the store moves every task by one step. *)
Lemma runOp_tasksStep op d :
  goodDisk d ->
  tasksStep (taskFiles d) (taskFiles (runOp JSON_stringify cfg op d)).
Proof.
  intros G. pose proof (good_wf _ G) as Hwf.
  assert (Hkeep : forall A (m : M A), keepsTasks m ->
            tasksStep (taskFiles d) (taskFiles (fst (m d)))).
  { intros A m Hm. destruct (Hm d) as [-> _]. apply tasksStep_refl. }
  destruct op; simpl.
  - apply Hkeep, keepsTasks_createTeam.
  - destruct (createTask_effect cfg now teamIdArg input idempotencyKey d)
      as [[-> _] | (H1 & _ & _ & _)]; [apply tasksStep_refl|].
    rewrite H1. pose proof (minted_id_fresh _ Hwf) as Hfresh.
    set (t := newTask now (Str.trim (CreateTaskInput.title input)) input
                (cleanDeps input) (cleanResources input)
                (map_to_list (taskFiles d)).*2) in *.
    change (taskFiles d !! TaskRecord.id t = None) in Hfresh.
    split.
    + intros k t0 Hk. exists t0. split; [|apply step_none; reflexivity].
      rewrite lookup_insert_ne; [exact Hk | congruence].
    + intros k t' Hk' Hk. destruct (decide (TaskRecord.id t = k)) as [<-|Hne].
      * rewrite lookup_insert_eq in Hk'. inversion Hk'; subst t'.
        exists now, input. reflexivity.
      * rewrite lookup_insert_ne in Hk' by exact Hne. congruence.
  - destruct (claimTask_effect_checked now teamIdArg input d)
      as [-> | (t & ttl & Hk & Hs & ->)]; [apply tasksStep_refl|].
    rewrite (Hwf _ _ Hk). eapply tasksStep_update; [exact Hk|].
    eapply step_claim; [exact Hs | reflexivity].
  - destruct (renewTask_effect cfg now teamIdArg input d)
      as [_ [-> | (t & l & e & Hk & Hs & Hl & ->)]]; [apply tasksStep_refl|].
    rewrite (Hwf _ _ Hk). eapply tasksStep_update; [exact Hk|].
    eapply step_renew; [exact Hs | exact Hl | reflexivity].
  - destruct (completeTask_effect_checked now teamIdArg input d Hwf)
      as [-> | (t & Hk & Hs & [-> | ->])]; [apply tasksStep_refl| |].
    + rewrite (Hwf _ _ Hk). eapply tasksStep_update; [exact Hk|].
      eapply step_finalize; [exact Hs | reflexivity].
    + eapply tasksStep_unlocked; [exact Hwf | | | | | reflexivity].
      * rewrite (Hwf _ _ Hk). exact Hk.
      * apply finalized_id.
      * reflexivity.
      * intros m'. eapply step_finalize; [exact Hs | reflexivity].
  - unfold failTask.
    destruct (String.eqb_spec teamIdArg (teamId cfg)) as [->|Hne].
    2:{ rewrite (assertTeamId_bad _ _ Hne). simpl. apply tasksStep_refl. }
    rewrite assertTeamId_ok, bind_ret.
    destruct (finalizeTask_effect_checked now input FinalFailed d)
      as [-> | (t & Hk & Hs & ->)]; [apply tasksStep_refl|].
    rewrite (Hwf _ _ Hk). eapply tasksStep_update; [exact Hk|].
    eapply step_finalize; [exact Hs | reflexivity].
  - apply Hkeep, keepsTasks_startThread.
  - apply Hkeep, keepsTasks_postThreadMessage.
  - apply Hkeep, keepsTasks_linkThreadToTask.
  - apply Hkeep, keepsTasks_fetchInbox.
Qed.

End LifeCycle.

(** The order of the statuses along the life cycle. *)
Definition statusRank (s : TaskStatus) : nat :=
  match s with
  | blocked => 0
  | pending => 1
  | in_progress => 2
  | completed | failed | canceled => 3
  end.

Definition isTerminal (s : TaskStatus) : bool :=
  match s with completed | failed | canceled => true | _ => false end.

(** What never changes in a task record. *)
Definition sameIdentity (t t' : TaskRecord.t) : Prop :=
  TaskRecord.id t' = TaskRecord.id t /\
  TaskRecord.title t' = TaskRecord.title t /\
  TaskRecord.description t' = TaskRecord.description t /\
  TaskRecord.deps t' = TaskRecord.deps t /\
  TaskRecord.resources t' = TaskRecord.resources t /\
  Timestamps.createdAt (TaskRecord.timestamps t')
  = Timestamps.createdAt (TaskRecord.timestamps t).

Definition taskAdvances (t t' : TaskRecord.t) : Prop :=
  sameIdentity t t' /\
  (statusRank (TaskRecord.status t) <= statusRank (TaskRecord.status t'))%nat /\
  (isTerminal (TaskRecord.status t) = true -> t' = t).

Lemma taskAdvances_refl t : taskAdvances t t.
Proof. repeat split; auto. Qed.

Lemma taskAdvances_trans t1 t2 t3 :
  taskAdvances t1 t2 -> taskAdvances t2 t3 -> taskAdvances t1 t3.
Proof.
  intros ((A1 & A2 & A3 & A4 & A5 & A6) & R1 & T1) ((B1 & B2 & B3 & B4 & B5 & B6) & R2 & T2).
  split; [|split].
  - repeat split; congruence.
  - lia.
  - intros Ht. specialize (T1 Ht). subst t2. auto.
Qed.

Lemma taskStep_advances m' t t' : taskStep m' t t' -> taskAdvances t t'.
Proof.
  intros [-> | now ttl a Hs -> | l e Hs Hl -> | now f Hs -> | Hs _ ->].
  - apply taskAdvances_refl.
  - unfold resetIfExpired in *.
    destruct t as [i ti de st ow dp rs le ep ts]; simpl in *.
    destruct st; try discriminate;
      [| destruct le as [l|]; [destruct (Helpers.isLeaseExpired now l)|]];
      simpl in *; try discriminate; repeat split; simpl; auto; discriminate.
  - destruct t as [i ti de st ow dp rs le ep ts]; simpl in *. subst st.
    repeat split; simpl; auto; discriminate.
  - destruct t as [i ti de st ow dp rs le ep ts]; simpl in *. subst st.
    destruct f; repeat split; simpl; auto; discriminate.
  - destruct t as [i ti de st ow dp rs le ep ts]; simpl in *. subst st.
    repeat split; simpl; auto; discriminate.
Qed.

Section Histories.
Variable JSON_stringify : Json -> string.
Variable cfg : StoreConfig.

Lemma runOps_advances ops d k t :
  goodDisk d -> taskFiles d !! k = Some t ->
  exists t', taskFiles (runOps JSON_stringify cfg ops d) !! k = Some t' /\
             taskAdvances t t'.
Proof.
  revert d t. induction ops as [|op ops IH]; intros d t G Hk; simpl.
  - exists t. split; [exact Hk | apply taskAdvances_refl].
  - destruct (runOp_tasksStep JSON_stringify cfg op d G) as [Hstep _].
    destruct (Hstep _ _ Hk) as (t1 & Hk1 & S1).
    destruct (runOp_good JSON_stringify cfg op d G) as [G1 _].
    destruct (IH _ _ G1 Hk1) as (t' & Hk' & A).
    exists t'. split; [exact Hk'|].
    eapply taskAdvances_trans; [apply (taskStep_advances _ _ _ S1) | exact A].
Qed.

(** Induction over the states of the store, by the steps of its tasks. *)
Lemma reachable_tasks_ind (P : gmap string TaskRecord.t -> Prop) :
  P ∅ ->
  (forall m m', wfTasks m -> P m -> tasksStep m m' -> P m') ->
  forall d, reachable JSON_stringify cfg d -> P (taskFiles d).
Proof.
  intros Hempty Hstep d R. induction R as [d [Ht _] | d op R IH].
  - rewrite Ht. exact Hempty.
  - pose proof (reachable_good _ _ _ R) as G.
    eapply Hstep; [apply (good_wf _ G) | exact IH | apply runOp_tasksStep, G].
Qed.

End Histories.

(** X1. A task that is completed or failed is final: whatever is called
    on the store afterwards, its file holds the same record. *)
Theorem finished_task_is_final stringify cfg d ops k t :
  reachable stringify cfg d ->
  taskFiles d !! k = Some t ->
  TaskRecord.status t = completed \/ TaskRecord.status t = failed ->
  taskFiles (runOps stringify cfg ops d) !! k = Some t.
Proof.
  intros R Hk Hs.
  destruct (runOps_advances stringify cfg ops d k t (reachable_good _ _ _ R) Hk)
    as (t' & Hk' & _ & _ & Hfinal).
  rewrite Hk'. f_equal. apply Hfinal. destruct Hs as [-> | ->]; reflexivity.
Qed.

(** X2. No call deletes a task or rewrites what identifies it: after any
    history the file of a task is still there, with the same identifier,
    title, description, dependencies, resources and creation time, and a
    status that is not earlier in the order blocked, pending, in progress,
    finished. *)
Theorem task_only_moves_forward stringify cfg d ops k t :
  reachable stringify cfg d ->
  taskFiles d !! k = Some t ->
  exists t',
    taskFiles (runOps stringify cfg ops d) !! k = Some t' /\
    sameIdentity t t' /\
    (statusRank (TaskRecord.status t) <= statusRank (TaskRecord.status t'))%nat.
Proof.
  intros R Hk.
  destruct (runOps_advances stringify cfg ops d k t (reachable_good _ _ _ R) Hk)
    as (t' & Hk' & Hid & Hrank & _).
  exists t'. auto.
Qed.

(** The task of the worked history, completed by its holder at time 2010,
    and what later calls find. *)
Definition diskFinished : Disk :=
  runOp exampleStringify exampleCfg
    (OpCompleteTask 2010 "test-team" (FinalizeTaskInput.mk "task-0001" "agent-a" 1))
    diskClaimed.

Definition taskFinished : TaskRecord.t :=
  TaskRecord.mk "task-0001" "lease-expiry-task" "" completed (Some "agent-a") []
    ["src"] None 1 (Timestamps.mk 1000 (Some 2000) (Some 2010) None).

Definition laterCalls : list Op :=
  [ OpClaimTask 9000 "test-team" (ClaimTaskInput.mk "task-0001" "agent-b" None);
    OpFailTask 9001 "test-team" (FinalizeTaskInput.mk "task-0001" "agent-a" 1);
    OpRenewTask 9002 "test-team" (RenewTaskInput.mk "task-0001" "agent-a" 1 None);
    OpCreateTask 9003 "test-team" exampleInput None ].

Lemma diskFinished_reachable : reachable exampleStringify exampleCfg diskFinished.
Proof. apply reachable_step, diskClaimed_reachable. Defined.

Lemma finished_task_is_final_witness :
  taskFiles diskFinished !! "task-0001" = Some taskFinished /\
  taskFiles (runOps exampleStringify exampleCfg laterCalls diskFinished) !! "task-0001"
  = Some taskFinished.
Proof.
  assert (Hk : taskFiles diskFinished !! "task-0001" = Some taskFinished)
    by (vm_compute; reflexivity).
  split; [exact Hk|].
  apply (finished_task_is_final exampleStringify exampleCfg diskFinished laterCalls
           "task-0001" taskFinished diskFinished_reachable Hk).
  left. reflexivity.
Defined.

Lemma task_only_moves_forward_witness :
  exists t',
    taskFiles (runOps exampleStringify exampleCfg
                 [OpClaimTask 2000 "test-team" exampleClaim] diskCreated) !! "task-0001"
    = Some t' /\
    sameIdentity taskCreated t' /\
    (statusRank (TaskRecord.status taskCreated) <= statusRank (TaskRecord.status t'))%nat.
Proof.
  apply (task_only_moves_forward exampleStringify exampleCfg diskCreated
           [OpClaimTask 2000 "test-team" exampleClaim] "task-0001" taskCreated
           diskCreated_reachable).
  vm_compute. reflexivity.
Defined.

(** A task record whose fields agree with one another. *)
Definition unclaimed (t : TaskRecord.t) : Prop :=
  TaskRecord.status t = pending \/ TaskRecord.status t = blocked.

Record consistentTask (t : TaskRecord.t) : Prop := {
  never_canceled : TaskRecord.status t <> canceled;
  epoch_counts : 0 <= TaskRecord.epoch t;
  unclaimed_epoch : unclaimed t <-> TaskRecord.epoch t = 0;
  unclaimed_owner : unclaimed t <-> TaskRecord.owner t = None;
  unclaimed_started : unclaimed t <->
                      Timestamps.startedAt (TaskRecord.timestamps t) = None;
  completed_stamp : TaskRecord.status t = completed <->
                    Timestamps.completedAt (TaskRecord.timestamps t) <> None;
  failed_stamp : TaskRecord.status t = failed <->
                 Timestamps.failedAt (TaskRecord.timestamps t) <> None
}.

Ltac consistent_tac :=
  split; unfold unclaimed in *; simpl in *;
  repeat match goal with
         | H : _ <-> _ |- _ => destruct H
         end;
  try solve [ intuition (try discriminate; try congruence; try lia) ].

Lemma consistentTask_created m t : createdIn m t -> consistentTask t.
Proof.
  intros (now & input & ->). unfold newTask.
  destruct (_ && _); consistent_tac.
Qed.

Lemma consistentTask_step m' t t' :
  consistentTask t -> taskStep m' t t' -> consistentTask t'.
Proof.
  intros [C1 C2 C3 C4 C5 C6 C7]
         [-> | now ttl a Hs -> | l e Hs Hl -> | now f Hs -> | Hs _ ->].
  - split; assumption.
  - unfold resetIfExpired, unclaimed in *.
    destruct t as [i ti de st ow dp rs le ep [ca sa co fa]]; simpl in *.
    destruct st; try discriminate;
      [| destruct le as [l|]; [destruct (Helpers.isLeaseExpired now l)|]];
      simpl in *; try discriminate; destruct sa; consistent_tac.
  - unfold unclaimed in *.
    destruct t as [i ti de st ow dp rs le ep [ca sa co fa]]; simpl in *. subst st.
    consistent_tac.
  - unfold unclaimed in *.
    destruct t as [i ti de st ow dp rs le ep [ca sa co fa]]; simpl in *. subst st.
    destruct f; consistent_tac.
  - unfold unclaimed in *.
    destruct t as [i ti de st ow dp rs le ep [ca sa co fa]]; simpl in *. subst st.
    consistent_tac.
Qed.

Lemma tasksStep_inv m m' k t' :
  tasksStep m m' -> m' !! k = Some t' ->
  (exists t, m !! k = Some t /\ taskStep m' t t') \/ createdIn m t'.
Proof.
  intros [Hold Hnew] Hk'. destruct (m !! k) as [t|] eqn:Hk.
  - left. exists t. split; [reflexivity|].
    destruct (Hold _ _ Hk) as (t'' & Hk'' & S). congruence.
  - right. eapply Hnew; eauto.
Qed.

(** X3. The fields of every task record on disk agree with one another:
    the status is never [canceled]; the task is pending or blocked exactly
    when its epoch is 0, exactly when it has no owner, and exactly when it
    has no start time; it is completed exactly when it has a completion
    time and failed exactly when it has a failure time. *)
Theorem task_records_are_consistent stringify cfg d k t :
  reachable stringify cfg d ->
  taskFiles d !! k = Some t ->
  consistentTask t.
Proof.
  intros R. revert k t.
  apply (reachable_tasks_ind stringify cfg
           (fun m => forall k t, m !! k = Some t -> consistentTask t)); [| |exact R].
  - intros k t Hk. rewrite lookup_empty in Hk. discriminate.
  - intros m m' _ IH Hstep k t' Hk'.
    destruct (tasksStep_inv _ _ _ _ Hstep Hk') as [(t & Hk & S) | Hnew].
    + eapply consistentTask_step; [eapply IH; exact Hk | exact S].
    + eapply consistentTask_created; exact Hnew.
Qed.

Lemma task_records_are_consistent_witness : consistentTask taskFinished.
Proof.
  apply (task_records_are_consistent exampleStringify exampleCfg diskFinished
           "task-0001" taskFinished diskFinished_reachable).
  vm_compute. reflexivity.
Defined.

Lemma depsSatisfied_step m m' deps :
  tasksStep m m' -> depsSatisfied m deps -> depsSatisfied m' deps.
Proof.
  intros [Hold _] Hd. unfold depsSatisfied in *. eapply Forall_impl; [exact Hd|].
  intros dep (td & Hk & Hs). destruct (Hold _ _ Hk) as (td' & Hk' & S).
  apply taskStep_advances in S as (_ & _ & Hfinal).
  rewrite (Hfinal ltac:(rewrite Hs; reflexivity)) in Hk'. eauto.
Qed.

Lemma resetIfExpired_pending_source now t :
  TaskRecord.status (resetIfExpired now t) = pending ->
  TaskRecord.status t <> blocked.
Proof.
  unfold resetIfExpired. intros H Hb. rewrite Hb in H. simpl in H.
  rewrite Hb in H. discriminate.
Qed.

(** X4. No task leaves the blocked status before its dependencies are
    done: every task on disk that is not blocked has only dependencies that
    are tasks on disk with status completed. *)
Theorem dependencies_are_respected stringify cfg d k t :
  reachable stringify cfg d ->
  taskFiles d !! k = Some t ->
  TaskRecord.status t <> blocked ->
  depsSatisfied (taskFiles d) (TaskRecord.deps t).
Proof.
  intros R. revert k t.
  apply (reachable_tasks_ind stringify cfg
           (fun m => forall k t, m !! k = Some t -> TaskRecord.status t <> blocked ->
                                 depsSatisfied m (TaskRecord.deps t))); [| |exact R].
  - intros k t Hk. rewrite lookup_empty in Hk. discriminate.
  - intros m m' Hwf IH Hstep k t' Hk' Hs'.
    destruct (tasksStep_inv _ _ _ _ Hstep Hk') as [(t & Hk & S) | Hnew].
    + pose proof (taskStep_advances _ _ _ S) as ((_ & _ & _ & Hdeps & _) & _).
      rewrite Hdeps.
      destruct S as [-> | now ttl a Hs -> | l e Hs Hl -> | now f Hs -> | Hs Hd ->].
      * eapply depsSatisfied_step; [exact Hstep | eapply IH; eauto].
      * eapply depsSatisfied_step; [exact Hstep | eapply IH; [exact Hk|]].
        eapply resetIfExpired_pending_source; exact Hs.
      * eapply depsSatisfied_step; [exact Hstep | eapply IH; [exact Hk|]]. congruence.
      * eapply depsSatisfied_step; [exact Hstep | eapply IH; [exact Hk|]]. congruence.
      * exact Hd.
    + destruct Hnew as (now & input & ->). simpl in *.
      eapply depsSatisfied_step; [exact Hstep|].
      destruct (0 <? length (cleanDeps input))%nat eqn:Hlen; simpl in Hs'.
      * destruct (areDepsComplete (map_to_list m).*2 (cleanDeps input)) eqn:Hc;
          simpl in Hs'; [|contradiction].
        apply areDepsComplete_spec; assumption.
      * apply Nat.ltb_ge in Hlen. destruct (cleanDeps input); [constructor|].
        simpl in Hlen. lia.
Qed.

(** The dependent task of the second worked history, after the task it
    waits for is completed. *)
Definition diskUnblocked : Disk :=
  runOp exampleStringify exampleCfg
    (OpCompleteTask 3000 "test-team" (FinalizeTaskInput.mk "task-0001" "agent-a" 1))
    diskDependent.

Lemma diskUnblocked_reachable : reachable exampleStringify exampleCfg diskUnblocked.
Proof. apply reachable_step, diskDependent_reachable. Defined.

Lemma dependencies_are_respected_witness :
  taskFiles diskUnblocked !! "task-0002" = Some (TaskUpdate.setStatus pending taskDependent) /\
  depsSatisfied (taskFiles diskUnblocked) ["task-0001"].
Proof.
  assert (Hk : taskFiles diskUnblocked !! "task-0002"
               = Some (TaskUpdate.setStatus pending taskDependent))
    by (vm_compute; reflexivity).
  split; [exact Hk|].
  apply (dependencies_are_respected exampleStringify exampleCfg diskUnblocked
           "task-0002" (TaskUpdate.setStatus pending taskDependent)
           diskUnblocked_reachable Hk).
  discriminate.
Defined.

(* ===================================================================== *)
(** ** Renewing a lease *)
(* ===================================================================== *)





(* ===================================================================== *)
(** ** Creating and reading tasks *)
(* ===================================================================== *)

Lemma fold_max_attained (l : list TaskRecord.t) (a : nat) :
  let m := fold_left (fun maxValue task =>
             Nat.max maxValue (Helpers.parseTaskNumericId (TaskRecord.id task))) l a in
  m = a \/ exists t, t ∈ l /\ Helpers.parseTaskNumericId (TaskRecord.id t) = m.
Proof.
  revert a. induction l as [|x l IH]; intros a; simpl; [left; reflexivity|].
  destruct (IH (Nat.max a (Helpers.parseTaskNumericId (TaskRecord.id x)))) as [H | (t & Hin & H)].
  - rewrite H. destruct (Nat.max_spec a (Helpers.parseTaskNumericId (TaskRecord.id x)))
      as [[_ ->] | [_ ->]]; [right | left; reflexivity].
    exists x. split; [left | reflexivity].
  - right. exists t. split; [right; exact Hin | exact H].
Qed.

(** The next task number is one more than the largest number among the
    identifiers, whatever the order of the listing. *)
Lemma nextTaskNumber_spec (l : list TaskRecord.t) n :
  nextTaskNumber l = S n <->
  (forall t, t ∈ l -> (Helpers.parseTaskNumericId (TaskRecord.id t) <= n)%nat) /\
  (n = 0%nat \/ exists t, t ∈ l /\ Helpers.parseTaskNumericId (TaskRecord.id t) = n).
Proof.
  unfold nextTaskNumber. pose proof (fold_max_attained l 0) as Hatt.
  pose proof (nextTaskNumber_above l) as Habove. unfold nextTaskNumber in Habove.
  cbv zeta in Hatt. split.
  - intros H. assert (Hn : fold_left (fun maxValue task =>
             Nat.max maxValue (Helpers.parseTaskNumericId (TaskRecord.id task))) l 0%nat = n)
      by lia.
    rewrite Hn in *. split.
    + intros t Hin. specialize (Habove t Hin). lia.
    + destruct Hatt as [Ha | Ha]; [left; congruence | right; exact Ha].
  - intros [Hle Hatt'].
    destruct Hatt as [Ha | (t & Hin & Ha)].
    + destruct Hatt' as [-> | (t & Hin & Ht)]; [lia|].
      specialize (Habove t Hin). lia.
    + specialize (Hle t Hin).
      destruct Hatt' as [-> | (t' & Hin' & Ht')]; [lia|].
      specialize (Habove t' Hin'). lia.
Qed.

Lemma listed_insert (m : gmap string TaskRecord.t) k t x :
  m !! k = None ->
  x ∈ (map_to_list (<[k := t]> m)).*2 <-> x = t \/ x ∈ (map_to_list m).*2.
Proof.
  intros Hk. rewrite !elem_of_listed. split.
  - intros [k' Hk']. destruct (decide (k = k')) as [<-|Hne].
    + rewrite lookup_insert_eq in Hk'. left. congruence.
    + rewrite lookup_insert_ne in Hk' by exact Hne. right. eauto.
  - intros [-> | [k' Hk']].
    + exists k. apply lookup_insert_eq.
    + exists k'. rewrite lookup_insert_ne; [exact Hk' | congruence].
Qed.

(** X6. What [createTask] returns can be read back: after a creation has
    returned a task, new or replayed, [getTask] with its identifier returns
    that very record and writes nothing. *)
Theorem created_task_is_readable stringify cfg now tid input key d d' t created :
  reachable stringify cfg d ->
  createTask cfg now tid input key d = (d', Ok (t, created)) ->
  getTask cfg (teamId cfg) (TaskRecord.id t) d' = (d', Ok t).
Proof.
  intros R Hrun. pose proof (reachable_good _ _ _ R) as G.
  unfold getTask, readTask. rewrite assertTeamId_ok. mrun.
  destruct created.
  - destruct (createTask_created_inv _ _ _ _ _ _ _ _ Hrun) as (_ & -> & _).
    rewrite lookup_insert_eq. reflexivity.
  - destruct (createTask_repeat_inv _ _ _ _ _ _ _ _ Hrun) as (-> & e & _ & Hk).
    rewrite <- (good_wf _ G _ _ Hk) in Hk. rewrite Hk. reflexivity.
Qed.

Lemma created_task_is_readable_witness :
  getTask exampleCfg "test-team" "task-0001" diskCreated = (diskCreated, Ok taskCreated).
Proof.
  apply (created_task_is_readable exampleStringify exampleCfg 1000 "test-team"
           exampleInput (Some "create-task-1") emptyDisk diskCreated taskCreated true).
  - apply reachable_fresh. split; reflexivity.
  - reflexivity.
Defined.

(** X7. Task identifiers count up. The identifier of a new task is
    [task-] followed by its number in at least four digits; the number is
    larger than the number of every task on disk, so the identifier is not
    in use; it is 1 on an empty store; and the next task created gets the
    next number. *)
Theorem task_ids_count_up stringify cfg d now1 tid1 input1 key1 d1 t1 :
  reachable stringify cfg d ->
  createTask cfg now1 tid1 input1 key1 d = (d1, Ok (t1, true)) ->
  let n1 := Helpers.parseTaskNumericId (TaskRecord.id t1) in
  TaskRecord.id t1 = Helpers.buildTaskId n1 /\
  taskFiles d !! TaskRecord.id t1 = None /\
  (forall k t, taskFiles d !! k = Some t -> (Helpers.parseTaskNumericId k < n1)%nat) /\
  (taskFiles d = ∅ -> TaskRecord.id t1 = "task-0001") /\
  (forall now2 tid2 input2 key2 d2 t2,
     createTask cfg now2 tid2 input2 key2 d1 = (d2, Ok (t2, true)) ->
     Helpers.parseTaskNumericId (TaskRecord.id t2) = S n1).
Proof.
  intros R Hrun n1. pose proof (reachable_good _ _ _ R) as G.
  pose proof (good_wf _ G) as Hwf.
  destruct (createTask_created_inv _ _ _ _ _ _ _ _ Hrun) as (Ht & Hfiles & _).
  assert (Hid : TaskRecord.id t1
                = Helpers.buildTaskId (nextTaskNumber (map_to_list (taskFiles d)).*2))
    by (rewrite Ht; reflexivity).
  assert (Hn1 : n1 = nextTaskNumber (map_to_list (taskFiles d)).*2)
    by (unfold n1; rewrite Hid; apply parseTaskNumericId_build).
  assert (Hfresh : taskFiles d !! TaskRecord.id t1 = None)
    by (rewrite Hid; apply minted_id_fresh, Hwf).
  split; [rewrite Hn1; exact Hid|]. split; [exact Hfresh|]. split; [|split].
  - intros k t Hk. rewrite Hn1. rewrite <- (Hwf _ _ Hk).
    apply nextTaskNumber_above. apply elem_of_listed. eauto.
  - intros Hempty. rewrite Hid, Hempty, map_to_list_empty. reflexivity.
  - intros now2 tid2 input2 key2 d2 t2 Hrun2.
    destruct (createTask_created_inv _ _ _ _ _ _ _ _ Hrun2) as (Ht2 & _ & _).
    assert (Hid2 : TaskRecord.id t2
                   = Helpers.buildTaskId (nextTaskNumber (map_to_list (taskFiles d1)).*2))
      by (rewrite Ht2; reflexivity).
    rewrite Hid2, parseTaskNumericId_build. apply nextTaskNumber_spec. split.
    + intros t Hin. rewrite Hfiles in Hin. apply listed_insert in Hin; [|exact Hfresh].
      destruct Hin as [-> | Hin]; [fold n1; lia|].
      apply nextTaskNumber_above in Hin. lia.
    + right. exists t1. split; [|reflexivity].
      rewrite Hfiles. apply listed_insert; [exact Hfresh | left; reflexivity].
Qed.

Lemma task_ids_count_up_witness :
  TaskRecord.id taskCreated = Helpers.buildTaskId 1 /\
  forall now2 tid2 input2 key2 d2 t2,
    createTask exampleCfg now2 tid2 input2 key2 diskCreated = (d2, Ok (t2, true)) ->
    Helpers.parseTaskNumericId (TaskRecord.id t2) = 2%nat.
Proof.
  destruct (task_ids_count_up exampleStringify exampleCfg emptyDisk 1000 "test-team"
              exampleInput (Some "create-task-1") diskCreated taskCreated)
    as (H1 & _ & _ & _ & H5).
  - apply reachable_fresh. split; reflexivity.
  - reflexivity.
  - split; [exact H1 | exact H5].
Defined.

(* ===================================================================== *)
(** ** The team record *)
(* ===================================================================== *)

(** The part of [initialize()] that the disk keeps: the default team
    record is written when there is no team file. (The directories it makes
    hold nothing.) *)
Definition initialize (cfg : StoreConfig) : M unit :=
  let* existingTeam := readTeam in
  match existingTeam with
  | Some _ => ret tt
  | None => writeTeam (Helpers.buildDefaultTeam (teamId cfg))
  end.

(** X8. The team record is written once. [createTeam] for the store's
    team returns the team on disk and writes nothing when there is one;
    otherwise it stores its payload and logs [team_created]. What it
    returned is what [getTeam], [listTeams] and every later [createTeam]
    return. On a store that [initialize] has opened there is always a team
    on disk, so [createTeam] never stores its payload there. *)
Theorem createTeam_writes_once cfg now team d :
  TeamRecord.teamId team = teamId cfg ->
  let r := createTeam cfg now team d in
  (forall existing, teamFile d = Some existing -> r = (d, Ok existing)) /\
  (teamFile d = None ->
     snd r = Ok team /\ teamFile (fst r) = Some team /\
     auditLog (fst r)
     = auditLog d ++ [AuditEvent.mk "teamd" "team_created" [("teamId", teamId cfg)] now]) /\
  (forall stored, snd r = Ok stored ->
     getTeam cfg (teamId cfg) (fst r) = (fst r, Ok stored) /\
     listTeams (fst r) = (fst r, Ok [stored]) /\
     forall now' team', TeamRecord.teamId team' = teamId cfg ->
       createTeam cfg now' team' (fst r) = (fst r, Ok stored)) /\
  (let opened := fst (initialize cfg d) in
   exists stored,
     teamFile opened = Some stored /\
     (teamFile d = None -> stored = TeamRecord.mk (teamId cfg) []) /\
     createTeam cfg now team opened = (opened, Ok stored)).
Proof.
  intros Hid r.
  assert (Hsome : forall now team d existing,
            TeamRecord.teamId team = teamId cfg -> teamFile d = Some existing ->
            createTeam cfg now team d = (d, Ok existing)).
  { intros now0 team0 d0 existing H0 He. unfold createTeam, readTeam.
    rewrite H0, assertTeamId_ok. mrun. rewrite He. reflexivity. }
  assert (Hread : forall d stored, teamFile d = Some stored ->
            getTeam cfg (teamId cfg) d = (d, Ok stored) /\ listTeams d = (d, Ok [stored])).
  { intros d0 stored He. unfold getTeam, listTeams, readTeam.
    rewrite assertTeamId_ok. mrun. rewrite He. split; reflexivity. }
  subst r. split; [|split; [|split]].
  - intros existing He. apply Hsome; assumption.
  - intros Hn. unfold createTeam, readTeam. rewrite Hid, assertTeamId_ok. mrun.
    rewrite Hn. unfold writeTeam, appendAuditEvent. mrun. simpl. auto.
  - intros stored Hret.
    assert (Hfile : teamFile (fst (createTeam cfg now team d)) = Some stored).
    { destruct (teamFile d) as [existing|] eqn:He.
      - rewrite (Hsome _ _ _ _ Hid He) in Hret |- *. simpl in *. congruence.
      - revert Hret. unfold createTeam, readTeam. rewrite Hid, assertTeamId_ok. mrun.
        rewrite He. unfold writeTeam, appendAuditEvent. mrun. simpl. congruence. }
    destruct (Hread _ _ Hfile) as [H1 H2]. split; [exact H1|]. split; [exact H2|].
    intros now' team' Hid'. apply Hsome; assumption.
  - cbv zeta. unfold initialize, readTeam. mrun.
    destruct (teamFile d) as [existing|] eqn:He.
    + exists existing. simpl. split; [exact He|]. split; [discriminate|].
      apply Hsome; assumption.
    + eexists. unfold writeTeam. mrun. simpl. split; [reflexivity|].
      split; [reflexivity|]. apply Hsome; [assumption | reflexivity].
Qed.

Lemma createTeam_writes_once_witness :
  let payload := TeamRecord.mk "test-team" [Agent.mk "agent-a" "worker" None] in
  createTeam exampleCfg 10 payload (fst (initialize exampleCfg emptyDisk))
  = (fst (initialize exampleCfg emptyDisk), Ok (TeamRecord.mk "test-team" [])).
Proof.
  cbv zeta.
  destruct (createTeam_writes_once exampleCfg 10
              (TeamRecord.mk "test-team" [Agent.mk "agent-a" "worker" None]) emptyDisk
              eq_refl) as (_ & _ & _ & stored & Hfile & Hdefault & Hrun).
  rewrite (Hdefault eq_refl) in Hrun. exact Hrun.
Defined.

(* ===================================================================== *)
(** ** Inboxes *)
(* ===================================================================== *)

(** The inbox [appendInboxEvent] writes for one recipient: the event gets
    the next cursor and goes to the end. *)
Definition deliver (teamIdOfStore : string) (now : Z) (event : InboxEvent.t)
    (agentId : string) (state : InboxState.t) : InboxState.t :=
  let cursor := InboxState.nextCursor state + 1 in
  InboxState.mk cursor
    (InboxState.events state ++
     [InboxEventRecord.mk cursor (InboxEvent.type event) teamIdOfStore agentId
        (InboxEvent.taskId event) (InboxEvent.threadId event)
        (InboxEvent.actor event) (InboxEvent.summary event)
        (InboxEvent.content event) now]).

(** An inbox and a later state of it: events were added at the end, each
    under the next cursor. *)
Inductive appended (st : InboxState.t) : InboxState.t -> Prop :=
| appended_none : appended st st
| appended_one st' ev :
    appended st st' ->
    InboxEventRecord.cursor ev = InboxState.nextCursor st' + 1 ->
    appended st (InboxState.mk (InboxState.nextCursor st' + 1)
                   (InboxState.events st' ++ [ev])).

Lemma appended_trans st1 st2 st3 :
  appended st1 st2 -> appended st2 st3 -> appended st1 st3.
Proof.
  intros H12 H23. induction H23 as [|st' ev H23 IH Hc]; [exact H12|].
  apply appended_one; assumption.
Qed.

Lemma appended_deliver tid now event a st : appended st (deliver tid now event a st).
Proof. unfold deliver. apply appended_one; [apply appended_none | reflexivity]. Qed.

(** The inbox of an agent; a missing file reads as the empty inbox. *)
Definition inboxOf (files : gmap string InboxState.t) (agentId : string) : InboxState.t :=
  default (InboxState.mk 0 []) (files !! agentId).

Definition inboxRel (files files' : gmap string InboxState.t) : Prop :=
  forall a, appended (inboxOf files a) (inboxOf files' a) /\
            (is_Some (files !! a) -> is_Some (files' !! a)).

Lemma inboxRel_refl files : inboxRel files files.
Proof. intros a. split; [apply appended_none | auto]. Qed.

Lemma inboxRel_trans f1 f2 f3 : inboxRel f1 f2 -> inboxRel f2 f3 -> inboxRel f1 f3.
Proof.
  intros H12 H23 a. destruct (H12 a) as [A1 S1]. destruct (H23 a) as [A2 S2].
  split; [eapply appended_trans; eauto | auto].
Qed.

(** [inboxSafe m]: [m] removes no inbox and only appends to inboxes. *)
Definition inboxSafe {A} (m : M A) : Prop :=
  forall d, inboxRel (inboxFiles d) (inboxFiles (fst (m d))).

Lemma inboxSafe_ret {A} (a : A) : inboxSafe (ret a).
Proof. intros d. apply inboxRel_refl. Qed.

Lemma inboxSafe_throw {A} e : inboxSafe (@throw A e).
Proof. intros d. apply inboxRel_refl. Qed.

Lemma inboxSafe_gets {A} (f : Disk -> A) : inboxSafe (gets f).
Proof. intros d. apply inboxRel_refl. Qed.

Lemma inboxSafe_modify (f : Disk -> Disk) :
  (forall d, inboxFiles (f d) = inboxFiles d) -> inboxSafe (modify f).
Proof. intros Hf d. simpl. rewrite Hf. apply inboxRel_refl. Qed.

Lemma inboxSafe_bind {A B} (m : M A) (k : A -> M B) :
  inboxSafe m -> (forall a, inboxSafe (k a)) -> inboxSafe (bind m k).
Proof.
  intros Hm Hk d. unfold bind. specialize (Hm d).
  destruct (m d) as [d1 [a|e]]; simpl in *; [|exact Hm].
  eapply inboxRel_trans; [exact Hm | apply Hk].
Qed.

Lemma inboxSafe_forEachM {A} (f : A -> M unit) (l : list A) :
  (forall a, inboxSafe (f a)) -> inboxSafe (forEachM f l).
Proof.
  intros Hf. induction l as [|x l IH]; simpl.
  - apply inboxSafe_ret.
  - apply inboxSafe_bind; [apply Hf | intros _; exact IH].
Qed.

Lemma inboxSafe_mapM {A B} (f : A -> M B) (l : list A) :
  (forall a, inboxSafe (f a)) -> inboxSafe (mapM f l).
Proof.
  intros Hf. induction l as [|x l IH]; simpl.
  - apply inboxSafe_ret.
  - apply inboxSafe_bind; [apply Hf | intros y].
    apply inboxSafe_bind; [exact IH | intros ys; apply inboxSafe_ret].
Qed.

(** Reading an inbox, which creates the file when it is missing. *)
Lemma inboxSafe_readInbox a b : inboxSafe (readInbox a b).
Proof.
  intros d. unfold readInbox. mrun.
  destruct (inboxFiles d !! a) as [st|] eqn:Ha; [apply inboxRel_refl|].
  destruct b; [|apply inboxRel_refl].
  unfold writeInbox. mrun. simpl. intros a'. unfold inboxOf.
  destruct (decide (a = a')) as [<-|Hne].
  - rewrite lookup_insert_eq, Ha. simpl. split; [apply appended_none | eauto].
  - rewrite lookup_insert_ne by exact Hne. split; [apply appended_none | auto].
Qed.

(** The read and the write of [appendInboxEvent] for one recipient. *)
Lemma deliver_run tid now event a d :
  bind (readInbox a true) (fun state => writeInbox a (deliver tid now event a state)) d
  = (setInboxFiles (<[a := deliver tid now event a (inboxOf (inboxFiles d) a)]>
                      (inboxFiles d)) d, Ok tt).
Proof.
  unfold readInbox, inboxOf. mrun.
  destruct (inboxFiles d !! a) as [st|] eqn:Ha; unfold writeInbox; mrun; simpl.
  - reflexivity.
  - unfold modify, setInboxFiles. simpl. rewrite insert_insert_eq. reflexivity.
Qed.

Lemma inboxSafe_deliver tid now event a :
  inboxSafe (bind (readInbox a true)
                  (fun state => writeInbox a (deliver tid now event a state))).
Proof.
  intros d. rewrite deliver_run. simpl. intros a'. unfold inboxOf.
  destruct (decide (a = a')) as [<-|Hne].
  - rewrite lookup_insert_eq. simpl. split; [apply appended_deliver | eauto].
  - rewrite lookup_insert_ne by exact Hne. split; [apply appended_none | auto].
Qed.

Lemma inboxSafe_appendInboxEvent cfg now recipients event :
  inboxSafe (appendInboxEvent cfg now recipients event).
Proof.
  unfold appendInboxEvent. apply inboxSafe_forEachM. intros raw.
  apply inboxSafe_bind.
  - unfold ensureAgentId. destruct (negb _); [apply inboxSafe_throw | apply inboxSafe_ret].
  - intros a. apply (inboxSafe_deliver (teamId cfg) now event a).
Qed.

Ltac inbox_tac :=
  repeat first
    [ apply inboxSafe_ret | apply inboxSafe_throw | apply inboxSafe_gets
    | apply inboxSafe_appendInboxEvent
    | apply inboxSafe_readInbox
    | apply inboxSafe_modify; intros ?; reflexivity
    | apply inboxSafe_bind; [| intros ?]
    | apply inboxSafe_forEachM; intros ?
    | apply inboxSafe_mapM; intros ?
    | progress cbv zeta
    | match goal with
      | |- inboxSafe (if ?b then _ else _) => destruct b
      | |- inboxSafe (match ?o with _ => _ end) => destruct o
      end ].

Section InboxHistory.
Variable JSON_stringify : Json -> string.
Variable cfg : StoreConfig.

Lemma inboxSafe_claimTask now tid input : inboxSafe (claimTask cfg now tid input).
Proof.
  unfold claimTask, assertTeamId, loadTaskOrThrow, readTask, writeTask,
    appendAuditEvent, broadcastRecipients, readTeam, listInboxAgents.
  inbox_tac.
Qed.

Lemma inboxSafe_finalizeTask now input f : inboxSafe (finalizeTask cfg now input f).
Proof.
  unfold finalizeTask, loadTaskOrThrow, readTask, writeTask,
    appendAuditEvent, broadcastRecipients, readTeam, listInboxAgents.
  inbox_tac.
Qed.

Lemma inboxSafe_runOp op : forall d,
  inboxRel (inboxFiles d) (inboxFiles (runOp JSON_stringify cfg op d)).
Proof.
  destruct op; simpl;
    match goal with |- forall d, inboxRel _ (inboxFiles (fst (?m d))) =>
      change (inboxSafe m) end.
  - unfold createTeam, assertTeamId, readTeam, writeTeam, appendAuditEvent. inbox_tac.
  - unfold createTask, createFreshTask, assertTeamId, readTask, listTasksUnsafe,
      writeTask, appendAuditEvent. inbox_tac.
  - apply inboxSafe_claimTask.
  - unfold renewTask, assertTeamId, loadTaskOrThrow, readTask, writeTask,
      appendAuditEvent. inbox_tac.
  - unfold completeTask, unlockDependents, assertTeamId, listTasksUnsafe, writeTask,
      appendAuditEvent.
    apply inboxSafe_bind; [inbox_tac | intros _].
    apply inboxSafe_bind; [apply inboxSafe_finalizeTask | intros t]. inbox_tac.
  - unfold failTask, assertTeamId.
    apply inboxSafe_bind; [inbox_tac | intros _]. apply inboxSafe_finalizeTask.
  - unfold startThread, assertTeamId, ensureAgentId, readThreadIndex, loadTaskOrThrow,
      readTask, writeThreadIndex, appendAuditEvent. inbox_tac.
  - unfold postThreadMessage, assertTeamId, ensureAgentId, readThreadIndex,
      appendThreadLine, writeThreadIndex, appendAuditEvent. inbox_tac.
  - unfold linkThreadToTask, assertTeamId, loadTaskOrThrow, readTask, readThreadIndex,
      writeThreadIndex, appendAuditEvent. inbox_tac.
  - unfold fetchInbox, assertTeamId, ensureAgentId. inbox_tac.
Qed.

Lemma inboxSafe_runOps ops : forall d,
  inboxRel (inboxFiles d) (inboxFiles (runOps JSON_stringify cfg ops d)).
Proof.
  induction ops as [|op ops IH]; intros d; simpl; [apply inboxRel_refl|].
  eapply inboxRel_trans; [apply inboxSafe_runOp | apply IH].
Qed.

End InboxHistory.

(** The cursors [first + 1], ..., [first + n]. *)
Definition cursorsAfter (first : Z) (n : nat) : list Z :=
  map (fun i => first + Z.of_nat i) (seq 1 n).

Lemma cursorsAfter_S first n :
  cursorsAfter first (S n) = cursorsAfter first n ++ [first + Z.of_nat (S n)].
Proof. unfold cursorsAfter. rewrite seq_S, map_app. reflexivity. Qed.

Lemma appended_spec st st' :
  appended st st' ->
  exists new,
    InboxState.events st' = InboxState.events st ++ new /\
    InboxState.nextCursor st' = InboxState.nextCursor st + Z.of_nat (length new) /\
    map InboxEventRecord.cursor new = cursorsAfter (InboxState.nextCursor st) (length new).
Proof.
  induction 1 as [|st' ev H (new & He & Hn & Hc) Hev].
  - exists []. rewrite app_nil_r. simpl. split; [reflexivity|]. split; [lia | reflexivity].
  - exists (new ++ [ev]). simpl. rewrite He, Hn, app_assoc, length_app. simpl.
    split; [reflexivity|]. split; [lia|].
    rewrite Nat.add_1_r, cursorsAfter_S, map_app, Hc. simpl.
    rewrite Hev, Hn. do 2 f_equal. lia.
Qed.

(** X9. Inboxes only grow. Whatever is called on the store, no inbox file
    is removed, the events an inbox held stay at its head in the same
    order, the events added behind them carry the cursors that follow the
    old [nextCursor] one by one, and [nextCursor] has advanced by their
    number. A missing inbox counts as the empty inbox with [nextCursor]
    0. *)
Theorem inboxes_only_grow stringify cfg ops d a :
  let before := inboxOf (inboxFiles d) a in
  let after := inboxOf (inboxFiles (runOps stringify cfg ops d)) a in
  (is_Some (inboxFiles d !! a) ->
   is_Some (inboxFiles (runOps stringify cfg ops d) !! a)) /\
  exists new,
    InboxState.events after = InboxState.events before ++ new /\
    map InboxEventRecord.cursor new
    = cursorsAfter (InboxState.nextCursor before) (length new) /\
    InboxState.nextCursor after
    = InboxState.nextCursor before + Z.of_nat (length new).
Proof.
  intros before after.
  destruct (inboxSafe_runOps stringify cfg ops d a) as [Happ Hsome].
  split; [exact Hsome|].
  destruct (appended_spec _ _ Happ) as (new & H1 & H2 & H3). exists new. auto.
Qed.

(** The store made the inbox: it grew from the empty inbox. *)
Definition storeMade (st : InboxState.t) : Prop :=
  appended (InboxState.mk 0 []) st.

Lemma storeMade_spec st :
  storeMade st ->
  map InboxEventRecord.cursor (InboxState.events st)
  = cursorsAfter 0 (length (InboxState.events st)) /\
  InboxState.nextCursor st = Z.of_nat (length (InboxState.events st)).
Proof.
  intros H. destruct (appended_spec _ _ H) as (new & H1 & H2 & H3). simpl in *.
  rewrite H1. split; [exact H3 | exact H2].
Qed.

(** [cursorFloor] of [fetchInbox]. *)
Definition sinceFloor (since : option string) : Z :=
  match Helpers.parseInt10 (default "0" since) with
  | Helpers.Finite sinceCursor => if 0 <? sinceCursor then sinceCursor else 0
  | _ => 0
  end.

Lemma sinceFloor_nonneg since : 0 <= sinceFloor since.
Proof.
  unfold sinceFloor. destruct (Helpers.parseInt10 _) as [| |c]; [lia | lia |].
  destruct (Z.ltb_spec 0 c); lia.
Qed.

(** Events whose cursors count up from [first + 1]: those above a floor
    are those behind the first [floor - first] of them. *)
Lemma filter_above (events : list InboxEventRecord.t) first floor :
  map InboxEventRecord.cursor events = cursorsAfter first (length events) ->
  first <= floor ->
  filter (fun event => floor < InboxEventRecord.cursor event) events
  = drop (Z.to_nat (floor - first)) events.
Proof.
  revert first. induction events as [|ev events IH]; intros first Hc Hle.
  - rewrite drop_nil. reflexivity.
  - unfold cursorsAfter in Hc. simpl in Hc. inversion Hc as [[Hev Hrest]].
    assert (Hrest' : map InboxEventRecord.cursor events
                     = cursorsAfter (first + 1) (length events)).
    { rewrite Hrest. unfold cursorsAfter. rewrite <- seq_shift, map_map.
      apply map_ext. intros i. lia. }
    rewrite filter_cons. destruct (decide (floor < InboxEventRecord.cursor ev)) as [Hlt|Hge].
    + assert (floor = first) by lia. subst floor.
      replace (Z.to_nat (first - first)) with 0%nat by lia. simpl. f_equal.
      clear IH Hc Hrest.
      assert (Hall : forall l : list InboxEventRecord.t, forall base,
                map InboxEventRecord.cursor l = cursorsAfter base (length l) ->
                first <= base ->
                filter (fun event => first < InboxEventRecord.cursor event) l = l).
      { induction l as [|x l IHl]; intros base Hb Hfb; [reflexivity|].
        unfold cursorsAfter in Hb. simpl in Hb. inversion Hb as [[Hx Hl]].
        rewrite filter_cons, decide_True by lia. f_equal.
        apply (IHl (base + 1)); [|lia].
        rewrite Hl. unfold cursorsAfter. rewrite <- seq_shift, map_map.
        apply map_ext. intros i. lia. }
      apply (Hall events (first + 1)); [exact Hrest' | lia].
    + replace (Z.to_nat (floor - first)) with (S (Z.to_nat (floor - (first + 1)))) by lia.
      simpl. apply IH; [exact Hrest' | lia].
Qed.

Lemma cursorsAfter_last (events : list InboxEventRecord.t) first ev :
  map InboxEventRecord.cursor events = cursorsAfter first (length events) ->
  last events = Some ev ->
  InboxEventRecord.cursor ev = first + Z.of_nat (length events).
Proof.
  intros Hc Hl. apply last_Some in Hl as [l' ->].
  rewrite length_app, Nat.add_1_r in Hc |- *. rewrite cursorsAfter_S, map_app in Hc.
  simpl in Hc. apply app_inj_tail in Hc as [_ Hc]. exact Hc.
Qed.

Lemma last_drop_some {A} (l : list A) k x :
  last (drop k l) = Some x -> last l = Some x.
Proof.
  intros H. apply last_Some in H as [l' H]. apply last_Some.
  exists (take k l ++ l'). rewrite <- app_assoc, <- H. symmetry. apply take_drop.
Qed.

Lemma fetchInbox_made cfg agentId since d st :
  Str.isIdentifier (Str.trim agentId) = true ->
  inboxFiles d !! Str.trim agentId = Some st -> storeMade st ->
  fetchInbox cfg (teamId cfg) agentId since d
  = (d, Ok (drop (Z.to_nat (sinceFloor since)) (InboxState.events st),
            Z.max (sinceFloor since) (InboxState.nextCursor st))).
Proof.
  intros Hid Ha Hmade. destruct (storeMade_spec _ Hmade) as [Hc Hn].
  pose proof (sinceFloor_nonneg since) as Hfloor.
  unfold fetchInbox, ensureAgentId, readInbox. rewrite assertTeamId_ok. mrun.
  rewrite Hid. cbn [negb]. mrun. rewrite Ha. mrun. fold (sinceFloor since).
  rewrite (filter_above _ 0 (sinceFloor since) Hc Hfloor), Z.sub_0_r.
  unfold ret. do 3 f_equal.
  destruct (last (drop _ _)) as [ev|] eqn:Hlast.
  - assert (Hlen : (Z.to_nat (sinceFloor since) < length (InboxState.events st))%nat).
    { destruct (Nat.lt_ge_cases (Z.to_nat (sinceFloor since))
                  (length (InboxState.events st))) as [H|H]; [exact H|].
      rewrite drop_ge in Hlast by exact H. discriminate. }
    apply last_drop_some in Hlast.
    rewrite (cursorsAfter_last _ 0 _ Hc Hlast). lia.
  - destruct (drop _ _) as [|x l] eqn:Hd.
    + assert (Hlen : (length (InboxState.events st) <= Z.to_nat (sinceFloor since))%nat).
      { apply (f_equal length) in Hd. rewrite length_drop in Hd. simpl in Hd. lia. }
      reflexivity.
    + exfalso. revert Hlast. clear. revert x.
      induction l as [|y l IH]; intros x; [discriminate|]. simpl. apply IH.
Qed.

(** X10. Polling an inbox that the store made, for an agent whose
    identifier is valid, writes nothing and returns the events behind the
    first [floor] ones, where [floor] is the number that [Number.parseInt]
    reads from [since], rounded as a double is (0 when [since] is missing
    or the number is not finite or not positive), and as [nextSince] the
    larger of [floor] and [nextCursor]. When [floor] does not exceed
    [nextCursor], a later poll that passes this [nextSince] returns exactly
    the events added in between: none twice, none lost. *)
Theorem fetchInbox_pages cfg agentId since d st :
  Str.isIdentifier (Str.trim agentId) = true ->
  inboxFiles d !! Str.trim agentId = Some st -> storeMade st ->
  let floor := sinceFloor since in
  fetchInbox cfg (teamId cfg) agentId since d
  = (d, Ok (drop (Z.to_nat floor) (InboxState.events st),
            Z.max floor (InboxState.nextCursor st))) /\
  (floor <= InboxState.nextCursor st ->
   forall d2 st2 since2,
     inboxFiles d2 !! Str.trim agentId = Some st2 -> appended st st2 ->
     sinceFloor since2 = Z.max floor (InboxState.nextCursor st) ->
     exists new,
       InboxState.events st2 = InboxState.events st ++ new /\
       fetchInbox cfg (teamId cfg) agentId since2 d2
       = (d2, Ok (new, InboxState.nextCursor st2))).
Proof.
  intros Hid Ha Hmade floor. split; [apply fetchInbox_made; assumption|].
  intros Hle d2 st2 since2 Ha2 Happ Hsince.
  destruct (appended_spec _ _ Happ) as (new & He & Hn & _).
  destruct (storeMade_spec _ Hmade) as [_ Hlen].
  exists new. split; [exact He|].
  rewrite (fetchInbox_made cfg agentId since2 d2 st2 Hid Ha2
             (appended_trans _ _ _ Hmade Happ)).
  rewrite Hsince, Z.max_r by exact Hle. rewrite Hlen at 1. rewrite Nat2Z.id.
  rewrite He, drop_app_length. do 3 f_equal. lia.
Qed.

(** A history with an inbox: agent-b polls (which makes its inbox), a task
    is created, agent-a claims it, and the claim is broadcast. *)
Definition pollingHistory : list Op :=
  [ OpFetchInbox "test-team" "agent-b" None;
    OpCreateTask 1000 "test-team" exampleInput None;
    OpClaimTask 2000 "test-team" exampleClaim ].

Definition diskPolled : Disk := runOps exampleStringify exampleCfg pollingHistory emptyDisk.

Definition inboxPolled : InboxState.t :=
  Eval vm_compute in inboxOf (inboxFiles diskPolled) "agent-b".

Lemma inboxes_only_grow_witness :
  is_Some (inboxFiles
             (runOps exampleStringify exampleCfg
                [OpCompleteTask 2010 "test-team"
                   (FinalizeTaskInput.mk "task-0001" "agent-a" 1)]
                diskPolled) !! "agent-b").
Proof.
  destruct (inboxes_only_grow exampleStringify exampleCfg
              [OpCompleteTask 2010 "test-team"
                 (FinalizeTaskInput.mk "task-0001" "agent-a" 1)]
              diskPolled "agent-b") as (H & _).
  apply H. eexists. vm_compute. reflexivity.
Defined.

Lemma inboxPolled_made : storeMade inboxPolled.
Proof.
  pose proof (inboxSafe_runOps exampleStringify exampleCfg pollingHistory emptyDisk
                "agent-b") as [H _].
  exact H.
Defined.

Lemma fetchInbox_pages_witness :
  InboxState.nextCursor inboxPolled = 1 /\
  fetchInbox exampleCfg "test-team" " agent-b " None diskPolled
  = (diskPolled, Ok (InboxState.events inboxPolled, 1)) /\
  fetchInbox exampleCfg "test-team" " agent-b " (Some "1") diskPolled
  = (diskPolled, Ok ([], 1)).
Proof.
  split; [reflexivity|].
  destruct (fetchInbox_pages exampleCfg " agent-b " None diskPolled inboxPolled)
    as [Hfirst Hnext].
  - reflexivity.
  - vm_compute. reflexivity.
  - exact inboxPolled_made.
  - split; [exact Hfirst|].
    destruct (Hnext ltac:(vm_compute; discriminate) diskPolled inboxPolled (Some "1"))
      as (new & Hnew & Hrun).
    + vm_compute. reflexivity.
    + apply appended_none.
    + reflexivity.
    + refine (eq_trans Hrun _). do 3 f_equal.
      apply (f_equal length) in Hnew. rewrite length_app in Hnew.
      destruct new; [reflexivity | simpl in Hnew; lia].
Defined.

(** *** The fan-out of [appendInboxEvent] *)

Lemma dedupeFrom_fresh seen l x : x ∈ Str.dedupeFrom seen l -> x ∉ seen.
Proof.
  revert seen. induction l as [|y l IH]; intros seen; simpl; [intros H; inversion H|].
  case_bool_decide as Hy.
  - apply IH.
  - intros H. apply elem_of_cons in H as [-> | H]; [exact Hy|].
    apply IH in H. intros Hin. apply H. right. exact Hin.
Qed.

Lemma dedupeFrom_NoDup seen l : NoDup (Str.dedupeFrom seen l).
Proof.
  revert seen. induction l as [|y l IH]; intros seen; simpl; [constructor|].
  case_bool_decide as Hy; [apply IH|].
  constructor; [|apply IH].
  intros Hin. apply dedupeFrom_fresh in Hin. apply Hin. left.
Qed.

Lemma dedupeFrom_complete seen l x :
  x ∈ l -> x ∉ seen -> x ∈ Str.dedupeFrom seen l.
Proof.
  revert seen. induction l as [|y l IH]; intros seen Hin Hseen; [inversion Hin|].
  simpl. apply elem_of_cons in Hin as [-> | Hin].
  - rewrite bool_decide_eq_false_2 by exact Hseen. left.
  - case_bool_decide as Hy; [apply IH; assumption|].
    destruct (decide (x = y)) as [->|Hne]; [left|right].
    apply IH; [exact Hin|]. intros H. apply elem_of_cons in H as [H|H]; contradiction.
Qed.

Lemma elem_of_dedupe l x : x ∈ Str.dedupe l <-> x ∈ l.
Proof.
  split; [apply dedupeFrom_subset|].
  intros H. apply dedupeFrom_complete; [exact H | intros H'; inversion H'].
Qed.

(** The inbox files after an event went to the agents of [l], one after
    the other. *)
Definition deliverAll (tid : string) (now : Z) (event : InboxEvent.t)
    (l : list string) (files : gmap string InboxState.t) : gmap string InboxState.t :=
  fold_left (fun files a => <[a := deliver tid now event a (inboxOf files a)]> files)
            l files.

Lemma deliverAll_lookup tid now event l files a :
  NoDup l ->
  deliverAll tid now event l files !! a
  = if bool_decide (a ∈ l) then Some (deliver tid now event a (inboxOf files a))
    else files !! a.
Proof.
  revert files. induction l as [|x l IH]; intros files Hnd; [reflexivity|].
  apply NoDup_cons in Hnd as [Hx Hnd]. unfold deliverAll in *. simpl.
  rewrite IH by exact Hnd. destruct (decide (a = x)) as [->|Hne].
  - rewrite (bool_decide_eq_false_2 _ Hx), bool_decide_eq_true_2 by left.
    apply lookup_insert_eq.
  - case_bool_decide as Hin.
    + rewrite bool_decide_eq_true_2 by (right; exact Hin).
      unfold inboxOf. rewrite lookup_insert_ne by congruence. reflexivity.
    + rewrite bool_decide_eq_false_2.
      * apply lookup_insert_ne. congruence.
      * intros H. apply elem_of_cons in H as [H|H]; contradiction.
Qed.

(** The loop of [appendInboxEvent] over recipients with valid
    identifiers, and what happens at the first one that is not. *)
Lemma fanout_loop cfg now event (valid rest : list string) d :
  Forall (fun a => Str.isIdentifier a = true) valid ->
  match rest with
  | [] => True
  | bad :: _ => Str.isIdentifier bad = false
  end ->
  forEachM (fun rawAgentId =>
    let* agentId := ensureAgentId rawAgentId in
    let* state := readInbox agentId true in
    writeInbox agentId (deliver (teamId cfg) now event agentId state))
    (valid ++ rest) d
  = (setInboxFiles (deliverAll (teamId cfg) now event valid (inboxFiles d)) d,
     match rest with
     | [] => Ok tt
     | _ :: _ => Err (TeamdStoreError 400 INVALID_AGENT_ID)
     end).
Proof.
  intros Hvalid Hrest. revert d.
  induction Hvalid as [|a valid Ha Hvalid IH]; intros d.
  - simpl. unfold deliverAll. simpl.
    assert (Hd : setInboxFiles (inboxFiles d) d = d) by (destruct d; reflexivity).
    rewrite Hd. destruct rest as [|bad rest]; [reflexivity|].
    simpl. unfold ensureAgentId. rewrite Hrest. reflexivity.
  - change (forEachM ?f ((a :: valid) ++ rest) d)
      with (bind (f a) (fun _ => forEachM f (valid ++ rest)) d).
    unfold ensureAgentId at 1. rewrite Ha. cbn [negb]. rewrite bind_bind, bind_ret.
    unfold bind at 1. rewrite deliver_run. rewrite IH. reflexivity.
Qed.

(** The recipients [appendInboxEvent] writes to. *)
Definition uniqueRecipients (recipients : list string) : list string :=
  Str.dedupe (filter (fun a => Is_true (Str.nonEmpty a)) (map Str.trim recipients)).

Lemma appendInboxEvent_loop cfg now recipients event :
  appendInboxEvent cfg now recipients event
  = forEachM (fun rawAgentId =>
      let* agentId := ensureAgentId rawAgentId in
      let* state := readInbox agentId true in
      writeInbox agentId (deliver (teamId cfg) now event agentId state))
      (uniqueRecipients recipients).
Proof. reflexivity. Qed.



(** *** Who is told about a task *)

(** [keepsField proj m]: [m] leaves the part [proj] of the disk as it
    was. *)
Definition keepsField {F A} (proj : Disk -> F) (m : M A) : Prop :=
  forall d, proj (fst (m d)) = proj d.

Lemma keepsField_ret {F A} (proj : Disk -> F) (a : A) : keepsField proj (ret a).
Proof. intros d. reflexivity. Qed.

Lemma keepsField_throw {F A} (proj : Disk -> F) e : keepsField proj (@throw A e).
Proof. intros d. reflexivity. Qed.

Lemma keepsField_gets {F A} (proj : Disk -> F) (f : Disk -> A) : keepsField proj (gets f).
Proof. intros d. reflexivity. Qed.

Lemma keepsField_modify {F} (proj : Disk -> F) (f : Disk -> Disk) :
  (forall d, proj (f d) = proj d) -> keepsField proj (modify f).
Proof. intros Hf d. apply Hf. Qed.

Lemma keepsField_bind {F A B} (proj : Disk -> F) (m : M A) (k : A -> M B) :
  keepsField proj m -> (forall a, keepsField proj (k a)) -> keepsField proj (bind m k).
Proof.
  intros Hm Hk d. unfold bind. specialize (Hm d).
  destruct (m d) as [d1 [a|e]]; simpl in *; [|exact Hm].
  rewrite Hk. exact Hm.
Qed.

Lemma keepsField_forEachM {F A} (proj : Disk -> F) (f : A -> M unit) (l : list A) :
  (forall a, keepsField proj (f a)) -> keepsField proj (forEachM f l).
Proof.
  intros Hf. induction l as [|x l IH]; simpl.
  - apply keepsField_ret.
  - apply keepsField_bind; [apply Hf | intros _; exact IH].
Qed.

Lemma keepsField_mapM {F A B} (proj : Disk -> F) (f : A -> M B) (l : list A) :
  (forall a, keepsField proj (f a)) -> keepsField proj (mapM f l).
Proof.
  intros Hf. induction l as [|x l IH]; simpl.
  - apply keepsField_ret.
  - apply keepsField_bind; [apply Hf | intros y].
    apply keepsField_bind; [exact IH | intros ys; apply keepsField_ret].
Qed.

Ltac field_tac :=
  repeat first
    [ apply keepsField_ret | apply keepsField_throw | apply keepsField_gets
    | apply keepsField_modify; intros ?; reflexivity
    | apply keepsField_bind; [| intros ?]
    | apply keepsField_forEachM; intros ?
    | apply keepsField_mapM; intros ?
    | progress cbv zeta
    | match goal with
      | |- keepsField _ (if ?b then _ else _) => destruct b
      | |- keepsField _ (match ?o with _ => _ end) => destruct o
      end ].

(** What [broadcastRecipients()] returns: the agents of the team file and
    the names of the inbox files. *)
Definition broadcastList (d : Disk) : list string :=
  Str.dedupe
    (match teamFile d with
     | Some team =>
         filter (fun a => Is_true (Str.nonEmpty a)) (map Agent.id (TeamRecord.agents team))
     | None => []
     end ++
     filter (fun a => Is_true (Str.nonEmpty a)) (map_to_list (inboxFiles d)).*1).

Lemma broadcastRecipients_run d : broadcastRecipients d = (d, Ok (broadcastList d)).
Proof.
  unfold broadcastRecipients, readTeam, listInboxAgents, broadcastList. mrun.
  destruct (teamFile d); reflexivity.
Qed.

(** The inboxes a task event goes to. *)
Definition audience (d : Disk) : list string := uniqueRecipients (broadcastList d).

(** The inboxes of [d'] are those of [d] with [event] delivered to the
    audience of [d]. *)
Definition broadcast (cfg : StoreConfig) (now : Z) (event : InboxEvent.t)
    (d d' : Disk) : Prop :=
  forall a,
    inboxFiles d' !! a
    = if bool_decide (a ∈ audience d)
      then Some (deliver (teamId cfg) now event a (inboxOf (inboxFiles d) a))
      else inboxFiles d !! a.

Lemma first_invalid (l : list string) :
  Forall (fun a => Str.isIdentifier a = true) l \/
  exists valid bad rest,
    l = valid ++ bad :: rest /\
    Forall (fun a => Str.isIdentifier a = true) valid /\
    Str.isIdentifier bad = false.
Proof.
  induction l as [|x l [IH | (valid & bad & rest & -> & Hv & Hb)]].
  - left. constructor.
  - destruct (Str.isIdentifier x) eqn:Hx.
    + left. constructor; assumption.
    + right. exists [], x, l. repeat split; [constructor | exact Hx].
  - destruct (Str.isIdentifier x) eqn:Hx.
    + right. exists (x :: valid), bad, rest. repeat split; [|exact Hb].
      constructor; assumption.
    + right. exists [], x, (valid ++ bad :: rest). repeat split; [constructor | exact Hx].
Qed.

Lemma appendInboxEvent_returned cfg now recipients event d :
  snd (appendInboxEvent cfg now recipients event d) = Ok tt ->
  fst (appendInboxEvent cfg now recipients event d)
  = setInboxFiles
      (deliverAll (teamId cfg) now event (uniqueRecipients recipients) (inboxFiles d)) d.
Proof.
  rewrite appendInboxEvent_loop.
  destruct (first_invalid (uniqueRecipients recipients))
    as [Hvalid | (valid & bad & rest & Hsplit & Hvalid & Hbad)].
  - pose proof (fanout_loop cfg now event _ [] d Hvalid I) as Hrun.
    rewrite app_nil_r in Hrun. rewrite Hrun. reflexivity.
  - pose proof (fanout_loop cfg now event valid (bad :: rest) d Hvalid Hbad) as Hrun.
    rewrite <- Hsplit in Hrun. rewrite Hrun. discriminate.
Qed.

Lemma notifyAndReturn_broadcasts {A} cfg now actor type refs event (v : A) d d' x :
  notifyAndReturn cfg now actor type refs event v d = (d', Ok x) ->
  broadcast cfg now event d d' /\ taskFiles d' = taskFiles d.
Proof.
  unfold notifyAndReturn, appendAuditEvent. mrun.
  match goal with |- context [bind broadcastRecipients _ ?x1] => set (d1 := x1) end.
  unfold bind at 1. rewrite broadcastRecipients_run.
  unfold bind.
  destruct (appendInboxEvent cfg now (broadcastList d1) event d1) as [d2 [[]|e]] eqn:Hrun;
    [|discriminate].
  intros Hret. inversion Hret; subst d' x; clear Hret.
  pose proof (appendInboxEvent_returned cfg now (broadcastList d1) event d1) as Hfst.
  rewrite Hrun in Hfst. simpl in Hfst. rewrite (Hfst eq_refl). split; [|reflexivity].
  intros a. simpl. apply deliverAll_lookup, dedupeFrom_NoDup.
Qed.

Lemma notifyAndReturn_value {A} cfg now actor type refs event (v : A) d d' x :
  notifyAndReturn cfg now actor type refs event v d = (d', Ok x) -> x = v.
Proof.
  assert (Hr : returnsOnly (notifyAndReturn cfg now actor type refs event v) v).
  { unfold notifyAndReturn. repeat (apply returnsOnly_bind; intros ?).
    apply returnsOnly_ret. }
  apply Hr.
Qed.

(* ===================================================================== *)
(** ** Fencing of claims *)
(* ===================================================================== *)






(** The inbox events of [claimTask] and [finalizeTask]. *)
Definition claimEvent (task : TaskRecord.t) (agentId : string) : InboxEvent.t :=
  InboxEvent.mk "task_claimed" (Some (TaskRecord.id task)) None (Some agentId)
    (Some ("Task " +:+ TaskRecord.id task +:+ " claimed by " +:+ agentId)) None.

Definition finalEvent (f : FinalStatus) (task : TaskRecord.t) (agentId : string)
    : InboxEvent.t :=
  InboxEvent.mk
    (match f with FinalCompleted => "task_completed" | FinalFailed => "task_failed" end)
    (Some (TaskRecord.id task)) None (Some agentId)
    (Some ("Task " +:+ TaskRecord.id task +:+ " " +:+ finalStatusName f +:+ " by "
           +:+ agentId)) None.

Lemma claimTask_broadcasts cfg now input d d' t l :
  claimTask cfg now (teamId cfg) input d = (d', Ok (t, l)) ->
  broadcast cfg now (claimEvent t (ClaimTaskInput.agentId input)) d d'.
Proof.
  intros Hrun.
  destruct (taskFiles d !! ClaimTaskInput.taskId input) as [t0|] eqn:H.
  2:{ rewrite claimTask_not_found in Hrun by exact H. discriminate. }
  destruct (decide (TaskRecord.status (resetIfExpired now t0) = pending)) as [Hs|Hs].
  2:{ rewrite (claimTask_not_claimable _ _ _ _ _ H Hs) in Hrun. discriminate. }
  destruct (Helpers.validDate
              (now + default (defaultLeaseTtlMs cfg) (ClaimTaskInput.ttlMs input))) eqn:Hv.
  2:{ rewrite (claimTask_range_error _ _ _ _ _ H Hs Hv) in Hrun. discriminate. }
  revert Hrun. unfold claimTask, loadTaskOrThrow, readTask.
  rewrite assertTeamId_ok. mrun. rewrite H. mrun.
  rewrite bool_decide_eq_true_2 by exact Hs. cbn [negb].
  rewrite Hv. cbn [negb]. unfold writeTask. mrun.
  match goal with
  | |- bind (appendAuditEvent ?n ?a ?ty ?refs)
            (fun _ => bind _ (fun recipients =>
               bind (appendInboxEvent _ _ _ ?ev) (fun _ => ret ?v))) ?d1 = _ -> _ =>
      change (notifyAndReturn cfg n a ty refs ev v d1 = (d', Ok (t, l)) ->
              broadcast cfg now (claimEvent t (ClaimTaskInput.agentId input)) d d')
  end.
  intros Hn.
  pose proof (notifyAndReturn_value _ _ _ _ _ _ _ _ _ _ Hn) as Hx.
  inversion Hx; subst t l; clear Hx.
  apply notifyAndReturn_broadcasts in Hn as [Hb _]. exact Hb.
Qed.

Lemma finalizeTask_broadcasts cfg now input f d d' t :
  finalizeTask cfg now input f d = (d', Ok t) ->
  broadcast cfg now (finalEvent f t (FinalizeTaskInput.agentId input)) d d'.
Proof.
  intros Hrun.
  destruct (taskFiles d !! FinalizeTaskInput.taskId input) as [t0|] eqn:H.
  2:{ rewrite finalizeTask_not_found in Hrun by exact H. discriminate. }
  destruct (checkLease now t0 (FinalizeTaskInput.agentId input)
              (FinalizeTaskInput.epoch input)) as [l|e] eqn:Hc.
  2:{ rewrite (finalizeTask_rejected _ _ _ _ _ _ _ H Hc) in Hrun. discriminate. }
  revert Hrun. unfold finalizeTask, loadTaskOrThrow, readTask. mrun.
  rewrite H. mrun. rewrite Hc. unfold writeTask. mrun.
  match goal with
  | |- bind (appendAuditEvent ?n ?a ?ty ?refs)
            (fun _ => bind _ (fun recipients =>
               bind (appendInboxEvent _ _ _ ?ev) (fun _ => ret ?v))) ?d1 = _ -> _ =>
      change (notifyAndReturn cfg n a ty refs ev v d1 = (d', Ok t) ->
              broadcast cfg now (finalEvent f t (FinalizeTaskInput.agentId input)) d d')
  end.
  intros Hn.
  pose proof (notifyAndReturn_value _ _ _ _ _ _ _ _ _ _ Hn) as Hx. subst t.
  apply notifyAndReturn_broadcasts in Hn as [Hb _].
  destruct f; exact Hb.
Qed.

Lemma keepsInboxes_unlockDependents now cid actor :
  keepsField inboxFiles (unlockDependents now cid actor).
Proof.
  unfold unlockDependents, listTasksUnsafe, writeTask, appendAuditEvent. field_tac.
Qed.

(** X12. Who is told about a task. When [claimTask], [completeTask] or
    [failTask] returns, the inboxes after the call are the inboxes before
    it with one event, [task_claimed], [task_completed] or [task_failed],
    delivered to every member of the audience: the trimmed non-empty names
    of the agents of the team file and of the inbox files, the caller
    included when it is among them. *)
Theorem task_events_are_broadcast cfg now d :
  (forall input d' t l,
     claimTask cfg now (teamId cfg) input d = (d', Ok (t, l)) ->
     broadcast cfg now (claimEvent t (ClaimTaskInput.agentId input)) d d') /\
  (forall f input d' t,
     finish cfg now f input d = (d', Ok t) ->
     broadcast cfg now (finalEvent f t (FinalizeTaskInput.agentId input)) d d') /\
  (forall a, a ∈ audience d <->
     exists raw, Str.trim raw = a /\ a <> "" /\
       (is_Some (inboxFiles d !! raw) \/
        exists team agent, teamFile d = Some team /\
          agent ∈ TeamRecord.agents team /\ Agent.id agent = raw)).
Proof.
  split; [|split].
  - intros input d' t l. apply claimTask_broadcasts.
  - intros f input d' t Hrun. destruct f; simpl in Hrun.
    + revert Hrun. unfold completeTask. rewrite assertTeamId_ok, bind_ret.
      unfold bind at 1.
      destruct (finalizeTask cfg now input FinalCompleted d) as [d1 [t1|e]] eqn:Hf;
        [|discriminate].
      pose proof (keepsInboxes_unlockDependents now (TaskRecord.id t1)
                    (FinalizeTaskInput.agentId input) d1) as Hkeep.
      unfold bind.
      destruct (unlockDependents now (TaskRecord.id t1)
                  (FinalizeTaskInput.agentId input) d1) as [d2 [[]|e]]; [|discriminate].
      intros Hret. inversion Hret; subst d' t; clear Hret. simpl in Hkeep.
      apply finalizeTask_broadcasts in Hf. intros a. rewrite Hkeep. apply Hf.
    + rewrite failTask_ok_team in Hrun. apply finalizeTask_broadcasts. exact Hrun.
  - intros a. unfold audience, uniqueRecipients, broadcastList.
    rewrite elem_of_dedupe, list_elem_of_filter, list_elem_of_fmap. split.
    + intros [Hne (raw & -> & Hin)]. exists raw. split; [reflexivity|].
      split; [intros Heq; rewrite Heq in Hne; exact Hne|].
      apply elem_of_dedupe, elem_of_app in Hin as [Hin | Hin].
      * right. destruct (teamFile d) as [team|]; [|inversion Hin].
        apply list_elem_of_filter in Hin as [_ Hin].
        apply list_elem_of_fmap in Hin as (agent & -> & Hin). eauto.
      * left. apply list_elem_of_filter in Hin as [_ Hin].
        apply list_elem_of_fmap in Hin as ([k st] & -> & Hin).
        apply elem_of_map_to_list in Hin. simpl. eauto.
    + intros (raw & <- & Hne & Hsrc).
      assert (Hraw : Is_true (Str.nonEmpty raw)).
      { destruct raw; [|exact I]. exfalso. apply Hne. reflexivity. }
      split; [destruct (Str.trim raw); [contradiction | exact I]|].
      exists raw. split; [reflexivity|]. apply elem_of_dedupe, elem_of_app.
      destruct Hsrc as [[st Hst] | (team & agent & Hteam & Hin & Hid)].
      * right. apply list_elem_of_filter. split; [exact Hraw|].
        apply list_elem_of_fmap. exists (raw, st). split; [reflexivity|].
        apply elem_of_map_to_list. exact Hst.
      * left. rewrite Hteam. apply list_elem_of_filter. split; [exact Hraw|].
        apply list_elem_of_fmap. exists agent. split; [symmetry; exact Hid | exact Hin].
Qed.

Lemma task_events_are_broadcast_witness :
  inboxFiles diskPolled !! "agent-b"
  = Some (deliver "test-team" 2000 (claimEvent taskClaimed "agent-a") "agent-b"
            (InboxState.mk 0 [])) /\
  inboxFiles diskPolled !! "agent-a" = None.
Proof.
  set (d1 := runOps exampleStringify exampleCfg
               [OpFetchInbox "test-team" "agent-b" None;
                OpCreateTask 1000 "test-team" exampleInput None] emptyDisk).
  destruct (task_events_are_broadcast exampleCfg 2000 d1) as (Hclaim & _ & _).
  assert (Hrun : claimTask exampleCfg 2000 (teamId exampleCfg) exampleClaim d1
                 = (diskPolled, Ok (taskClaimed, TaskLease.mk "agent-a" 1 2025)))
    by (vm_compute; reflexivity).
  specialize (Hclaim _ _ _ _ Hrun).
  split; [rewrite (Hclaim "agent-b") | rewrite (Hclaim "agent-a")]; reflexivity.
Defined.

(** The string behind the white space character that [s] starts with. *)
Definition wsStep (s : string) : option string :=
  match s with
  | EmptyString => None
  | String a s1 =>
      if Str.isSpace a then Some s1
      else
        match s1 with
        | EmptyString => None
        | String b s2 =>
            if Str.isSpace2 a b then Some s2
            else
              match s2 with
              | EmptyString => None
              | String c s3 => if Str.isSpace3 a b c then Some s3 else None
              end
        end
  end.

Lemma trimStart_step s :
  Str.trimStart s = match wsStep s with Some r => Str.trimStart r | None => s end.
Proof.
  destruct s as [|a s1]; [reflexivity|].
  change (Str.trimStart (String a s1))
    with (if Str.isSpace a then Str.trimStart s1
          else match s1 with
               | EmptyString => String a s1
               | String b s2 =>
                   if Str.isSpace2 a b then Str.trimStart s2
                   else match s2 with
                        | EmptyString => String a s1
                        | String c s3 =>
                            if Str.isSpace3 a b c then Str.trimStart s3 else String a s1
                        end
               end).
  unfold wsStep. destruct (Str.isSpace a); [reflexivity|].
  destruct s1 as [|b s2]; [reflexivity|]. destruct (Str.isSpace2 a b); [reflexivity|].
  destruct s2 as [|c s3]; [reflexivity|]. destruct (Str.isSpace3 a b c); reflexivity.
Qed.

Lemma wsStep_length s r : wsStep s = Some r -> (String.length r < String.length s)%nat.
Proof.
  unfold wsStep. destruct s as [|a s1]; [discriminate|].
  destruct (Str.isSpace a); [intros [= <-]; simpl; lia|].
  destruct s1 as [|b s2]; [discriminate|].
  destruct (Str.isSpace2 a b); [intros [= <-]; simpl; lia|].
  destruct s2 as [|c s3]; [discriminate|].
  destruct (Str.isSpace3 a b c); [intros [= <-]; simpl; lia | discriminate].
Qed.

Lemma wsStep_app x y r : wsStep x = Some r -> wsStep (x +:+ y) = Some (r +:+ y).
Proof.
  unfold wsStep. destruct x as [|a s1]; [discriminate|]. rewrite app_cons.
  destruct (Str.isSpace a); [intros [= <-]; reflexivity|].
  destruct s1 as [|b s2]; [discriminate|]. rewrite app_cons.
  destruct (Str.isSpace2 a b); [intros [= <-]; reflexivity|].
  destruct s2 as [|c s3]; [discriminate|]. rewrite app_cons.
  destruct (Str.isSpace3 a b c); [intros [= <-]; reflexivity | discriminate].
Qed.

(** Induction along the white space characters at the head of a string. *)
Lemma ws_ind (P : string -> Prop) :
  (forall s, (forall r, wsStep s = Some r -> P r) -> P s) -> forall s, P s.
Proof.
  intros Hstep s. remember (String.length s) as n eqn:Hn. revert s Hn.
  induction n as [n IH] using lt_wf_ind. intros s ->.
  apply Hstep. intros r Hr. apply (IH (String.length r)); [|reflexivity].
  apply wsStep_length, Hr.
Qed.

Lemma wsStep_trimStart s : wsStep (Str.trimStart s) = None.
Proof.
  induction s as [s IH] using ws_ind. rewrite trimStart_step.
  destruct (wsStep s) as [r|] eqn:E; [apply IH; reflexivity | exact E].
Qed.

Lemma trimStart_fixed s : wsStep s = None -> Str.trimStart s = s.
Proof. intros H. rewrite trimStart_step, H. reflexivity. Qed.

(** White space in front of a string is trimmed with it. *)
Lemma trimStart_app x y : Str.trimStart x = "" -> Str.trimStart (x +:+ y) = Str.trimStart y.
Proof.
  induction x as [x IH] using ws_ind. intros H.
  rewrite trimStart_step in H. destruct (wsStep x) as [r|] eqn:E.
  - rewrite (trimStart_step (x +:+ y)), (wsStep_app _ _ _ E). apply IH; [reflexivity | exact H].
  - subst x. reflexivity.
Qed.

Lemma trimEnd_eq a s :
  Str.trimEnd (String a s)
  = if Str.nonEmpty (Str.trimStart (String a s)) then String a (Str.trimEnd s) else "".
Proof. reflexivity. Qed.

(** What [trimEnd] cuts off is white space. *)
Lemma trimEnd_split s : exists u, s = Str.trimEnd s +:+ u /\ Str.trimStart u = "".
Proof.
  induction s as [|a s (u & Hs & Hu)]; [exists ""; split; reflexivity|].
  rewrite trimEnd_eq. destruct (Str.trimStart (String a s)) as [|b t] eqn:E; cbn [Str.nonEmpty].
  - exists (String a s). split; [reflexivity | exact E].
  - exists u. split; [rewrite app_cons, <- Hs; reflexivity | exact Hu].
Qed.

Lemma trimEnd_idem s : Str.trimEnd (Str.trimEnd s) = Str.trimEnd s.
Proof.
  induction s as [|a s IH]; [reflexivity|].
  rewrite trimEnd_eq.
  destruct (Str.nonEmpty (Str.trimStart (String a s))) eqn:E; [|reflexivity].
  rewrite trimEnd_eq, IH.
  destruct (Str.trimStart (String a (Str.trimEnd s))) as [|b t] eqn:E'; [|reflexivity].
  exfalso. destruct (trimEnd_split s) as (u & Hs & Hu).
  rewrite Hs, <- app_cons, (trimStart_app _ _ E'), Hu in E. discriminate.
Qed.

Lemma wsStep_trimEnd s : wsStep s = None -> wsStep (Str.trimEnd s) = None.
Proof.
  intros H. destruct (wsStep (Str.trimEnd s)) as [r|] eqn:E; [|reflexivity].
  destruct (trimEnd_split s) as (u & Hs & _).
  rewrite Hs, (wsStep_app _ _ _ E) in H. discriminate.
Qed.

Lemma trim_idem s : Str.trim (Str.trim s) = Str.trim s.
Proof.
  unfold Str.trim.
  rewrite (trimStart_fixed (Str.trimEnd (Str.trimStart s)))
    by apply wsStep_trimEnd, wsStep_trimStart.
  apply trimEnd_idem.
Qed.

(** No white space character starts with a character of an identifier. *)
Lemma wsStep_isIdChar a s : Str.isIdChar a = true -> wsStep (String a s) = None.
Proof.
  intros Ha. unfold wsStep.
  assert (H1 : Str.isSpace a = false)
    by (destruct a as [[] [] [] [] [] [] [] []]; vm_compute in Ha |- *;
        first [reflexivity | discriminate]).
  assert (H2 : forall b, Str.isSpace2 a b = false)
    by (intros b; destruct a as [[] [] [] [] [] [] [] []];
        first [reflexivity | vm_compute in Ha; discriminate]).
  assert (H3 : forall b c, Str.isSpace3 a b c = false)
    by (intros b c; destruct a as [[] [] [] [] [] [] [] []];
        first [reflexivity | vm_compute in Ha; discriminate]).
  rewrite H1. destruct s as [|b s2]; [reflexivity|]. rewrite H2.
  destruct s2 as [|c s3]; [reflexivity|]. rewrite H3. reflexivity.
Qed.

Lemma trimEnd_identifier s :
  Str.forallChars Str.isIdChar s = true -> Str.trimEnd s = s.
Proof.
  induction s as [|a s IH]; [reflexivity|]. simpl Str.forallChars. intros H.
  apply andb_prop in H as [Ha Hs].
  rewrite trimEnd_eq, (trimStart_fixed _ (wsStep_isIdChar a s Ha)), (IH Hs). reflexivity.
Qed.

(** A valid identifier has no white space to trim. *)
Lemma trim_identifier s : Str.isIdentifier s = true -> Str.trim s = s.
Proof.
  unfold Str.isIdentifier, Str.trim. intros H. apply andb_prop in H as [_ H].
  destruct s as [|a s]; [reflexivity|].
  pose proof H as H'. simpl in H'. apply andb_prop in H' as [Ha _].
  rewrite (trimStart_fixed _ (wsStep_isIdChar a s Ha)). apply trimEnd_identifier. exact H.
Qed.

Lemma audience_of_inbox d a :
  Str.isIdentifier a = true -> is_Some (inboxFiles d !! a) -> a ∈ audience d.
Proof.
  intros Hid [st Hst]. unfold audience, uniqueRecipients, broadcastList.
  assert (Hne : Is_true (Str.nonEmpty a)).
  { unfold Str.isIdentifier in Hid. apply andb_prop in Hid as [Hn _].
    rewrite Hn. exact I. }
  apply elem_of_dedupe, list_elem_of_filter. split; [exact Hne|].
  apply list_elem_of_fmap. exists a. split; [symmetry; apply trim_identifier, Hid|].
  apply elem_of_dedupe, elem_of_app. right. apply list_elem_of_filter.
  split; [exact Hne|]. apply list_elem_of_fmap. exists (a, st). split; [reflexivity|].
  apply elem_of_map_to_list. exact Hst.
Qed.

(** X13. Polling registers the agent. [fetchInbox] with a name that is
    not a valid identifier after trimming throws [400 INVALID_AGENT_ID] and
    writes nothing. With a valid name, short enough for a file name, that
    has no inbox file it writes the empty inbox for it, returns no event
    and [nextSince] equal to the floor, and from then on the agent is in
    the audience of every task event. The floor is the number that
    [Number.parseInt] reads from [since], rounded as a double is, and 0
    when that is not a finite positive number. *)
Theorem fetchInbox_registers_agent cfg agentId since d :
  let a := Str.trim agentId in
  let r := fetchInbox cfg (teamId cfg) agentId since d in
  (Str.isIdentifier a = false ->
     r = (d, Err (TeamdStoreError 400 INVALID_AGENT_ID))) /\
  (Str.isIdentifier a = true -> Helpers.isFileName a = true ->
   inboxFiles d !! a = None ->
     snd r = Ok ([], sinceFloor since) /\
     fst r = setInboxFiles (<[a := InboxState.mk 0 []]> (inboxFiles d)) d /\
     a ∈ audience (fst r)).
Proof.
  intros a r. subst r. unfold fetchInbox, ensureAgentId, readInbox.
  rewrite assertTeamId_ok. mrun. fold a. split.
  - intros Hid. rewrite Hid. reflexivity.
  - intros Hid _ Hnone. rewrite Hid. cbn [negb]. mrun. rewrite Hnone.
    unfold writeInbox. mrun. fold (sinceFloor since). simpl.
    rewrite Z.max_l by apply sinceFloor_nonneg.
    split; [reflexivity|]. split; [reflexivity|].
    apply audience_of_inbox; [exact Hid|]. simpl. rewrite lookup_insert_eq. eauto.
Qed.

Lemma fetchInbox_registers_agent_witness :
  fetchInbox exampleCfg "test-team" "agent b" None emptyDisk
  = (emptyDisk, Err (TeamdStoreError 400 INVALID_AGENT_ID)) /\
  "agent-b" ∈ audience (fst (fetchInbox exampleCfg "test-team" (nbsp +:+ "agent-b")
                               (Some "9007199254740993") emptyDisk)) /\
  snd (fetchInbox exampleCfg "test-team" (nbsp +:+ "agent-b")
         (Some "9007199254740993") emptyDisk) = Ok ([], 9007199254740992).
Proof.
  split.
  - destruct (fetchInbox_registers_agent exampleCfg "agent b" None emptyDisk) as [H _].
    apply H. reflexivity.
  - destruct (fetchInbox_registers_agent exampleCfg (nbsp +:+ "agent-b")
                (Some "9007199254740993") emptyDisk) as [_ H].
    destruct (H eq_refl eq_refl eq_refl) as (H1 & _ & H3). split; [exact H3 | exact H1].
Defined.

(* ===================================================================== *)
(** ** Appending to a line-delimited log and reading it back *)
(* ===================================================================== *)

(** The content of the file after [appendJsonl(filePath, obj)]; [None] is
    a file that did not exist. *)
Definition appendJsonl (JSON_stringify : Json -> string) (content : option string)
    (obj : Json) : string :=
  default "" content +:+ JSON_stringify obj +:+ String Io.newline "".

Lemma append_assoc (a b c : string) : (a +:+ b) +:+ c = a +:+ (b +:+ c).
Proof.
  induction a as [|x a IH]; [reflexivity|].
  rewrite !app_cons. rewrite IH. reflexivity.
Qed.

Lemma fileOf_append ls frag s : fileOf ls frag +:+ s = fileOf ls (frag +:+ s).
Proof.
  induction ls as [|l ls IH]; [reflexivity|]. simpl.
  rewrite append_assoc, app_cons, IH. reflexivity.
Qed.

Lemma fileOf_snoc ls l : fileOf ls (l +:+ String Io.newline "") = fileOf (ls ++ [l]) "".
Proof. induction ls as [|x ls IH]; [reflexivity|]. simpl. rewrite IH. reflexivity. Qed.

Lemma noNewline_append a b : noNewline a -> noNewline b -> noNewline (a +:+ b).
Proof.
  intros Ha Hb. induction a as [|x a IH]; [exact Hb|].
  rewrite app_cons. apply noNewline_cons in Ha as [Hx Ha].
  apply noNewline_cons. split; [exact Hx | apply IH, Ha].
Qed.

Lemma parseLines_snoc parse ls l :
  Io.parseLines parse (ls ++ [l])
  = match Io.parseLines parse ls with
    | Err e => Err e
    | Ok vs =>
        if negb (Str.nonEmpty l) then Ok vs
        else match parse l with
             | Some v => Ok (vs ++ [v])
             | None => Err (IoError INVALID_JSONL_LINE)
             end
    end.
Proof.
  induction ls as [|x ls IH]; simpl.
  - destruct (Str.nonEmpty l); simpl; [|reflexivity]. destruct (parse l); reflexivity.
  - destruct (Str.nonEmpty x); simpl; [|exact IH].
    destruct (parse x) as [v|]; [|reflexivity]. rewrite IH.
    destruct (Io.parseLines parse ls) as [vs|e]; [|reflexivity].
    destruct (Str.nonEmpty l); simpl; [|reflexivity]. destruct (parse l); reflexivity.
Qed.

(** Reading a log after an append, for a log of complete lines [ls]
    followed by a fragment [frag]. *)
Lemma read_after_append parse stringify ls frag obj :
  Forall noNewline ls -> noNewline frag -> noNewline (stringify obj) ->
  Io.readJsonlSafeFrom parse (Ok (appendJsonl stringify (Some (fileOf ls frag)) obj))
  = Io.parseLines parse (ls ++ [frag +:+ stringify obj]).
Proof.
  intros Hls Hf Hs. unfold appendJsonl. simpl default.
  rewrite fileOf_append, <- append_assoc, fileOf_snoc.
  rewrite readJsonlSafeFrom_fileOf; [reflexivity | | reflexivity].
  apply Forall_app. split; [exact Hls|]. constructor; [|constructor].
  apply noNewline_append; assumption.
Qed.

(** X14. Appending to a log and reading it back, for a serializer whose
    output has no line break. On a missing file, or a file that ends with
    a line break and that the reader accepts, the reader returns after the
    append the values it returned before followed by the parsed new line.
    On a file with an unfinished last line, which the reader tolerates, the
    new line is glued to that fragment: when the glued line is not JSON the
    reader now throws [INVALID_JSONL_LINE], although it read the file
    before the append. *)
Theorem appendJsonl_then_read parse stringify obj :
  noNewline (stringify obj) ->
  (forall v, parse (stringify obj) = Some v -> stringify obj <> "" ->
     Io.readJsonlSafeFrom parse (Ok (appendJsonl stringify None obj)) = Ok [v]) /\
  (forall ls vs v,
     Forall noNewline ls ->
     Io.readJsonlSafeFrom parse (Ok (fileOf ls "")) = Ok vs ->
     parse (stringify obj) = Some v -> stringify obj <> "" ->
     Io.readJsonlSafeFrom parse (Ok (appendJsonl stringify (Some (fileOf ls "")) obj))
     = Ok (vs ++ [v])) /\
  (forall ls frag vs,
     Forall noNewline ls -> noNewline frag -> frag <> "" ->
     Io.readJsonlSafeFrom parse (Ok (fileOf ls frag)) = Ok vs ->
     parse (frag +:+ stringify obj) = None ->
     Io.readJsonlSafeFrom parse (Ok (appendJsonl stringify (Some (fileOf ls frag)) obj))
     = Err (IoError INVALID_JSONL_LINE)).
Proof.
  intros Hs.
  assert (Hne : forall s, s <> "" -> Str.nonEmpty s = true)
    by (intros [|a s] H; [contradiction | reflexivity]).
  split; [|split].
  - intros v Hp Hn.
    change (appendJsonl stringify None obj)
      with (appendJsonl stringify (Some (fileOf [] "")) obj).
    rewrite read_after_append by (try constructor; assumption || reflexivity).
    rewrite app_empty. simpl. rewrite (Hne _ Hn), Hp. reflexivity.
  - intros ls vs v Hls Hread Hp Hn.
    rewrite read_after_append by (assumption || reflexivity).
    rewrite readJsonlSafeFrom_fileOf in Hread by (assumption || reflexivity).
    rewrite parseLines_snoc, Hread, app_empty. rewrite (Hne _ Hn), Hp. reflexivity.
  - intros ls frag vs Hls Hf Hfne Hread Hp.
    rewrite read_after_append by assumption.
    rewrite readJsonlSafeFrom_fileOf in Hread by assumption.
    rewrite parseLines_snoc, Hread, Hp.
    assert (Hg : Str.nonEmpty (frag +:+ stringify obj) = true)
      by (destruct frag; [contradiction | reflexivity]).
    rewrite Hg. reflexivity.
Qed.

Lemma appendJsonl_then_read_witness :
  Io.readJsonlSafeFrom JsonText.parse
    (Ok (appendJsonl exampleStringify (Some (fileOf ["{}"] "")) JNull))
  = Ok [JObj []; JObj []] /\
  Io.readJsonlSafeFrom JsonText.parse (Ok (fileOf ["{}"] "{")) = Ok [JObj []] /\
  Io.readJsonlSafeFrom JsonText.parse
    (Ok (appendJsonl exampleStringify (Some (fileOf ["{}"] "{")) JNull))
  = Err (IoError INVALID_JSONL_LINE).
Proof.
  destruct (appendJsonl_then_read JsonText.parse exampleStringify JNull)
    as (_ & Hclean & Htorn); [reflexivity|].
  split; [|split].
  - apply (Hclean ["{}"] [JObj []] (JObj [])); try reflexivity.
    + repeat constructor.
    + discriminate.
  - reflexivity.
  - apply (Htorn ["{}"] "{" [JObj []]); try reflexivity.
    + repeat constructor.
    + discriminate.
Defined.

(* ===================================================================== *)
(** ** Threads *)
(* ===================================================================== *)

Lemma findThread_updateThread threadId f threads thread :
  (forall t, ThreadRecord.id (f t) = ThreadRecord.id t) ->
  findThread threadId threads = Some thread ->
  findThread threadId (updateThread threadId f threads) = Some (f thread).
Proof.
  intros Hf. unfold findThread. induction threads as [|x threads IH]; [discriminate|].
  simpl. destruct (String.eqb (ThreadRecord.id x) threadId) eqn:Hx.
  - intros [= <-]. simpl. rewrite Hf, Hx. reflexivity.
  - intros H. simpl. rewrite Hx. apply IH, H.
Qed.

Lemma findThread_id threadId threads thread :
  findThread threadId threads = Some thread -> ThreadRecord.id thread = threadId.
Proof.
  unfold findThread. intros H. apply List.find_some in H as [_ H].
  apply String.eqb_eq. exact H.
Qed.

(** The thread [postThreadMessage] and [linkThreadToTask] write back with
    a new [updatedAt]. *)
Definition touched (now : Z) (t : ThreadRecord.t) : ThreadRecord.t :=
  ThreadRecord.mk (ThreadRecord.id t) (ThreadRecord.title t)
    (ThreadRecord.participants t) (ThreadRecord.taskId t)
    (ThreadRecord.createdAt t) now.

Lemma keepsThreads_appendInboxEvent cfg now recipients event :
  keepsField (fun d => (threadFiles d, threadIndex d))
             (appendInboxEvent cfg now recipients event).
Proof.
  rewrite appendInboxEvent_loop. unfold ensureAgentId, readInbox, writeInbox. field_tac.
Qed.

(** What a [postThreadMessage] that returns has done to the thread. *)
Lemma postThreadMessage_returned stringify cfg now uuid input d d' m :
  postThreadMessage stringify cfg now uuid (teamId cfg) input d = (d', Ok m) ->
  exists thread,
    findThread (PostThreadMessageInput.threadId input) (threadIndex d) = Some thread /\
    Str.isIdentifier (Str.trim (PostThreadMessageInput.agentId input)) = true /\
    m = ThreadMessageRecord.mk ("msg-" +:+ uuid) (ThreadRecord.id thread)
          (Str.trim (PostThreadMessageInput.agentId input))
          (Str.trim (PostThreadMessageInput.message input)) now /\
    ThreadMessageRecord.body m <> "" /\
    threadFiles d'
    = <[ThreadRecord.id thread :=
          appendJsonl stringify (threadFiles d !! ThreadRecord.id thread) (messageJson m)]>
        (threadFiles d) /\
    threadIndex d'
    = updateThread (PostThreadMessageInput.threadId input) (touched now) (threadIndex d).
Proof.
  unfold postThreadMessage, ensureAgentId. rewrite assertTeamId_ok. mrun.
  destruct (Str.isIdentifier (Str.trim (PostThreadMessageInput.agentId input))) eqn:Hid;
    cbn [negb]; [|discriminate].
  mrun.
  destruct (Str.nonEmpty (Str.trim (PostThreadMessageInput.message input))) eqn:Hbody;
    cbn [negb]; [|discriminate].
  unfold readThreadIndex. mrun.
  destruct (findThread (PostThreadMessageInput.threadId input) (threadIndex d))
    as [thread|] eqn:Hfind; [|discriminate].
  unfold appendThreadLine, writeThreadIndex, appendAuditEvent. mrun.
  match goal with
  | |- bind (appendInboxEvent ?c ?n ?rs ?ev) _ ?d1 = _ -> _ =>
      pose proof (keepsThreads_appendInboxEvent c n rs ev d1) as Hkeep;
      unfold bind; destruct (appendInboxEvent c n rs ev d1) as [d2 [[]|e]]
  end; [|discriminate].
  intros Hret. inversion Hret; subst d' m; clear Hret.
  simpl in Hkeep. inversion Hkeep as [[Hfiles Hindex]].
  exists thread. split; [reflexivity|]. split; [reflexivity|]. split; [reflexivity|].
  split; [simpl; intros Heq; rewrite Heq in Hbody; discriminate|].
  split; [exact Hfiles | exact Hindex].
Qed.

(** A thread file as [readThreadTail] wants it: missing, or made of
    complete lines that the reader accepts. *)
Definition readableLog (parse : string -> option Json) (content : option string)
    (values : list Json) : Prop :=
  match content with
  | None => values = []
  | Some raw =>
      exists ls, Forall noNewline ls /\ raw = fileOf ls "" /\
                 Io.parseLines parse ls = Ok values
  end.

Lemma last_lastN_snoc {A} (n : nat) (l : list A) x :
  (1 <= n)%nat -> last (lastN n (l ++ [x])) = Some x.
Proof.
  intros Hn. unfold lastN. rewrite length_app. simpl.
  rewrite drop_app_le by lia. apply last_snoc.
Qed.

Lemma length_lastN {A} (n : nat) (l : list A) : (length (lastN n l) <= n)%nat.
Proof. unfold lastN. rewrite length_drop. lia. Qed.

Lemma normalizedLimit_range limit : 0 <= normalizedLimit limit <= 200.
Proof.
  unfold normalizedLimit. destruct limit as [| |q]; try lia.
  destruct (Qle_bool q (inject_Z 0)) eqn:E; cbn [negb]; [lia|].
  assert (Hq : (inject_Z 0 <= q)%Q).
  { apply Qlt_le_weak, Qnot_le_lt. intros H. apply Qle_bool_iff in H. congruence. }
  apply Qfloor_resp_le in Hq. rewrite Qfloor_Z in Hq. lia.
Qed.

(** The limit is 0 for the numbers strictly between 0 and 1, and only for
    them. *)
Lemma normalizedLimit_zero limit :
  normalizedLimit limit = 0 <->
  exists q, limit = JsFinite q /\ (inject_Z 0 < q)%Q /\ (q < inject_Z 1)%Q.
Proof.
  unfold normalizedLimit. split.
  - destruct limit as [| |q]; try discriminate.
    destruct (Qle_bool q (inject_Z 0)) eqn:E; cbn [negb]; [discriminate|].
    intros H. exists q. split; [reflexivity|].
    split; [apply Qnot_le_lt; intros H'; apply Qle_bool_iff in H'; congruence|].
    assert (Hf : Qfloor q = 0) by lia.
    pose proof (Qlt_floor q) as Hlt. rewrite Hf in Hlt. exact Hlt.
  - intros (q & -> & Hpos & Hlt).
    assert (E : Qle_bool q (inject_Z 0) = false).
    { destruct (Qle_bool q (inject_Z 0)) eqn:E; [|reflexivity].
      apply Qle_bool_iff in E. exfalso. apply (Qlt_not_le _ _ Hpos E). }
    rewrite E. cbn [negb].
    assert (H0 : 0 <= Qfloor q).
    { apply Qlt_le_weak, Qfloor_resp_le in Hpos. rewrite Qfloor_Z in Hpos. exact Hpos. }
    assert (H1 : Qfloor q < 1).
    { rewrite Zlt_Qlt. eapply Qle_lt_trans; [apply Qfloor_le | exact Hlt]. }
    lia.
Qed.

(** X15. A posted message can be read back. After [postThreadMessage] has
    returned a message for a thread whose id is a file name and whose file
    was missing or made of
    complete lines the reader accepts, and with a serializer that prints
    the message on one line that parses back to it, [readThreadTail] on
    that thread writes nothing and returns the thread, with its
    [updatedAt] set to the time of the post, and messages the last of which
    is the posted message. The limit in force is the floor of [limit], at
    most 200, and 20 when [limit] is not a finite positive number. When it
    is at least 1, at most that many messages are returned; it is 0
    exactly for the numbers strictly between 0 and 1, and then every
    message of the log is returned. *)
Theorem posted_message_is_read_back parse stringify cfg now uuid input d d' m old limit :
  Helpers.isFileName (PostThreadMessageInput.threadId input) = true ->
  postThreadMessage stringify cfg now uuid (teamId cfg) input d = (d', Ok m) ->
  readableLog parse (threadFiles d !! PostThreadMessageInput.threadId input) old ->
  noNewline (stringify (messageJson m)) ->
  stringify (messageJson m) <> "" ->
  parse (stringify (messageJson m)) = Some (messageJson m) ->
  exists thread messages,
    readThreadTail parse cfg (teamId cfg) (PostThreadMessageInput.threadId input) limit d'
    = (d', Ok (thread, messages)) /\
    ThreadRecord.id thread = PostThreadMessageInput.threadId input /\
    ThreadRecord.updatedAt thread = now /\
    last messages = Some (messageJson m) /\
    0 <= normalizedLimit limit <= 200 /\
    (1 <= normalizedLimit limit ->
     (length messages <= Z.to_nat (normalizedLimit limit))%nat) /\
    ((exists q, limit = JsFinite q /\ (inject_Z 0 < q)%Q /\ (q < inject_Z 1)%Q) ->
     messages = filter (fun v => Is_true (isObjectLike v)) old ++ [messageJson m]).
Proof.
  intros _ Hrun Hold Hnl Hne Hparse.
  destruct (postThreadMessage_returned _ _ _ _ _ _ _ _ Hrun)
    as (thread & Hfind & _ & _ & _ & Hfiles & Hindex).
  pose proof (findThread_id _ _ _ Hfind) as Hid. rewrite Hid in Hfiles.
  set (threadId := PostThreadMessageInput.threadId input) in *.
  assert (Hread : Io.readJsonlSafeFrom parse
                    (Ok (appendJsonl stringify (threadFiles d !! threadId) (messageJson m)))
                  = Ok (old ++ [messageJson m])).
  { assert (Hn : Str.nonEmpty (stringify (messageJson m)) = true)
      by (destruct (stringify (messageJson m)); [contradiction | reflexivity]).
    destruct (threadFiles d !! threadId) as [raw|]; simpl in Hold.
    - destruct Hold as (ls & Hls & -> & Hp).
      rewrite read_after_append by (assumption || reflexivity).
      rewrite parseLines_snoc, Hp, app_empty, Hn, Hparse. reflexivity.
    - subst old.
      change (appendJsonl stringify None (messageJson m))
        with (appendJsonl stringify (Some (fileOf [] "")) (messageJson m)).
      rewrite read_after_append by (try constructor; assumption || reflexivity).
      rewrite app_empty. simpl. rewrite Hn, Hparse. reflexivity. }
  exists (touched now thread). eexists.
  unfold readThreadTail, readThreadIndex. rewrite assertTeamId_ok. mrun.
  rewrite Hindex,
    (findThread_updateThread threadId (touched now) _ _ (fun _ => eq_refl) Hfind). mrun.
  change (ThreadRecord.id (touched now thread)) with (ThreadRecord.id thread).
  rewrite Hid, Hfiles, lookup_insert_eq, Hread.
  split; [reflexivity|]. split; [reflexivity|]. split; [reflexivity|].
  rewrite filter_app, filter_cons, decide_True by exact I. rewrite filter_nil.
  pose proof (normalizedLimit_range limit) as Hrange.
  unfold sliceLast. split; [|split; [exact Hrange|split]].
  - destruct (Z.eqb_spec (normalizedLimit limit) 0); [apply last_snoc|].
    apply last_lastN_snoc. lia.
  - intros H1. destruct (Z.eqb_spec (normalizedLimit limit) 0); [lia|].
    apply length_lastN.
  - intros H0. apply normalizedLimit_zero in H0. rewrite H0. reflexivity.
Qed.

(** A thread with two participants, and a post to it. The serializer of
    the example prints the posted message. *)
Definition diskThread : Disk :=
  runOps exampleStringify exampleCfg
    [OpStartThread 100 "test-team"
       (StartThreadInput.mk (Some "plan") (Some ["agent-a"; "agent-b"]) None None)]
    emptyDisk.

Definition examplePost : PostThreadMessageInput.t :=
  PostThreadMessageInput.mk "thread-0001" "agent-a" " hello ".

Definition messagePosted : ThreadMessageRecord.t :=
  ThreadMessageRecord.mk "msg-u1" "thread-0001" "agent-a" "hello" 3000.

Definition messageStringify (v : Json) : string :=
  JsonText.text
    "{'schemaVersion':'1.0.0','id':'msg-u1','threadId':'thread-0001','from':'agent-a','body':'hello','ts':3000}".

Lemma posted_message_is_read_back_witness :
  exists d' thread,
    postThreadMessage messageStringify exampleCfg 3000 "u1" "test-team" examplePost
      diskThread = (d', Ok messagePosted) /\
    readThreadTail JsonText.parse exampleCfg "test-team" "thread-0001"
      (JsFinite (inject_Z 1)) d'
    = (d', Ok (thread, [messageJson messagePosted])).
Proof.
  destruct (postThreadMessage messageStringify exampleCfg 3000 "u1" "test-team"
              examplePost diskThread) as [d' r] eqn:Hrun.
  assert (Hr : r = Ok messagePosted).
  { apply (f_equal snd) in Hrun. simpl in Hrun. rewrite <- Hrun. vm_compute. reflexivity. }
  subst r. exists d'.
  destruct (posted_message_is_read_back JsonText.parse messageStringify exampleCfg 3000
              "u1" examplePost diskThread d' messagePosted [] (JsFinite (inject_Z 1))
              eq_refl Hrun)
    as (thread & messages & Hread & _ & _ & Hlast & _ & Hlen & _).
  - vm_compute. reflexivity.
  - vm_compute. reflexivity.
  - vm_compute. discriminate.
  - vm_compute. reflexivity.
  - exists thread. split; [reflexivity|].
    refine (eq_trans Hread _). do 3 f_equal.
    specialize (Hlen ltac:(vm_compute; discriminate)).
    destruct messages as [|x [|y messages]]; simpl in Hlast, Hlen.
    + discriminate.
    + congruence.
    + vm_compute in Hlen. lia.
Defined.

(** The inbox event of [postThreadMessage]. *)
Definition messageEvent (thread : ThreadRecord.t) (author body : string) : InboxEvent.t :=
  InboxEvent.mk "thread_message" None (Some (ThreadRecord.id thread)) (Some author)
    (Some (Helpers.sliceTo 120 body)) (Some body).

Lemma uniqueRecipients_identifiers (l : list string) a :
  Forall (fun p => Str.isIdentifier p = true) l ->
  a ∈ uniqueRecipients l -> a ∈ l.
Proof.
  intros Hl Hin. unfold uniqueRecipients in Hin.
  apply elem_of_dedupe, list_elem_of_filter in Hin as [_ Hin].
  apply list_elem_of_fmap in Hin as (p & -> & Hp).
  rewrite Forall_forall in Hl. rewrite trim_identifier; [exact Hp|].
  apply Hl, Hp.
Qed.

(** X16. [postThreadMessage] checks, in this order, the author (a valid
    identifier after trimming, else [400 INVALID_AGENT_ID]), the message
    (not blank, else [400 INVALID_THREAD_MESSAGE]) and the thread (in the
    index, else [404 THREAD_NOT_FOUND]), and writes nothing when a check
    fails. When it returns, for a thread whose id is a file name, the
    participants of the thread other than the
    author have each got one [thread_message] event carrying the message
    and its first 120 UTF-16 code units as summary, and no other inbox has
    changed; the author gets no event when the participants are valid
    identifiers. *)
Theorem postThreadMessage_notifies_others stringify cfg now uuid input d :
  let author := Str.trim (PostThreadMessageInput.agentId input) in
  let body := Str.trim (PostThreadMessageInput.message input) in
  let found := findThread (PostThreadMessageInput.threadId input) (threadIndex d) in
  let r := postThreadMessage stringify cfg now uuid (teamId cfg) input d in
  (Str.isIdentifier author = false ->
     r = (d, Err (TeamdStoreError 400 INVALID_AGENT_ID))) /\
  (Str.isIdentifier author = true -> body = "" ->
     r = (d, Err (TeamdStoreError 400 INVALID_THREAD_MESSAGE))) /\
  (Str.isIdentifier author = true -> body <> "" -> found = None ->
     r = (d, Err (TeamdStoreError 404 THREAD_NOT_FOUND))) /\
  (forall thread m,
     Helpers.isFileName (PostThreadMessageInput.threadId input) = true ->
     found = Some thread -> snd r = Ok m ->
     let others :=
       uniqueRecipients (filter (fun participant => participant <> author)
                                (ThreadRecord.participants thread)) in
     (forall a,
        inboxFiles (fst r) !! a
        = if bool_decide (a ∈ others)
          then Some (deliver (teamId cfg) now (messageEvent thread author body) a
                       (inboxOf (inboxFiles d) a))
          else inboxFiles d !! a) /\
     (Forall (fun p => Str.isIdentifier p = true) (ThreadRecord.participants thread) ->
      inboxFiles (fst r) !! author = inboxFiles d !! author)).
Proof.
  intros author body found r. subst r.
  unfold postThreadMessage, ensureAgentId. rewrite assertTeamId_ok. mrun.
  fold author. fold body. split; [|split; [|split]].
  - intros Hid. rewrite Hid. reflexivity.
  - intros Hid Hb. rewrite Hid. cbn [negb]. mrun. rewrite Hb. reflexivity.
  - intros Hid Hb Hf. rewrite Hid. cbn [negb]. mrun.
    destruct body; [contradiction|]. cbn [Str.nonEmpty negb].
    unfold readThreadIndex. mrun. fold found. rewrite Hf. reflexivity.
  - intros thread m _ Hf.
    destruct (Str.isIdentifier author) eqn:Hid; cbn [negb]; [|discriminate].
    mrun. destruct (Str.nonEmpty body) eqn:Hb; cbn [negb]; [|discriminate].
    unfold readThreadIndex. mrun. fold found. rewrite Hf.
    unfold appendThreadLine, writeThreadIndex, appendAuditEvent. mrun.
    match goal with
    | |- context [bind (appendInboxEvent ?c ?n ?rs ?ev) _ ?d1] =>
        pose proof (appendInboxEvent_returned c n rs ev d1) as Hfan;
        unfold bind; destruct (appendInboxEvent c n rs ev d1) as [d2 [[]|e]]
    end; [|discriminate].
    intros _. unfold ret. cbn [fst].
    set (others := uniqueRecipients
                     (filter (fun participant => participant <> author)
                             (ThreadRecord.participants thread))).
    simpl in Hfan. rewrite (Hfan eq_refl). simpl.
    assert (Hall : forall a,
              deliverAll (teamId cfg) now (messageEvent thread author body) others
                (inboxFiles d) !! a
              = if bool_decide (a ∈ others)
                then Some (deliver (teamId cfg) now (messageEvent thread author body) a
                             (inboxOf (inboxFiles d) a))
                else inboxFiles d !! a).
    { intros a. apply deliverAll_lookup, dedupeFrom_NoDup. }
    split; [exact Hall|].
    intros Hvalid. rewrite Hall, bool_decide_eq_false_2; [reflexivity|].
    intros Hin. apply uniqueRecipients_identifiers in Hin.
    + apply list_elem_of_filter in Hin as [Hne _]. apply Hne. reflexivity.
    + rewrite Forall_forall in Hvalid |- *. intros p Hp. apply Hvalid.
      apply list_elem_of_filter in Hp as [_ Hp]. exact Hp.
Qed.

Lemma postThreadMessage_notifies_others_witness :
  let r := postThreadMessage messageStringify exampleCfg 3000 "u1" "test-team" examplePost
             diskThread in
  inboxFiles (fst r) !! "agent-b"
  = Some (deliver "test-team" 3000
            (InboxEvent.mk "thread_message" None (Some "thread-0001") (Some "agent-a")
               (Some "hello") (Some "hello"))
            "agent-b" (InboxState.mk 0 [])) /\
  inboxFiles (fst r) !! "agent-a" = None /\
  postThreadMessage messageStringify exampleCfg 3000 "u1" "test-team"
    (PostThreadMessageInput.mk "thread-0001" (nbsp +:+ "agent-a") (" " +:+ nbsp)) diskThread
  = (diskThread, Err (TeamdStoreError 400 INVALID_THREAD_MESSAGE)).
Proof.
  cbv zeta.
  destruct (postThreadMessage_notifies_others messageStringify exampleCfg 3000 "u1"
              examplePost diskThread) as (_ & _ & _ & Hok).
  destruct (Hok (ThreadRecord.mk "thread-0001" "plan" ["agent-a"; "agent-b"] None 100 100)
              messagePosted) as [Hdel Hauthor].
  - reflexivity.
  - vm_compute. reflexivity.
  - vm_compute. reflexivity.
  - split; [|split].
    + refine (eq_trans (Hdel "agent-b") _). vm_compute. reflexivity.
    + refine (eq_trans (Hauthor _) _); [repeat constructor | vm_compute; reflexivity].
    + destruct (postThreadMessage_notifies_others messageStringify exampleCfg 3000 "u1"
                  (PostThreadMessageInput.mk "thread-0001" (nbsp +:+ "agent-a")
                     (" " +:+ nbsp)) diskThread)
        as (_ & Hblank & _).
      apply Hblank; reflexivity.
Defined.

(** *** Starting a thread *)

(** The participants [startThread] records: the distinct non-empty trimmed
    names of the input, then the trimmed [agentId] when it is not blank and
    not yet among them. *)
Definition threadMembers (input : StartThreadInput.t) : list string :=
  let participants :=
    Str.dedupe (filter (fun s => Is_true (Str.nonEmpty s))
      (map Str.trim (default [] (StartThreadInput.participants input)))) in
  Str.dedupe
    match trimmedOption (StartThreadInput.agentId input) with
    | Some a => participants ++ [a]
    | None => participants
    end.

Lemma mapM_ensureAgentId (valid rest : list string) d :
  Forall (fun a => Str.isIdentifier a = true) valid ->
  match rest with
  | [] => True
  | bad :: _ => Str.isIdentifier bad = false
  end ->
  mapM ensureAgentId (valid ++ rest) d
  = (d, match rest with
        | [] => Ok valid
        | _ :: _ => Err (TeamdStoreError 400 INVALID_AGENT_ID)
        end).
Proof.
  intros Hvalid Hrest. induction Hvalid as [|a valid Ha Hvalid IH].
  - destruct rest as [|bad rest]; [reflexivity|].
    simpl. unfold ensureAgentId. rewrite Hrest. reflexivity.
  - simpl. unfold ensureAgentId at 1. rewrite Ha. cbn [negb]. mrun.
    unfold bind at 1. rewrite IH. destruct rest; reflexivity.
Qed.

Lemma fold_max_bound {A} (g : A -> nat) (l : list A) (a : nat) x :
  x ∈ l -> (g x <= fold_left (fun maxValue y => Nat.max maxValue (g y)) l a)%nat.
Proof.
  revert a. induction l as [|y l IH]; intros a Hin; [inversion Hin|].
  simpl. apply elem_of_cons in Hin as [-> | Hin].
  - clear IH. generalize (Nat.max a (g y)) (Nat.le_max_r a (g y)). revert l.
    induction l as [|z l IHl]; intros b Hb; simpl; [exact Hb|].
    apply IHl. lia.
  - apply IH, Hin.
Qed.

(** X17. [startThread] for the store's team. It throws [400
    INVALID_AGENT_ID] at the first participant that is not a valid
    identifier and [404 TASK_NOT_FOUND] when the task named, a file name
    of the tasks directory, has no file, and writes nothing then. When no
    task is named or the task has a file, and the numbers of the threads
    of the index are below [2 ^ 53 - 1], where the arithmetic of the code
    is exact, it puts a new thread at the
    end of the index and returns it: the title defaults to [Thread], the
    participants are distinct, the two time stamps are the time of the
    call, the number in the identifier is larger than that of every thread
    in the index, and neither an inbox nor a task is written. *)
Theorem startThread_opens_thread cfg now input d :
  let members := threadMembers input in
  let task := trimmedOption (StartThreadInput.taskId input) in
  let r := startThread cfg now (teamId cfg) input d in
  (forall valid bad rest,
     members = valid ++ bad :: rest ->
     Forall (fun a => Str.isIdentifier a = true) valid ->
     Str.isIdentifier bad = false ->
     r = (d, Err (TeamdStoreError 400 INVALID_AGENT_ID))) /\
  (Forall (fun a => Str.isIdentifier a = true) members ->
   (forall taskId, task = Some taskId -> Helpers.isFileName taskId = true ->
      taskFiles d !! taskId = None ->
      r = (d, Err (TeamdStoreError 404 TASK_NOT_FOUND))) /\
   ((forall taskId, task = Some taskId -> is_Some (taskFiles d !! taskId)) ->
    Forall (fun other =>
              Z.of_nat (Helpers.parseThreadNumericId (ThreadRecord.id other)) < 2 ^ 53 - 1)
           (threadIndex d) ->
    exists thread,
      snd r = Ok thread /\
      threadIndex (fst r) = threadIndex d ++ [thread] /\
      ThreadRecord.title thread
      = default "Thread" (trimmedOption (StartThreadInput.title input)) /\
      ThreadRecord.participants thread = members /\ NoDup members /\
      ThreadRecord.taskId thread = task /\
      ThreadRecord.createdAt thread = now /\ ThreadRecord.updatedAt thread = now /\
      ThreadRecord.id thread
      = Helpers.buildThreadId (Helpers.parseThreadNumericId (ThreadRecord.id thread)) /\
      (forall other, other ∈ threadIndex d ->
         (Helpers.parseThreadNumericId (ThreadRecord.id other)
          < Helpers.parseThreadNumericId (ThreadRecord.id thread))%nat) /\
      inboxFiles (fst r) = inboxFiles d /\ taskFiles (fst r) = taskFiles d)).
Proof.
  intros members task r. subst r.
  unfold startThread. rewrite assertTeamId_ok. mrun. cbv zeta.
  change (Str.dedupe
            match trimmedOption (StartThreadInput.agentId input) with
            | Some a =>
                Str.dedupe (filter (fun s => Is_true (Str.nonEmpty s))
                  (map Str.trim (default [] (StartThreadInput.participants input)))) ++ [a]
            | None =>
                Str.dedupe (filter (fun s => Is_true (Str.nonEmpty s))
                  (map Str.trim (default [] (StartThreadInput.participants input))))
            end) with members.
  fold task.
  split.
  - intros valid bad rest Hsplit Hvalid Hbad.
    unfold bind at 1. rewrite Hsplit, (mapM_ensureAgentId valid (bad :: rest) d Hvalid Hbad).
    reflexivity.
  - intros Hvalid. pose proof (mapM_ensureAgentId members [] d Hvalid I) as Hmap.
    rewrite app_nil_r in Hmap. split.
    + intros taskId Htask _ Hnone. unfold bind at 1. rewrite Hmap.
      unfold readThreadIndex. mrun. rewrite Htask.
      unfold loadTaskOrThrow, readTask. mrun. rewrite Hnone. reflexivity.
    + intros Hsome _.
      set (thread :=
             ThreadRecord.mk
               (Helpers.buildThreadId
                  (fold_left (fun maxValue thread =>
                     Nat.max maxValue (Helpers.parseThreadNumericId (ThreadRecord.id thread)))
                     (threadIndex d) 0 + 1)%nat)
               (default "Thread" (trimmedOption (StartThreadInput.title input)))
               members task now now).
      match goal with |- exists _, snd ?r = _ /\ _ =>
        assert (Hr : r = (setAuditLog
                            (auditLog d ++
                             [AuditEvent.mk
                                (default "teamd"
                                   (trimmedOption (StartThreadInput.agentId input)))
                                "thread_started" [("threadId", ThreadRecord.id thread)] now])
                            (setThreadIndex (threadIndex d ++ [thread]) d),
                          Ok thread))
      end.
      { unfold bind at 1. rewrite Hmap. unfold readThreadIndex. mrun.
        assert (Hload : forall B (k : unit -> M B),
                  bind (match task with
                        | Some taskId => loadTaskOrThrow taskId ;; ret tt
                        | None => ret tt
                        end) k d = k tt d).
        { intros B k. destruct task as [taskId|]; [|reflexivity].
          destruct (Hsome taskId eq_refl) as [t Ht].
          unfold loadTaskOrThrow, readTask. mrun. rewrite Ht. reflexivity. }
        rewrite Hload. unfold writeThreadIndex, appendAuditEvent. mrun. reflexivity. }
      rewrite Hr. exists thread. simpl.
      split; [reflexivity|]. split; [reflexivity|]. split; [reflexivity|].
      split; [reflexivity|]. split; [apply dedupeFrom_NoDup|]. split; [reflexivity|].
      split; [reflexivity|]. split; [reflexivity|].
      unfold Helpers.parseThreadNumericId, Helpers.buildThreadId.
      rewrite parseNumericId_build. split; [reflexivity|]. split; [|split; reflexivity].
      intros other Hin.
      pose proof (fold_max_bound
                    (fun thread => Helpers.parseNumericId "thread-" (ThreadRecord.id thread))
                    (threadIndex d) 0 other Hin) as Hle.
      simpl in Hle. unfold Helpers.parseThreadNumericId. lia.
Qed.

Lemma startThread_opens_thread_witness :
  (exists thread,
     snd (startThread exampleCfg 100 "test-team"
            (StartThreadInput.mk (Some " plan ")
               (Some ["agent-a"; nbsp +:+ "agent-a"; "agent-b"])
               None (Some "agent-b")) emptyDisk) = Ok thread /\
     ThreadRecord.title thread = "plan" /\
     ThreadRecord.participants thread = ["agent-a"; "agent-b"]) /\
  startThread exampleCfg 100 "test-team"
    (StartThreadInput.mk None (Some ["agent-a"; "agent b"]) None None) emptyDisk
  = (emptyDisk, Err (TeamdStoreError 400 INVALID_AGENT_ID)) /\
  startThread exampleCfg 100 "test-team"
    (StartThreadInput.mk None (Some ["agent-a"]) (Some "task-0009") None) diskCreated
  = (diskCreated, Err (TeamdStoreError 404 TASK_NOT_FOUND)).
Proof.
  split; [|split].
  - destruct (startThread_opens_thread exampleCfg 100
                (StartThreadInput.mk (Some " plan ")
                   (Some ["agent-a"; nbsp +:+ "agent-a"; "agent-b"]) None (Some "agent-b"))
                emptyDisk) as (_ & H).
    destruct (H ltac:(vm_compute; repeat constructor)) as (_ & Hok).
    destruct (Hok ltac:(discriminate) ltac:(constructor))
      as (thread & Hret & _ & Htitle & Hmem & _).
    exists thread. split; [exact Hret|]. split.
    + rewrite Htitle. vm_compute. reflexivity.
    + rewrite Hmem. vm_compute. reflexivity.
  - destruct (startThread_opens_thread exampleCfg 100
                (StartThreadInput.mk None (Some ["agent-a"; "agent b"]) None None)
                emptyDisk) as (H & _).
    apply (H ["agent-a"] "agent b" []); [reflexivity | repeat constructor | reflexivity].
  - destruct (startThread_opens_thread exampleCfg 100
                (StartThreadInput.mk None (Some ["agent-a"]) (Some "task-0009") None)
                diskCreated) as (_ & H).
    destruct (H ltac:(vm_compute; repeat constructor)) as (Hnone & _).
    apply (Hnone "task-0009"); vm_compute; reflexivity.
Defined.

(* ===================================================================== *)
(** ** Linking a thread to a task *)
(* ===================================================================== *)

Lemma findThread_updateThread_other threadId other f threads :
  (forall t, ThreadRecord.id (f t) = ThreadRecord.id t) ->
  other <> threadId ->
  findThread other (updateThread threadId f threads) = findThread other threads.
Proof.
  intros Hf Hne. unfold findThread. induction threads as [|x threads IH]; [reflexivity|].
  simpl. destruct (String.eqb_spec (ThreadRecord.id x) threadId) as [Hx|Hx].
  - simpl. rewrite Hf. destruct (String.eqb_spec (ThreadRecord.id x) other); [congruence|].
    reflexivity.
  - simpl. destruct (String.eqb (ThreadRecord.id x) other); [reflexivity | exact IH].
Qed.

Lemma length_updateThread threadId f threads :
  length (updateThread threadId f threads) = length threads.
Proof.
  induction threads as [|x threads IH]; [reflexivity|].
  simpl. destruct (String.eqb (ThreadRecord.id x) threadId); simpl; congruence.
Qed.

(** The thread that [linkThreadToTask] writes back. *)
Definition linkedTo (now : Z) (taskId : string) (t : ThreadRecord.t) : ThreadRecord.t :=
  ThreadRecord.mk (ThreadRecord.id t) (ThreadRecord.title t)
    (ThreadRecord.participants t) (Some taskId) (ThreadRecord.createdAt t) now.

(** X18. [linkThreadToTask] looks for the task first: a task id that is a
    file name of the tasks directory and has no file there is reported as
    [404 TASK_NOT_FOUND] whether the thread exists or not, a missing thread
    of an existing task as [404 THREAD_NOT_FOUND], and neither call changes
    the disk. When both exist the call returns the
    thread with the task id set and [updatedAt] moved to the clock, its
    other fields kept; the index then holds that record under the thread
    id, every other thread id resolves as before, and the task files, the
    thread logs and the inboxes are untouched, so nobody is notified and
    the task does not record the link. *)
Theorem linkThreadToTask_links cfg now input d :
  let taskId := LinkThreadToTaskInput.taskId input in
  let threadId := LinkThreadToTaskInput.threadId input in
  let r := linkThreadToTask cfg now (teamId cfg) input d in
  (Helpers.isFileName taskId = true -> taskFiles d !! taskId = None ->
     r = (d, Err (TeamdStoreError 404 TASK_NOT_FOUND))) /\
  (is_Some (taskFiles d !! taskId) -> findThread threadId (threadIndex d) = None ->
     r = (d, Err (TeamdStoreError 404 THREAD_NOT_FOUND))) /\
  (forall thread,
     is_Some (taskFiles d !! taskId) -> findThread threadId (threadIndex d) = Some thread ->
     snd r = Ok (linkedTo now taskId thread) /\
     findThread threadId (threadIndex (fst r)) = Some (linkedTo now taskId thread) /\
     (forall other, other <> threadId ->
        findThread other (threadIndex (fst r)) = findThread other (threadIndex d)) /\
     length (threadIndex (fst r)) = length (threadIndex d) /\
     taskFiles (fst r) = taskFiles d /\
     threadFiles (fst r) = threadFiles d /\
     inboxFiles (fst r) = inboxFiles d /\
     auditLog (fst r)
     = auditLog d ++ [AuditEvent.mk "teamd" "thread_linked_task"
                        [("threadId", threadId); ("taskId", taskId)] now]).
Proof.
  intros taskId threadId r. subst r.
  unfold linkThreadToTask, loadTaskOrThrow, readTask, readThreadIndex.
  rewrite assertTeamId_ok. fold taskId threadId. mrun.
  split; [|split].
  - intros _ H. rewrite H. mrun. reflexivity.
  - intros [t Ht] Hf. rewrite Ht. mrun. rewrite Hf. reflexivity.
  - intros thread [t Ht] Hf. rewrite Ht. mrun. rewrite Hf.
    unfold writeThreadIndex, appendAuditEvent. mrun.
    pose proof (findThread_id _ _ _ Hf) as Hid.
    cbn [fst snd]. unfold setThreadIndex, setAuditLog; cbn.
    split; [reflexivity|]. split; [|split; [|split; [|split; [|split; [|split]]]]];
      try reflexivity.
    + apply (findThread_updateThread threadId (linkedTo now taskId));
        [reflexivity | exact Hf].
    + intros other Hne.
      apply (findThread_updateThread_other threadId other (linkedTo now taskId));
        [reflexivity | exact Hne].
    + apply length_updateThread.
    + rewrite Hid. reflexivity.
Qed.

(** A disk with the task of the example and a thread. *)
Definition diskTaskThread : Disk :=
  runOps exampleStringify exampleCfg
    [OpStartThread 100 "test-team"
       (StartThreadInput.mk (Some "plan") (Some ["agent-a"; "agent-b"]) None None)]
    diskCreated.

Lemma linkThreadToTask_links_witness :
  snd (linkThreadToTask exampleCfg 4000 "test-team"
         (LinkThreadToTaskInput.mk "thread-0001" "task-0001") diskThread)
  = Err (TeamdStoreError 404 TASK_NOT_FOUND) /\
  snd (linkThreadToTask exampleCfg 4000 "test-team"
         (LinkThreadToTaskInput.mk "thread-0009" "task-0001") diskCreated)
  = Err (TeamdStoreError 404 THREAD_NOT_FOUND) /\
  snd (linkThreadToTask exampleCfg 4000 "test-team"
         (LinkThreadToTaskInput.mk "thread-0001" "task-0001") diskTaskThread)
  = Ok (ThreadRecord.mk "thread-0001" "plan" ["agent-a"; "agent-b"] (Some "task-0001")
          100 4000).
Proof.
  split; [|split].
  - destruct (linkThreadToTask_links exampleCfg 4000
                (LinkThreadToTaskInput.mk "thread-0001" "task-0001") diskThread)
      as (H & _).
    refine (eq_trans (f_equal snd (H _ _)) _); reflexivity.
  - destruct (linkThreadToTask_links exampleCfg 4000
                (LinkThreadToTaskInput.mk "thread-0009" "task-0001") diskCreated)
      as (_ & H & _).
    refine (eq_trans (f_equal snd (H _ _)) _); [|reflexivity|reflexivity].
    eexists. vm_compute. reflexivity.
  - destruct (linkThreadToTask_links exampleCfg 4000
                (LinkThreadToTaskInput.mk "thread-0001" "task-0001") diskTaskThread)
      as (_ & _ & H).
    destruct (H (ThreadRecord.mk "thread-0001" "plan" ["agent-a"; "agent-b"] None 100 100))
      as (Hret & _).
    + eexists. vm_compute. reflexivity.
    + vm_compute. reflexivity.
    + exact Hret.
Defined.

(* ===================================================================== *)
(** ** Write permission after a task is finished *)
(* ===================================================================== *)

(** A task other than [finishedId] grants [agentId] the path. *)
Definition holdsOtherLeaseFor (finishedId : string) (d : Disk) (now : Z)
    (agentId target : string) : Prop :=
  exists k t l resource,
    k <> finishedId /\
    taskFiles d !! k = Some t /\
    TaskRecord.status t = in_progress /\
    TaskRecord.lease t = Some l /\
    TaskLease.holder l = agentId /\
    now < TaskLease.expiresAt l /\
    resource ∈ TaskRecord.resources t /\
    (target = resource \/ Str.startsWith target (resource +:+ "/") = true).

(** The task files after a [completeTask] or [failTask] that returned. *)
Lemma finish_Ok_files cfg now f input d d' t :
  wfTasks (taskFiles d) ->
  finish cfg now f input d = (d', Ok t) ->
  exists t0,
    taskFiles d !! FinalizeTaskInput.taskId input = Some t0 /\
    let written := <[TaskRecord.id t0 := finalized now f t0]> (taskFiles d) in
    taskFiles d' = written \/ taskFiles d' = unlockedFiles (TaskRecord.id t0) written.
Proof.
  intros Hwf Hrun.
  destruct (taskFiles d !! FinalizeTaskInput.taskId input) as [t0|] eqn:Hk.
  2:{ exfalso. destruct f; simpl in Hrun.
      - rewrite (completeTask_not_found _ _ _ _ Hk) in Hrun. discriminate.
      - rewrite failTask_ok_team, (finalizeTask_not_found _ _ _ _ _ Hk) in Hrun.
        discriminate. }
  destruct (checkLease now t0 (FinalizeTaskInput.agentId input)
              (FinalizeTaskInput.epoch input)) as [l|e] eqn:Hc.
  2:{ rewrite (finish_rejected _ _ _ _ _ _ _ Hk Hc) in Hrun. discriminate. }
  exists t0. split; [reflexivity|]. cbv zeta. destruct f; simpl in Hrun.
  - destruct (completeTask_completes cfg now input d t0 l Hwf Hk Hc) as (_ & H).
    rewrite Hrun in H. simpl in H. destruct H as [[_ H] | [_ H]]; auto.
  - rewrite failTask_ok_team in Hrun.
    destruct (finalizeTask_finalizes cfg now input FinalFailed d t0 l Hk Hc) as (H & _).
    rewrite Hrun in H. simpl in H. auto.
Qed.

(** The tasks in progress after the call are the ones that were in
    progress before it, less the finished one. *)
Lemma finish_in_progress cfg now f input d d' t k x :
  wfTasks (taskFiles d) ->
  finish cfg now f input d = (d', Ok t) ->
  TaskRecord.status x = in_progress ->
  taskFiles d' !! k = Some x <->
  k <> FinalizeTaskInput.taskId input /\ taskFiles d !! k = Some x.
Proof.
  intros Hwf Hrun Hs.
  destruct (finish_Ok_files _ _ _ _ _ _ _ Hwf Hrun) as (t0 & Hk0 & Hfiles).
  pose proof (Hwf _ _ Hk0) as Hid. cbv zeta in Hfiles. rewrite Hid in Hfiles.
  set (tid := FinalizeTaskInput.taskId input) in *.
  assert (Hfin : TaskRecord.status (finalized now f t0) <> in_progress)
    by (destruct f; simpl; discriminate).
  assert (Hw : <[tid := finalized now f t0]> (taskFiles d) !! k = Some x <->
               k <> tid /\ taskFiles d !! k = Some x).
  { rewrite lookup_insert. case_decide as E.
    - split; [intros [= <-]; contradiction | intros [H _]; congruence].
    - split; [intros H; split; [congruence | exact H] | intros [_ H]; exact H]. }
  destruct Hfiles as [-> | ->]; [exact Hw|].
  rewrite <- Hw. unfold unlockedFiles. rewrite lookup_fmap.
  destruct (<[tid := finalized now f t0]> (taskFiles d) !! k) as [y|]; simpl;
    [|split; discriminate].
  destruct (unlockable _ _ y) eqn:E.
  - apply unlockable_blocked in E. split.
    + intros [= <-]. simpl in Hs. discriminate.
    + intros [= ->]. congruence.
  - reflexivity.
Qed.

(** X19. Finishing a task withdraws the write permission it gave. After
    a [completeTask] or [failTask] that returned, [canWrite] allows a path
    exactly when the normalized path is non-empty, passes [safeJoin], and
    a task other than the finished one, in progress before the call under
    an unexpired lease of the agent, covers the path; the finished task
    grants nothing any more, and tasks unblocked by the completion grant
    nothing yet. *)
Theorem finished_task_grants_no_write fs stringify cfg now f input d d' t
    later agentId requestedPath :
  reachable stringify cfg d ->
  finish cfg now f input d = (d', Ok t) ->
  let safePath := Helpers.normalizePathPrefix requestedPath in
  exists res,
    canWrite fs cfg later (teamId cfg) agentId requestedPath d' = (d', Ok res) /\
    (allow res = true <->
     safePath <> "" /\ isOk (Io.safeJoin fs (teamDirPath cfg) safePath) = true /\
     holdsOtherLeaseFor (FinalizeTaskInput.taskId input) d later agentId safePath).
Proof.
  intros R Hrun safePath.
  pose proof (reachable_good _ _ _ R) as G.
  assert (G' : goodDisk d').
  { apply (reachable_good stringify cfg).
    destruct f; simpl in Hrun.
    - replace d' with (runOp stringify cfg
                         (OpCompleteTask now (teamId cfg) input) d)
        by (simpl; rewrite Hrun; reflexivity).
      apply reachable_step, R.
    - replace d' with (runOp stringify cfg (OpFailTask now (teamId cfg) input) d)
        by (simpl; rewrite Hrun; reflexivity).
      apply reachable_step, R. }
  assert (Hother : holdsLeaseFor d' later agentId safePath <->
                   holdsOtherLeaseFor (FinalizeTaskInput.taskId input) d later
                     agentId safePath).
  { unfold holdsLeaseFor, holdsOtherLeaseFor. split.
    - intros (k & x & l & r & Hk & Hs & H).
      apply (finish_in_progress _ _ _ _ _ _ _ _ _ (good_wf _ G) Hrun Hs) in Hk
        as [Hne Hk].
      exists k, x, l, r. tauto.
    - intros (k & x & l & r & Hne & Hk & Hs & H).
      exists k, x, l, r. split; [|tauto].
      apply (finish_in_progress _ _ _ _ _ _ _ _ _ (good_wf _ G) Hrun Hs). tauto. }
  unfold canWrite. rewrite assertTeamId_ok, bind_ret. fold safePath.
  destruct safePath as [|a s] eqn:Es; cbn [Str.nonEmpty negb].
  { eexists. split; [reflexivity|]. simpl.
    split; [discriminate | intros [H _]; contradiction]. }
  destruct (Io.safeJoin fs (teamDirPath cfg) (String a s)) as [p|e] eqn:Ej; cbn [isOk].
  2:{ eexists. split; [reflexivity|]. simpl.
      split; [discriminate | intros (_ & H & _); discriminate]. }
  unfold listTasksUnsafe. mrun.
  pose proof (existsb_grantsWrite d' later agentId (String a s) G') as Hex.
  destruct (existsb _ _) eqn:E.
  - eexists. split; [reflexivity|]. simpl. split; [intros _ | reflexivity].
    split; [discriminate|]. split; [reflexivity|]. apply Hother, Hex. reflexivity.
  - eexists. split; [reflexivity|]. simpl. split; [discriminate|].
    intros (_ & _ & H). apply Hother, Hex in H. discriminate.
Qed.

Lemma finished_task_grants_no_write_witness :
  reachable exampleStringify exampleCfg diskClaimed /\
  snd (canWrite exampleFs exampleCfg 2005 "test-team" "agent-a" "src/index.ts" diskClaimed)
  = Ok {| allow := true; reason := "lease_active_for_resource" |} /\
  exists d' t,
    finish exampleCfg 2010 FinalCompleted (FinalizeTaskInput.mk "task-0001" "agent-a" 1)
      diskClaimed = (d', Ok t) /\
    forall res,
      snd (canWrite exampleFs exampleCfg 2011 "test-team" "agent-a" "src/index.ts" d')
      = Ok res ->
      allow res <> true.
Proof.
  split; [exact diskClaimed_reachable|]. split; [vm_compute; reflexivity|].
  destruct (finish exampleCfg 2010 FinalCompleted
              (FinalizeTaskInput.mk "task-0001" "agent-a" 1) diskClaimed)
    as [d' [t|e]] eqn:Hrun; [|vm_compute in Hrun; discriminate].
  exists d', t. split; [reflexivity|]. intros res Hres Hallow.
  destruct (finished_task_grants_no_write exampleFs exampleStringify exampleCfg 2010
              FinalCompleted (FinalizeTaskInput.mk "task-0001" "agent-a" 1)
              diskClaimed d' t 2011 "agent-a" "src/index.ts"
              diskClaimed_reachable Hrun) as (res' & Hcw & Hiff).
  change (teamId exampleCfg) with "test-team" in Hcw.
  rewrite Hcw in Hres. simpl in Hres. inversion Hres; subst res'; clear Hres.
  apply Hiff in Hallow as (_ & _ & k & x & l & r & Hne & Hk & _).
  assert (Hfiles : taskFiles diskClaimed = {[ "task-0001" := taskClaimed ]})
    by (vm_compute; reflexivity).
  rewrite Hfiles in Hk. simpl in Hne.
  rewrite lookup_singleton_ne in Hk by congruence. discriminate.
Defined.

(* ===================================================================== *)
(** ** Searching threads *)
(* ===================================================================== *)

Lemma startsWith_refl s : Str.startsWith s s = true.
Proof.
  unfold Str.startsWith. induction s as [|a s IH]; [reflexivity|].
  simpl. destruct (ascii_dec a a); [exact IH | contradiction].
Qed.

Lemma includes_refl s : Str.includes s s = true.
Proof.
  destruct s as [|a s]; [reflexivity|].
  change (Str.includes (String a s) (String a s))
    with (Str.startsWith (String a s) (String a s) || Str.includes s (String a s)).
  rewrite startsWith_refl. reflexivity.
Qed.

Lemma toLowerCase_nonEmpty s :
  Str.nonEmpty (Helpers.toLowerCase s) = Str.nonEmpty s.
Proof. destruct s; reflexivity. Qed.

(** X20. [searchThreads] never changes the disk and, for the team of the
    store, never throws. A query that is blank after trimming returns the
    whole index. Any other query returns threads of the index, in the
    order of the index, and among them every thread with a participant
    that equals the trimmed query up to the case of its letters: an agent
    searching for its own id gets all the threads it takes part in. *)
Theorem searchThreads_finds_participant cfg query d :
  exists found,
    searchThreads cfg (teamId cfg) query d = (d, Ok found) /\
    (Str.trim query = "" -> found = threadIndex d) /\
    sublist found (threadIndex d) /\
    (forall thread participant,
       thread ∈ threadIndex d ->
       participant ∈ ThreadRecord.participants thread ->
       Helpers.toLowerCase participant = Helpers.toLowerCase (Str.trim query) ->
       thread ∈ found).
Proof.
  unfold searchThreads, readThreadIndex. rewrite assertTeamId_ok. mrun.
  rewrite toLowerCase_nonEmpty.
  destruct (Str.trim query) as [|a q] eqn:Hq; cbn [Str.nonEmpty negb].
  - eexists. split; [reflexivity|]. split; [reflexivity|]. split; [reflexivity|].
    intros thread _ Hin _ _. exact Hin.
  - eexists. split; [reflexivity|]. split; [discriminate|].
    split; [apply sublist_filter|].
    intros thread participant Hin Hp Hlow. apply list_elem_of_filter.
    split; [|exact Hin]. apply Is_true_true.
    apply orb_true_iff. right. apply existsb_exists. exists participant.
    split; [apply list_elem_of_In, Hp|]. rewrite Hlow. apply includes_refl.
Qed.

Lemma searchThreads_finds_participant_witness :
  exists found,
    searchThreads exampleCfg "test-team" " Agent-B " diskThread = (diskThread, Ok found) /\
    ThreadRecord.mk "thread-0001" "plan" ["agent-a"; "agent-b"] None 100 100 ∈ found.
Proof.
  destruct (searchThreads_finds_participant exampleCfg " Agent-B " diskThread)
    as (found & Hrun & _ & _ & H).
  exists found. split; [exact Hrun|].
  apply (H _ "agent-b").
  - vm_compute. apply list_elem_of_here.
  - apply list_elem_of_In. simpl. auto.
  - vm_compute. reflexivity.
Defined.

(* ===================================================================== *)
(** ** The dependencies and resources of a stored task *)
(* ===================================================================== *)

Definition notBackslash (a : ascii) : bool := negb (Ascii.eqb a "\").

Lemma startsWith_char s c :
  Str.startsWith s (String c "")
  = match s with String a _ => Ascii.eqb a c | EmptyString => false end.
Proof.
  unfold Str.startsWith. destruct s as [|a s]; [reflexivity|]. simpl.
  destruct (ascii_dec c a) as [->|Hne].
  - rewrite Ascii.eqb_refl. destruct s; reflexivity.
  - symmetry. apply Ascii.eqb_neq. congruence.
Qed.

Lemma dropLeading_head c s : Str.startsWith (Str.dropLeading c s) (String c "") = false.
Proof.
  induction s as [|a s IH]; [reflexivity|].
  simpl. destruct (Ascii.eqb a c) eqn:E; [exact IH|].
  rewrite startsWith_char. exact E.
Qed.

Lemma dropTrailing_head c s :
  Str.startsWith s (String c "") = false ->
  Str.startsWith (Str.dropTrailing c s) (String c "") = false.
Proof.
  rewrite !startsWith_char. destruct s as [|a s]; [reflexivity|]. intros Ha. simpl.
  destruct (Str.dropTrailing c s); [rewrite Ha|]; exact Ha.
Qed.

Lemma dropTrailing_last c s : Str.endsWith (Str.dropTrailing c s) (String c "") = false.
Proof.
  induction s as [|a s IH]; [reflexivity|].
  simpl. destruct (Str.dropTrailing c s) as [|b r] eqn:E.
  - destruct (Ascii.eqb a c) eqn:Ea; [reflexivity|].
    simpl. rewrite Ea. reflexivity.
  - change (Str.endsWith (String a (String b r)) (String c ""))
      with (String.eqb (String a (String b r)) (String c "")
            || Str.endsWith (String b r) (String c "")).
    rewrite IH. simpl. destruct (Ascii.eqb a c); reflexivity.
Qed.

Lemma forallChars_replaceAll s :
  Str.forallChars notBackslash (Str.replaceAll "\" "/" s) = true.
Proof.
  induction s as [|a s IH]; [reflexivity|].
  simpl. rewrite IH. destruct (Ascii.eqb a "\") eqn:E; [reflexivity|].
  unfold notBackslash. rewrite E. reflexivity.
Qed.

Lemma forallChars_dropPrefix p q s r :
  Str.forallChars p s = true -> JsonText.dropPrefix q s = Some r ->
  Str.forallChars p r = true.
Proof.
  revert s. induction q as [|b q IH]; intros s Hs; simpl.
  - intros [= <-]. exact Hs.
  - destruct s as [|a s]; [discriminate|].
    simpl in Hs. apply andb_prop in Hs as [_ Hs].
    destruct (Ascii.eqb b a); [apply IH, Hs | discriminate].
Qed.

Lemma forallChars_dropLeading p c s :
  Str.forallChars p s = true -> Str.forallChars p (Str.dropLeading c s) = true.
Proof.
  induction s as [|a s IH]; [reflexivity|]. intros Hs. simpl.
  destruct (Ascii.eqb a c); [|exact Hs].
  simpl in Hs. apply andb_prop in Hs as [_ Hs]. apply IH, Hs.
Qed.

Lemma forallChars_dropTrailing p c s :
  Str.forallChars p s = true -> Str.forallChars p (Str.dropTrailing c s) = true.
Proof.
  induction s as [|a s IH]; [reflexivity|]. intros Hs.
  simpl in Hs. apply andb_prop in Hs as [Ha Hs]. specialize (IH Hs). simpl.
  destruct (Str.dropTrailing c s) as [|b r].
  - destruct (Ascii.eqb a c); [reflexivity|]. simpl. rewrite Ha. reflexivity.
  - change (Str.forallChars p (String a (String b r)))
      with (p a && Str.forallChars p (String b r)).
    rewrite Ha. exact IH.
Qed.

Lemma includes_backslash s :
  Str.forallChars notBackslash s = true -> Str.includes s "\" = false.
Proof.
  induction s as [|a s IH]; [reflexivity|]. intros Hs.
  simpl in Hs. apply andb_prop in Hs as [Ha Hs].
  change (Str.includes (String a s) "\")
    with (Str.startsWith (String a s) "\" || Str.includes s "\").
  rewrite startsWith_char, (IH Hs).
  unfold notBackslash in Ha. apply negb_true_iff in Ha. rewrite Ha. reflexivity.
Qed.

(** A dependency id as [createTask] stores it. *)
Definition cleanDep (dep : string) : Prop := dep <> "" /\ Str.trim dep = dep.

(** A resource as [createTask] stores it: a relative prefix with forward
    slashes only. *)
Definition cleanResource (resource : string) : Prop :=
  resource <> "" /\
  Str.startsWith resource "/" = false /\
  Str.endsWith resource "/" = false /\
  Str.includes resource "\" = false.

Lemma normalizePathPrefix_clean pathValue :
  Helpers.normalizePathPrefix pathValue <> "" ->
  cleanResource (Helpers.normalizePathPrefix pathValue).
Proof.
  intros Hne. split; [exact Hne|]. unfold Helpers.normalizePathPrefix.
  set (replaced := Str.replaceAll "\" "/" (NodePath.normalize pathValue)).
  assert (Hr : Str.forallChars notBackslash (Helpers.dropDotSlash replaced) = true).
  { unfold Helpers.dropDotSlash.
    destruct (JsonText.dropPrefix "./" replaced) as [r|] eqn:E.
    - eapply forallChars_dropPrefix; [apply forallChars_replaceAll | exact E].
    - apply forallChars_replaceAll. }
  split; [|split].
  - apply dropTrailing_head, dropLeading_head.
  - apply dropTrailing_last.
  - apply includes_backslash, forallChars_dropTrailing, forallChars_dropLeading, Hr.
Qed.

Lemma cleanDeps_clean input :
  NoDup (cleanDeps input) /\ Forall cleanDep (cleanDeps input).
Proof.
  unfold cleanDeps. split; [apply dedupeFrom_NoDup|].
  apply Forall_forall. intros dep Hin.
  apply elem_of_dedupe, list_elem_of_filter in Hin as [Hne Hin].
  apply list_elem_of_fmap in Hin as (raw & -> & _). split.
  - intros E. rewrite E in Hne. exact Hne.
  - apply trim_idem.
Qed.

Lemma cleanResources_clean input :
  NoDup (cleanResources input) /\ Forall cleanResource (cleanResources input).
Proof.
  unfold cleanResources. split; [apply dedupeFrom_NoDup|].
  apply Forall_forall. intros r Hin.
  apply elem_of_dedupe, list_elem_of_filter in Hin as [Hne Hin].
  apply list_elem_of_fmap in Hin as (raw & -> & _).
  apply normalizePathPrefix_clean. intros E. rewrite E in Hne. exact Hne.
Qed.

(** X21. Every task on disk keeps the dependencies and resources it was
    created with, and they are in the form [createTask] gives them: no
    dependency id and no resource is listed twice; a dependency id is
    non-empty and has no white space at either end; a resource is a
    non-empty relative prefix that neither starts nor ends with a slash and
    holds no backslash. *)
Theorem stored_deps_and_resources_are_clean stringify cfg d k t :
  reachable stringify cfg d ->
  taskFiles d !! k = Some t ->
  NoDup (TaskRecord.deps t) /\ Forall cleanDep (TaskRecord.deps t) /\
  NoDup (TaskRecord.resources t) /\ Forall cleanResource (TaskRecord.resources t).
Proof.
  intros R. revert k t.
  apply (reachable_tasks_ind stringify cfg
           (fun m => forall k t, m !! k = Some t ->
              NoDup (TaskRecord.deps t) /\ Forall cleanDep (TaskRecord.deps t) /\
              NoDup (TaskRecord.resources t) /\
              Forall cleanResource (TaskRecord.resources t))); [| |exact R].
  - intros k t Hk. rewrite lookup_empty in Hk. discriminate.
  - intros m m' _ IH Hstep k t' Hk'.
    destruct (tasksStep_inv _ _ _ _ Hstep Hk') as [(t & Hk & S) | (now & input & ->)].
    + destruct (taskStep_advances _ _ _ S) as ((_ & _ & _ & -> & -> & _) & _).
      eapply IH. exact Hk.
    + simpl. destruct (cleanDeps_clean input), (cleanResources_clean input). auto.
Qed.

Lemma stored_deps_and_resources_are_clean_witness :
  Forall cleanResource (TaskRecord.resources taskClaimed).
Proof.
  apply (stored_deps_and_resources_are_clean exampleStringify exampleCfg diskClaimed
           "task-0001" taskClaimed diskClaimed_reachable).
  vm_compute. reflexivity.
Defined.

(* ===================================================================== *)
(** ** What the client discovers *)
(* ===================================================================== *)

Lemma nonEmpty_true s : Str.nonEmpty s = true <-> s <> "".
Proof. destruct s; simpl; split; congruence. Qed.

(** X22. A descriptor that [discover] returns can be used as it is: its
    team id and its token are non-empty, its base url does not end with a
    slash, and with [requireAgent] its agent id is non-empty. Asking for
    an agent only restricts the answer: the same descriptor is returned
    without [requireAgent]. *)
Theorem discover_descriptor_is_usable
    (readFileImpl : string -> Result Errno string) (JSON_parse : string -> option Json)
    (env : gmap string string) (requireAgent : bool) (d : DiscoveryData.t) :
  TeamdClient.discover readFileImpl JSON_parse env requireAgent = Some d ->
  DiscoveryData.teamId d <> "" /\
  DiscoveryData.token d <> "" /\
  Str.endsWith (DiscoveryData.baseUrl d) "/" = false /\
  (requireAgent = true -> DiscoveryData.agentId d <> "") /\
  TeamdClient.discover readFileImpl JSON_parse env false = Some d.
Proof.
  unfold TeamdClient.discover.
  set (url := TeamdClient.asString (env !! "PI_TEAMD_URL")).
  set (token := TeamdClient.asString (env !! "PI_TEAMD_TOKEN")).
  set (teamId := TeamdClient.asString (env !! "PI_TEAM_ID")).
  set (agentId := TeamdClient.asString (env !! "PI_AGENT_ID")).
  set (tokenFile := TeamdClient.asString (env !! "PI_TEAMD_TOKEN_FILE")).
  destruct (if _ : bool then _ else _) as [[token' url']|]; [|discriminate].
  destruct (Str.nonEmpty url') eqn:Hu; [|discriminate].
  destruct (Str.nonEmpty token') eqn:Ht; [|discriminate].
  destruct (Str.nonEmpty teamId) eqn:Hteam; [|discriminate].
  cbn [negb orb andb].
  destruct requireAgent; cbn [andb].
  - destruct (Str.nonEmpty agentId) eqn:Ha; [|discriminate]. cbn [negb].
    intros [= <-]. simpl.
    repeat split; try (apply nonEmpty_true; assumption).
    + apply dropTrailing_last.
    + intros _. apply nonEmpty_true. exact Ha.
  - intros [= <-]. simpl.
    repeat split; try (apply nonEmpty_true; assumption); try discriminate.
    apply dropTrailing_last.
Qed.

Lemma discover_descriptor_is_usable_witness :
  TeamdClient.discover (fun _ => Err ENOENT) (fun _ => None)
    (<["PI_TEAMD_URL" := "http://127.0.0.1:4500//"]>
       (<["PI_TEAMD_TOKEN" := " secret "]>
          (<["PI_TEAM_ID" := "test-team"]> (<["PI_AGENT_ID" := "agent-a"]> ∅)))) false
  = Some (DiscoveryData.mk "test-team" "agent-a" "http://127.0.0.1:4500" "secret").
Proof.
  apply (discover_descriptor_is_usable (fun _ => Err ENOENT) (fun _ => None) _ true).
  vm_compute. reflexivity.
Defined.

(* ===================================================================== *)
(** ** The bearer token of the HTTP server *)
(* ===================================================================== *)

Module HttpServer.

Definition space : ascii := " "%char.

(** [parseBearerToken(header)]; [None] is [null], and a missing header is
    [undefined]. *)
Definition parseBearerToken (header : option string) : option string :=
  match header with
  | None => None
  | Some header =>
      if negb (Str.nonEmpty header) then None
      else
        let parts := Str.split space header in
        let kind := head parts in
        let value := head (tail parts) in
        if negb (bool_decide (kind = Some "Bearer")) then None
        else
          match value with
          | Some value => if Str.nonEmpty value then Some value else None
          | None => None
          end
  end.

(** The test of the request handler on a path under [/v1/]: the request
    goes on when [token !== options.token] is false. *)
Definition authorized (optionsToken : string) (authorization : option string) : bool :=
  bool_decide (parseBearerToken authorization = Some optionsToken).

End HttpServer.

Definition noChar (c : ascii) (s : string) : Prop :=
  Str.forallChars (fun a => negb (Ascii.eqb a c)) s = true.

Lemma noChar_cons c a s : noChar c (String a s) <-> a <> c /\ noChar c s.
Proof.
  unfold noChar. simpl. rewrite andb_true_iff, negb_true_iff.
  split; intros [H1 H2]; (split; [|exact H2]).
  - intros ->. rewrite Ascii.eqb_refl in H1. discriminate.
  - apply Ascii.eqb_neq. exact H1.
Qed.

Lemma split_noChar c s : noChar c s -> Str.split c s = [s].
Proof.
  induction s as [|a s IH]; intros H; [reflexivity|].
  apply noChar_cons in H as [Ha Hs].
  rewrite split_other by exact Ha. rewrite (IH Hs). reflexivity.
Qed.

(** A string without the separator is its own single piece; any other
    string is a first piece without the separator, the separator, and the
    rest. *)
Lemma split_first c s :
  (noChar c s /\ Str.split c s = [s]) \/
  (exists w rest, s = w +:+ String c rest /\ noChar c w /\
                  Str.split c s = w :: Str.split c rest).
Proof.
  induction s as [|a s IH]; [left; split; reflexivity|].
  destruct (Ascii.eqb_spec a c) as [->|Ha].
  - right. exists "", s. split; [reflexivity|]. split; [reflexivity|]. apply split_sep.
  - rewrite split_other by exact Ha.
    destruct IH as [[Hs ->] | (w & rest & -> & Hw & ->)].
    + left. split; [apply noChar_cons; auto | reflexivity].
    + right. exists (String a w), rest. split; [reflexivity|].
      split; [apply noChar_cons; auto | reflexivity].
Qed.

Lemma head_split c s : exists w, head (Str.split c s) = Some w.
Proof. rewrite (split_hd_tl c s). eexists. reflexivity. Qed.

Lemma parseBearerToken_spec header token :
  HttpServer.parseBearerToken header = Some token <->
  token <> "" /\ noChar HttpServer.space token /\
  exists h, header = Some h /\
    (h = "Bearer " +:+ token \/ exists rest, h = "Bearer " +:+ token +:+ " " +:+ rest).
Proof.
  unfold HttpServer.parseBearerToken. split.
  - destruct header as [h|]; [|discriminate].
    destruct (Str.nonEmpty h); [|discriminate]. cbn [negb].
    destruct (split_first HttpServer.space h) as [[_ ->] | (kind & rest & -> & Hk & ->)].
    { simpl. destruct (bool_decide _); discriminate. }
    cbn [head tail]. case_bool_decide as Hkind; [|discriminate]. cbn [negb].
    inversion Hkind; subst kind; clear Hkind.
    destruct (split_first HttpServer.space rest)
      as [[Hr ->] | (value & rest' & -> & Hv & ->)]; cbn [head].
    + destruct (Str.nonEmpty rest) eqn:Hne; [|discriminate].
      intros [= <-]. split; [apply nonEmpty_true, Hne|]. split; [exact Hr|].
      eexists. split; [reflexivity|]. left. reflexivity.
    + destruct (Str.nonEmpty value) eqn:Hne; [|discriminate].
      intros [= <-]. split; [apply nonEmpty_true, Hne|]. split; [exact Hv|].
      eexists. split; [reflexivity|]. right. exists rest'. reflexivity.
  - intros (Hne & Hno & h & -> & Hh).
    apply nonEmpty_true in Hne.
    assert (Hsplit : head (tail (Str.split HttpServer.space h)) = Some token /\
                     head (Str.split HttpServer.space h) = Some "Bearer" /\
                     Str.nonEmpty h = true).
    { destruct Hh as [-> | (rest & ->)].
      - change ("Bearer " +:+ token) with ("Bearer" +:+ String HttpServer.space token).
        rewrite split_app, (split_noChar _ _ Hno). repeat split.
      - change ("Bearer " +:+ token +:+ " " +:+ rest)
          with ("Bearer" +:+ String HttpServer.space
                              (token +:+ String HttpServer.space rest)).
        rewrite !split_app, (split_noChar _ _ Hno). repeat split. }
    destruct Hsplit as (-> & -> & ->). cbn [negb].
    rewrite bool_decide_eq_true_2 by reflexivity. cbn [negb]. rewrite Hne. reflexivity.
Qed.

(** X23. A request under [/v1/] passes the token check exactly when the
    server's token is non-empty and has no space, and the [authorization]
    header is [Bearer], one space and the token, either ending there or
    followed by a space and anything at all. So a server whose token is
    empty or holds a space rejects every request, a second space or a
    different case of [Bearer] is rejected, and text after the token is
    ignored. *)
Theorem authorized_iff optionsToken authorization :
  HttpServer.authorized optionsToken authorization = true <->
  optionsToken <> "" /\ noChar HttpServer.space optionsToken /\
  exists h, authorization = Some h /\
    (h = "Bearer " +:+ optionsToken \/
     exists rest, h = "Bearer " +:+ optionsToken +:+ " " +:+ rest).
Proof.
  unfold HttpServer.authorized. rewrite bool_decide_eq_true.
  apply parseBearerToken_spec.
Qed.

Lemma authorized_iff_witness :
  HttpServer.authorized "secret" (Some "Bearer secret and more") = true /\
  HttpServer.authorized "se cret" (Some "Bearer se cret") <> true.
Proof.
  split.
  - apply (authorized_iff "secret" (Some "Bearer secret and more")).
    split; [discriminate|]. split; [reflexivity|].
    eexists. split; [reflexivity|]. right. exists "and more". reflexivity.
  - intros H. apply (authorized_iff "se cret" (Some "Bearer se cret")) in H
      as (_ & H & _).
    vm_compute in H. discriminate.
Defined.
